(** * A shallow embedding of the cause-list scraper

    The development follows the Python sources:
    - [src/utils.py]: the [WebScraper] class (page helpers, the CAPTCHA retry
      loop, the PDF export loop and the two scraping entry points);
    - [src/server/main.py]: the [ConnectionManager] of the web server and
      the two request handlers that run the scraper;
    - [src/cli.py]: the checks of the command line and the script's report.

    The scraper is sequential effectful code that talks to a browser.  It is
    embedded in a state, writer and exception monad: a computation returns,
    besides its result, every call it made to the outside (browser, file
    system, standard output, the consumer of the generator), in order, each
    with the answer it got.  The answers come from an environment [Env];
    every statement is quantified over all environments, that is, over all
    behaviours of the portal.

    What the model takes for granted:
    - every awaited call comes back, with a value or with an exception
      (Playwright puts a timeout on the calls that wait);
    - paths are POSIX paths, and the working directory does not change
      during a run;
    - a generator is run to its end: the consumer takes every record (the
      request handlers, which may stop early, are followed as far as they
      go);
    - what the libraries do inside (the browser's own files, the temporary
      files of pytesseract) is not part of the model;
    - the exceptions are those of the calls the code makes: of Playwright,
      of the file system ([OSError], and [ValueError] for a path the
      system does not take), of [b64decode], PIL and pytesseract, and of
      [re.compile]. *)

From Stdlib Require Import Ascii String Lia Sorted.
From stdpp Require Import base list strings gmap.
From Equations Require Import Equations.

Open Scope string_scope.
Open Scope list_scope.

(** ** Strings *)

(** [s.split(sep)] of Python for a one-character separator. *)
Fixpoint split (sep : ascii) (s : string) : list string :=
  match s with
  | EmptyString => [EmptyString]
  | String c rest =>
      if Ascii.eqb c sep then EmptyString :: split sep rest
      else match split sep rest with
           | [] => [String c EmptyString]
           | field :: fields => String c field :: fields
           end
  end.

(** [sep.join(fields)] of Python. *)
Fixpoint join (sep : string) (fields : list string) : string :=
  match fields with
  | [] => ""
  | [x] => x
  | x :: rest => x +:+ sep +:+ join sep rest
  end.

(** [sep not in s]. *)
Fixpoint lacks (sep : ascii) (s : string) : bool :=
  match s with
  | EmptyString => true
  | String c rest => negb (Ascii.eqb c sep) && lacks sep rest
  end.

(** ** The part of [pathlib] the scraper uses (POSIX flavour)

    A path is kept as [pathlib] keeps it: a root and the list of its
    components, empty components and [.] dropped, [..] kept. *)
Module pathlib.

Inductive Root := Relative | Slash | DoubleSlash.

Record Path := mkPath { root : Root; parts : list string }.

(** [posixpath.splitroot]: exactly two leading slashes are a root of their
    own, one or at least three are the root [/]. *)
Definition root_of (s : string) : Root :=
  match s with
  | String "/" (String "/" (String "/" _)) => Slash
  | String "/" (String "/" _) => DoubleSlash
  | String "/" _ => Slash
  | _ => Relative
  end.

Definition is_component (x : string) : bool :=
  negb (String.eqb x "") && negb (String.eqb x ".").

Definition components (s : string) : list string :=
  List.filter is_component (split "/" s).

(** [Path(s)]. *)
Definition of_string (s : string) : Path :=
  {| root := root_of s; parts := components s |}.

Definition is_absolute (p : Path) : bool :=
  match root p with Relative => false | _ => true end.

(** One step of [joinpath]: a segment that starts with a slash replaces
    what came before, any other segment is appended. *)
Definition join1 (p : Path) (segment : string) : Path :=
  match root_of segment with
  | Relative => {| root := root p; parts := parts p ++ components segment |}
  | _ => of_string segment
  end.

(** [p.joinpath(s1, ..., sn)]. *)
Definition joinpath (p : Path) (segments : list string) : Path :=
  foldl join1 p segments.

Definition root_string (r : Root) : string :=
  match r with Relative => "" | Slash => "/" | DoubleSlash => "//" end.

(** [str(p)]. *)
Definition render (p : Path) : string :=
  match root p, parts p with
  | Relative, [] => "."
  | r, ps => root_string r +:+ join "/" ps
  end.

(** [p.absolute()], in the working directory [cwd]. *)
Definition absolute (cwd : string) (p : Path) : Path :=
  if is_absolute p then p
  else {| root := root (of_string cwd);
          parts := parts (of_string cwd) ++ parts p |}.

(** [p.name]: the final component. *)
Definition name (p : Path) : string := List.last (parts p) "".

(** [p.parent] for a path with at least one component. *)
Definition parent (p : Path) : Path :=
  {| root := root p; parts := List.removelast (parts p) |}.

(** [file] lies in the directory tree below [dir]: same root, the
    components of [dir] followed by at least one more, none of which
    climbs back up. *)
Definition under (dir file : Path) : Prop :=
  root file = root dir /\
  exists rest, rest <> [] /\ parts file = parts dir ++ rest /\ ~ In ".." rest.

End pathlib.
Import pathlib.

(** ** Constants of [utils.py] *)

Definition LAW := "https://services.ecourts.gov.in/ecourtindia_v6/?p=cause_list/".

(** [IMG_TO_CANVAS_JS]: the script that draws [img#captcha_image] on a canvas
    and returns its PNG data URL (it throws when the image is not there). *)
Inductive Script := IMG_TO_CANVAS_JS.

Definition CAPTCHA := "img#captcha_image".
Definition CLOSE := "div.modal-header.text-center.align-items-start button.btn-close".
Definition CNR_NUMBER := "span.fw-bold.text-uppercase.fs-5.me-2.text-danger".
Definition STATE := "#sess_state_code".
Definition DIST := "#sess_dist_code".
Definition COURT := "#court_complex_code".
Definition COURT_NAME := "#CL_court_no".
Definition DATE := "#causelist_date".
Definition CAPTCHA_CODE := "#cause_list_captcha_code".
Definition REFRESH := "img.refresh-btn".
Definition CIVIL := "button:has-text('Civil')".
Definition CRIMINAL := "button:has-text('Criminal')".
Definition VIEW := "a.someclass".
Definition BACK := "button#main_back_CauseList".
Definition MAX_FETCH := 5.
Definition MAX_ITERATIONS := 10.

(** [class CaseType(Enum)] and its [.value]. *)
Inductive CaseType := Civil | Criminal.

Definition value (c : CaseType) : string :=
  match c with Civil => CIVIL | Criminal => CRIMINAL end.

(** [class Dict(typing.NamedTuple)]. *)
Record Dict := mkDict { cnr : string; path : string }.

(** [class WebScraper]: the two attributes set by [__init__]. *)
Record WebScraper := mkWebScraper { PATH : string; HEADLESS : bool }.

(** ** The outside world *)

(** Playwright locators, as the code builds them. *)
Inductive Locator :=
| Css (selector : string)              (* page.locator(selector) *)
| First (l : Locator)                  (* l.first *)
| ByText (l : Locator) (pattern : string)
                                       (* l.get_by_text(re.compile(pattern, re.IGNORECASE)) *)
| Nth (l : Locator) (i : nat).         (* the i-th element of await l.all() *)

(** Every call that leaves the program. *)
Inductive Action :=
| Start                                 (* async with async_playwright() as p *)
| Stop                                  (* leaving that block *)
| Launch (headless : bool)              (* p.chromium.launch(headless=...) *)
| NewPage                               (* browser.new_page() *)
| Goto (url : string)                   (* page.goto(url, timeout=0) *)
| WaitForLoadState (state : string)     (* page.wait_for_load_state(state) *)
| Sleep (seconds : nat)                 (* asyncio.sleep(seconds) *)
| IsVisible (l : Locator)
| Click (l : Locator)
| Fill (l : Locator) (text : string)
| GetAttribute (l : Locator) (attribute : string)
| SelectOption (l : Locator) (choice : option string)
| InnerText (l : Locator)
| All (l : Locator)
| Evaluate (js : Script)                (* page.evaluate(js) *)
| Pdf (file : Path)                     (* page.pdf(path=file): renders the page and
                                           writes [file], with its missing parents *)
| Makedirs (dir : Path)                 (* os.makedirs(dir, exist_ok=True) *)
| Print (line : string)                 (* print(line) *)
| Yield (record : Dict).                (* yield record *)

(** What a call came back with. *)
Inductive Reply :=
| RUnit
| RBool (b : bool)
| RText (s : string)
| RAttr (a : option string)
| RCount (n : nat)
| RTimeout                              (* playwright's TimeoutError *)
| RError                                (* any other playwright Error *)
| ROSError                              (* OSError of a call that writes *)
| RValueError.                          (* ValueError of a call that writes *)

Definition Event : Type := Action * Reply.

(** The exceptions that can travel through the scraper. *)
Inductive exn :=
| TimeoutError                          (* playwright.async_api.TimeoutError *)
| PlaywrightError                       (* playwright.async_api.Error, not a timeout *)
| UnidentifiedImageError                (* PIL *)
| ValueError (message : string)
| IndexError                            (* data_url.split(",")[1] *)
| BinasciiError                         (* b64decode; a subclass of ValueError *)
| ReError                               (* re.compile on an ill-formed pattern *)
| OSError
| TesseractError.

(** Outcome of a Playwright call. *)
Inductive pw (A : Type) := PwOk (a : A) | PwTimeout | PwError.
Arguments PwOk {A} a.
Arguments PwTimeout {A}.
Arguments PwError {A}.

(** Outcome of [Image.open]. *)
Inductive pil := PilImage | PilUnidentified | PilFailure.

(** Outcome of a write to the file system: done, an [OSError] (no
    permission, a name that is too long, a file in the way), or a
    [ValueError] (a path with a NUL character in it). *)
Inductive fs := FsOk | FsOSError | FsValueError (message : string).

(** The environment: what the browser answers to the n-th call that waits
    for it, and the pure library functions the scraper relies on. *)
Record Env := mkEnv {
  cwd : string;                         (* os.getcwd() *)
  env_act : nat -> pw unit;             (* calls that return nothing *)
  env_visible : nat -> pw bool;         (* is_visible *)
  env_attr : nat -> pw (option string); (* get_attribute *)
  env_text : nat -> pw string;          (* inner_text, evaluate *)
  env_count : nat -> pw nat;            (* number of elements of all() *)
  env_makedirs : nat -> fs;             (* os.makedirs *)
  env_write : nat -> fs;                (* the file page.pdf writes *)
  b64decode : string -> option string;  (* None: binascii.Error *)
  image_open : string -> pil;           (* Image.open on the decoded bytes *)
  image_to_string : string -> option string;
                                        (* pytesseract; None: TesseractError *)
  re_compile : string -> bool           (* the pattern is a regular expression *)
}.

(** ** State, writer and exception monad

    A computation starts after [clock] answers of the environment have been
    consumed; it returns its result (a value or an exception), the new
    clock, and the calls it made, oldest first, each with its answer. *)

Inductive outcome (A : Type) := Done (a : A) | Raise (e : exn).
Arguments Done {A} a.
Arguments Raise {A} e.

Definition Run (A : Type) : Type := outcome A * nat * list Event.

Definition result {A} (r : Run A) : outcome A := r.1.1.
Definition clock {A} (r : Run A) : nat := r.1.2.
Definition events {A} (r : Run A) : list Event := r.2.

Definition M (A : Type) : Type := nat -> Run A.

Definition ret {A} (a : A) : M A := fun c => (Done a, c, []).

Definition raise {A} (e : exn) : M A := fun c => (Raise e, c, []).

Definition bind {A B} (m : M A) (k : A -> M B) : M B := fun c =>
  match m c with
  | (Done a, c1, d1) => let '(r, c2, d2) := k a c1 in (r, c2, d1 ++ d2)
  | (Raise e, c1, d1) => (Raise e, c1, d1)
  end.

Declare Scope scraper_scope.
Delimit Scope scraper_scope with scraper.
Notation "x <- m ;; k" := (bind m (fun x => k))
  (at level 100, m at next level, k at level 200, right associativity) : scraper_scope.
Notation "m ;; k" := (bind m (fun _ => k))
  (at level 100, k at level 200, right associativity) : scraper_scope.
Open Scope scraper_scope.

(** [try: body except E: handler], for the exceptions [E] picked by [catches]. *)
Definition try_except {A} (body : M A) (catches : exn -> bool) (handler : M A) : M A :=
  fun c =>
    match body c with
    | (Raise e, c1, d1) =>
        if catches e
        then let '(r, c2, d2) := handler c1 in (r, c2, d1 ++ d2)
        else (Raise e, c1, d1)
    | done => done
    end.

Definition is_TimeoutError (e : exn) : bool :=
  match e with TimeoutError => true | _ => false end.

Definition is_UnidentifiedImageError (e : exn) : bool :=
  match e with UnidentifiedImageError => true | _ => false end.

(** [isinstance(e, ValueError)]: [binascii.Error] is a subclass. *)
Definition is_ValueError (e : exn) : bool :=
  match e with ValueError _ | BinasciiError => true | _ => false end.

(** [o is None]. *)
Definition is_None {A} (o : option A) : bool :=
  match o with None => true | Some _ => false end.

(** [for x in xs: body(x)]. *)
Fixpoint for_each {A} (xs : list A) (body : A -> M unit) : M unit :=
  match xs with
  | [] => ret ()
  | x :: rest => body x ;; for_each rest body
  end.

(** A call that needs no answer from the environment. *)
Definition emit (a : Action) : M unit := fun c => (Done (), c, [(a, RUnit)]).

(** A Playwright call: it consumes the next answer of the environment. *)
Definition call {A} (a : Action) (answer : pw A) (show : A -> Reply) (c : nat) : Run A :=
  match answer with
  | PwOk x => (Done x, S c, [(a, show x)])
  | PwTimeout => (Raise TimeoutError, S c, [(a, RTimeout)])
  | PwError => (Raise PlaywrightError, S c, [(a, RError)])
  end.

(** ** [class WebScraper] *)

Section Scraper.

Variable env : Env.

(** *** Calls to the outside *)

Definition playwright (a : Action) : M unit := fun c =>
  call a (env_act env c) (fun _ => RUnit) c.

Definition click (l : Locator) : M unit := playwright (Click l).
Definition fill (l : Locator) (text : string) : M unit := playwright (Fill l text).
Definition select_option (l : Locator) (choice : option string) : M unit :=
  playwright (SelectOption l choice).
Definition goto (url : string) : M unit := playwright (Goto url).
Definition wait_for_load_state (state : string) : M unit :=
  playwright (WaitForLoadState state).

Definition is_visible (l : Locator) : M bool := fun c =>
  call (IsVisible l) (env_visible env c) RBool c.

Definition get_attribute (l : Locator) (attribute : string) : M (option string) :=
  fun c => call (GetAttribute l attribute) (env_attr env c) RAttr c.

Definition inner_text (l : Locator) : M string := fun c =>
  call (InnerText l) (env_text env c) RText c.

Definition evaluate (js : Script) : M string := fun c =>
  call (Evaluate js) (env_text env c) RText c.

(** [await l.all()]: one locator per matching element, in page order. *)
Definition all (l : Locator) : M (list Locator) :=
  n <- (fun c => call (All l) (env_count env c) RCount c);;
  ret (map (Nth l) (seq 0 n)).

(** A call that writes to the file system, answered by [answer]. *)
Definition written (a : Action) (answer : fs) (c : nat) : Run unit :=
  match answer with
  | FsOk => (Done (), S c, [(a, RUnit)])
  | FsOSError => (Raise OSError, S c, [(a, ROSError)])
  | FsValueError message => (Raise (ValueError message), S c, [(a, RValueError)])
  end.

Definition makedirs (dir : Path) : M unit := fun c =>
  written (Makedirs dir) (env_makedirs env c) c.

(** [page.pdf(path=file)]: the browser renders the page, then Playwright
    writes the bytes to [file] in this process. *)
Definition pdf (file : Path) : M unit := fun c =>
  match env_act env c with
  | PwOk _ => written (Pdf file) (env_write env c) c
  | PwTimeout => (Raise TimeoutError, S c, [(Pdf file, RTimeout)])
  | PwError => (Raise PlaywrightError, S c, [(Pdf file, RError)])
  end.

Definition sleep (seconds : nat) : M unit := emit (Sleep seconds).
Definition print (line : string) : M unit := emit (Print line).
Definition yield (record : Dict) : M unit := emit (Yield record).

(** [async with async_playwright() as p: body]: the block is left, and the
    browser stopped, however [body] ends. *)
Definition async_with_playwright {A} (body : M A) : M A :=
  playwright Start;;
  fun c => let '(r, c1, d) := body c in (r, c1, d ++ [(Stop, RUnit)]).
(** *** [download_image] and [solve_captcha] *)

Definition download_image : M string :=
  data_url <- evaluate IMG_TO_CANVAS_JS;;
  match split "," data_url !! 1 with
  | None => raise IndexError
  | Some base64_data =>
      match b64decode env base64_data with
      | None => raise BinasciiError
      | Some byte => ret byte
      end
  end.

Definition solve_captcha : M string :=
  try_except
    (byte <- download_image;;
     match image_open env byte with
     | PilUnidentified => raise UnidentifiedImageError
     | PilFailure => raise OSError
     | PilImage =>
         match image_to_string env byte with
         | Some text => ret text
         | None => raise TesseractError
         end
     end)
    is_UnidentifiedImageError
    (print "[ERROR]: Invalid Image format found";;
     ret "").

(** *** Menu selection and input *)

Definition choose_option (parent : string) (name : string) : M unit :=
  let parent_node := Css parent in
  let option := Css (parent +:+ " option") in
  click parent_node;;
  (if re_compile env name then ret () else raise ReError);;
  let opt := ByText option name in
  value <- get_attribute opt "value";;
  select_option parent_node value.

Definition choose_state (name : string) : M unit :=
  try_except (choose_option STATE name) is_TimeoutError
    (print ("[ERROR]: Failed to find option " +:+ name +:+ " for State")).

Definition choose_district (name : string) : M unit :=
  try_except (choose_option DIST name) is_TimeoutError
    (print ("[ERROR]: Failed to find option " +:+ name +:+ " for District")).

Definition choose_complex (name : string) : M unit :=
  try_except (choose_option COURT name) is_TimeoutError
    (print ("[ERROR]: Failed to find option " +:+ name +:+ " for Court Complex")).

Definition choose_name (name : string) : M unit :=
  try_except (choose_option COURT_NAME name) is_TimeoutError
    (print ("[ERROR]: Failed to find option " +:+ name +:+ " for Court Name")).

Definition fill_value (node : string) (value : string) : M unit :=
  try_except
    (let input_form := Css node in
     fill input_form "";;
     fill input_form value)
    is_TimeoutError
    (print "[ERROR]: Failed to fill input").

(** The loop of [get_all_options]; [loc] is the list built so far. *)
Fixpoint collect_options (options : list Locator) (loc : list string)
  : M (list string) :=
  match options with
  | [] => ret loc
  | i :: rest =>
      attribute <- get_attribute i "value";;
      let value := default "" attribute in
      text <- inner_text i;;
      disabled <- get_attribute i "disabled";;
      collect_options rest
        (if negb (String.eqb value "") && is_None disabled
         then loc ++ [text] else loc)
  end.

Definition get_all_options (node : string) : M (list string) :=
  let select := Css (node +:+ " option") in
  sleep 5;;
  options <- all select;;
  collect_options options [].

(** *** [get_pdfs] *)

(** The directory [Path(self.PATH).joinpath(state, dist, court, court_name)]. *)
Definition pdf_dir (self : WebScraper) (state dist court court_name : string) : Path :=
  joinpath (of_string (PATH self)) [state; dist; court; court_name].

(** The body of the loop over [records]. *)
Definition export_record (parent : Path) (back record : Locator) : M unit :=
  click record;;
  sleep 5;;
  name <- inner_text (First (Css CNR_NUMBER));;
  pdf (absolute (cwd env) (joinpath parent [name +:+ ".pdf"]));;
  sleep 5;;
  click back;;
  wait_for_load_state "networkidle";;
  yield (mkDict name (render (joinpath parent [name +:+ ".pdf"]))).

Definition get_pdfs (self : WebScraper) (state dist court court_name : string)
  : M unit :=
  let back := Css BACK in
  let view := Css VIEW in
  sleep 5;;
  records <- all view;;
  let parent := pdf_dir self state dist court court_name in
  try_except
    (match records with
     | [] => ret ()
     | _ :: _ =>
         makedirs parent;;
         for_each records (export_record parent back)
     end)
    is_TimeoutError
    (print ("[ERROR]: Failed to download pdf for State " +:+ state
            +:+ " - District " +:+ dist +:+ " - Court Complex " +:+ court
            +:+ " - Court name " +:+ court_name)).

(** *** [pass_captcha] *)

(** The body of the [while] loop, up to [idx += 1]. *)
Definition retry_captcha (close : Locator) (case_type : CaseType) : M unit :=
  click (First close);;
  click (Css REFRESH);;
  sleep 2;;
  text <- solve_captcha;;
  fill_value CAPTCHA_CODE text;;
  click (Css (value case_type));;
  sleep 2.

(** [while await close.first.is_visible() and idx < MAX_ITERATIONS: ...];
    the result is the value of [idx] when the loop is left.  The loop
    terminates because [MAX_ITERATIONS - idx] decreases. *)
Equations? captcha_loop (close : Locator) (case_type : CaseType) (idx : nat) (c : nat)
  : Run nat by wf (MAX_ITERATIONS - idx) lt :=
  captcha_loop close case_type idx c with is_visible (First close) c := {
    | (Raise e, c1, d1) := (Raise e, c1, d1)
    | (Done false, c1, d1) := (Done idx, c1, d1)
    | (Done true, c1, d1) with lt_dec idx MAX_ITERATIONS := {
        | right _ := (Done idx, c1, d1)
        | left _ with retry_captcha close case_type c1 := {
            | (Raise e, c2, d2) := (Raise e, c2, d1 ++ d2)
            | (Done _, c2, d2) with captcha_loop close case_type (idx + 1) c2 := {
                | (r, c3, d3) := (r, c3, d1 ++ d2 ++ d3) } } } }.
Proof. lia. Qed.

Definition pass_captcha (case_type : CaseType) : M unit :=
  let close := Css CLOSE in
  idx <- captcha_loop close case_type 0;;
  if Nat.eqb idx MAX_ITERATIONS
  then raise (ValueError "Failed to solve captcha. Please try again")
  else ret ().

(** *** The two entry points

  Both are generators that pass on the records of [get_pdfs] one by one:
  the records yielded by [get_pdfs] are the records they yield. *)

Definition begin_scrape (self : WebScraper)
    (chosen_state chosen_dist chosen_court chosen_court_name chosen_date : string)
    (case_type : CaseType) : M unit :=
  async_with_playwright
    (playwright (Launch (HEADLESS self));;
     playwright NewPage;;
     goto LAW;;
     wait_for_load_state "networkidle";;
     sleep 5;;
     let close := Css CLOSE in
     visible <- is_visible (First close);;
     (if visible then click (First close) else ret ());;
     choose_state chosen_state;;
     choose_district chosen_dist;;
     choose_complex chosen_court;;
     choose_name chosen_court_name;;
     fill (Css DATE) chosen_date;;
     fill_value DATE chosen_date;;
     text <- solve_captcha;;
     fill_value CAPTCHA_CODE text;;
     click (Css (value case_type));;
     pass_captcha case_type;;
     get_pdfs self chosen_state chosen_dist chosen_court chosen_court_name).

Definition begin_scrape_all (self : WebScraper)
    (chosen_state chosen_dist chosen_court chosen_date : string)
    (case_type : CaseType) : M unit :=
  async_with_playwright
    (playwright (Launch (HEADLESS self));;
     playwright NewPage;;
     goto LAW;;
     wait_for_load_state "networkidle";;
     sleep 5;;
     let close := Css CLOSE in
     visible <- is_visible (First close);;
     (if visible then click (First close) else ret ());;
     choose_state chosen_state;;
     choose_district chosen_dist;;
     choose_complex chosen_court;;
     court_names <- get_all_options COURT_NAME;;
     for_each court_names (fun name =>
       visible <- is_visible (First close);;
       (if visible then click (First close) else ret ());;
       choose_name name;;
       fill (Css DATE) chosen_date;;
       fill_value DATE chosen_date;;
       text <- solve_captcha;;
       fill_value CAPTCHA_CODE text;;
       click (Css (value case_type));;
       pass_captcha case_type;;
       sleep 3;;
       get_pdfs self chosen_state chosen_dist chosen_court name)).

End Scraper.


(** * [class ConnectionManager] of [server/main.py] *)

(** A web socket, as far as the manager looks at it: the object itself and
    the cookies of its handshake. *)
Record WebSocket := mkWebSocket { socket : nat; cookies : gmap string string }.

(** A JSON message, [dict[str, Any]]. *)
Definition Message : Type := gmap string string.

(** What a call on a socket ([accept], [send_json], [close]) comes to. *)
Inductive SocketAnswer :=
| SocketOk
| SocketRuntimeError                    (* RuntimeError, e.g. socket already closed *)
| SocketDisconnect.                     (* WebSocketDisconnect *)

Inductive ServerError := WebSocketDisconnect | KeyError.

Inductive Level := INFO | ERROR.

(** The manager, the messages that went out (oldest first, each with its
    socket) and what was logged. *)
Record Server := mkServer {
  active_connections : gmap string WebSocket;
  delivered : list (WebSocket * Message);
  journal : list (Level * string)
}.

(** [ConnectionManager.AUTH]. *)
Definition AUTH : string := "id".

(** [ConnectionManager()]. *)
Definition manager : Server :=
  {| active_connections := ∅; delivered := []; journal := [] |}.

Definition logged (level : Level) (line : string) (s : Server) : Server :=
  {| active_connections := active_connections s;
     delivered := delivered s;
     journal := journal s ++ [(level, line)] |}.

Definition registered (idx : string) (websocket : WebSocket) (s : Server) : Server :=
  {| active_connections := <[idx := websocket]> (active_connections s);
     delivered := delivered s;
     journal := journal s |}.

Definition popped (idx : string) (s : Server) : Server :=
  {| active_connections := delete idx (active_connections s);
     delivered := delivered s;
     journal := journal s |}.

Definition sent (websocket : WebSocket) (message : Message) (s : Server) : Server :=
  {| active_connections := active_connections s;
     delivered := delivered s ++ [(websocket, message)];
     journal := journal s |}.

(** [connect]: [accepted] is what [websocket.accept()] comes to.  The
    result is the exception that leaves the method, if any. *)
Definition connect (accepted : SocketAnswer) (websocket : WebSocket) (s : Server)
  : option ServerError * Server :=
  match cookies websocket !! AUTH with
  | None => (None, logged ERROR "Error connecting WebSocket: Auth cookie was not found" s)
  | Some idx =>
      match accepted with
      | SocketOk => (None, logged INFO "WebSocket connected" (registered idx websocket s))
      | SocketRuntimeError => (None, logged ERROR "Error connecting WebSocket" s)
      | SocketDisconnect => (Some WebSocketDisconnect, s)
      end
  end.

(** [disconnect]: [closed] is what [websocket.close()] comes to. *)
Definition disconnect (closed : SocketAnswer) (websocket : WebSocket) (s : Server)
  : option ServerError * Server :=
  match cookies websocket !! AUTH with
  | None => (None, logged ERROR "Error disconnecting WebSocket: Auth cookie was not found" s)
  | Some idx =>
      match active_connections s !! idx with
      | None => (Some KeyError, s)
      | Some _ =>
          match closed with
          | SocketOk => (None, logged INFO "WebSocket disconnected" (popped idx s))
          | SocketRuntimeError =>
              (None, logged ERROR "Error disconnecting WebSocket" (popped idx s))
          | SocketDisconnect => (Some WebSocketDisconnect, popped idx s)
          end
      end
  end.

(** [broadcast]: [answer] is what [socket.send_json(message)] comes to,
    should it be called. *)
Definition broadcast (answer : SocketAnswer) (idx : string) (message : Message) (s : Server)
  : option ServerError * Server :=
  match active_connections s !! idx with
  | Some websocket =>
      match answer with
      | SocketOk => (None, logged INFO "Broadcast message sent" (sent websocket message s))
      | SocketRuntimeError => (None, logged ERROR "Error Broadcasting" s)
      | SocketDisconnect => (Some WebSocketDisconnect, s)
      end
  | None => (None, s)
  end.

(** The states the manager can be in. *)
Inductive reachable : Server -> Prop :=
| reachable_manager : reachable manager
| reachable_connect accepted websocket s :
    reachable s -> reachable (connect accepted websocket s).2
| reachable_disconnect closed websocket s :
    reachable s -> reachable (disconnect closed websocket s).2
| reachable_broadcast answer idx message s :
    reachable s -> reachable (broadcast answer idx message s).2.

#[global] Instance WebSocket_eq_dec : EqDecision WebSocket.
Proof. solve_decision. Defined.

(** The messages that went out to [websocket]. *)
Definition inbox (s : Server) (websocket : WebSocket) : list Message :=
  (filter (fun d => d.1 = websocket) (delivered s)).*2.

(** Every socket is registered under its own [AUTH] cookie. *)
Definition keyed (s : Server) : Prop :=
  forall idx websocket,
    active_connections s !! idx = Some websocket -> cookies websocket !! AUTH = Some idx.

(** Two browsers connected, with the cookies 17 and 42. *)
Definition two_clients : Server :=
  (connect SocketOk (mkWebSocket 2 {[ AUTH := "42" ]})
     (connect SocketOk (mkWebSocket 1 {[ AUTH := "17" ]}) manager).2).2.

(** * Vocabulary of the statements *)

(** ** Decidable equality of the data *)

#[global] Instance Root_eq_dec : EqDecision Root.
Proof. solve_decision. Defined.
#[global] Instance Path_eq_dec : EqDecision Path.
Proof. solve_decision. Defined.
#[global] Instance Dict_eq_dec : EqDecision Dict.
Proof. solve_decision. Defined.
#[global] Instance Script_eq_dec : EqDecision Script.
Proof. solve_decision. Defined.
#[global] Instance Locator_eq_dec : EqDecision Locator.
Proof. solve_decision. Defined.
#[global] Instance Action_eq_dec : EqDecision Action.
Proof. solve_decision. Defined.
#[global] Instance Reply_eq_dec : EqDecision Reply.
Proof. solve_decision. Defined.

(** ** Reasoning about runs *)

(** How often the call [a] was made in a run. *)
Definition occurrences (a : Action) (d : list Event) : nat :=
  length (filter (fun e => e.1 = a) d).

(** [only P m]: whatever happens, [m] makes no call outside [P]. *)
Definition only {A} (P : Action -> Prop) (m : M A) : Prop :=
  forall c, Forall (fun e => P e.1) (events (m c)).


(** ** The calls each helper can make *)

Inductive solve_captcha_action : Action -> Prop :=
| sc_evaluate : solve_captcha_action (Evaluate IMG_TO_CANVAS_JS)
| sc_print line : solve_captcha_action (Print line).

Inductive fill_value_action (node : string) : Action -> Prop :=
| fv_fill text : fill_value_action node (Fill (Css node) text)
| fv_print line : fill_value_action node (Print line).

Inductive choose_option_action (parent : string) : Action -> Prop :=
| co_click : choose_option_action parent (Click (Css parent))
| co_value name attribute :
    choose_option_action parent
      (GetAttribute (ByText (Css (parent +:+ " option")) name) attribute)
| co_select choice : choose_option_action parent (SelectOption (Css parent) choice)
| co_print line : choose_option_action parent (Print line).

(** One pass of the retry loop after its first call, the click that closes
    the error modal. *)
Inductive retry_action (case_type : CaseType) : Action -> Prop :=
| ra_refresh : retry_action case_type (Click (Css REFRESH))
| ra_sleep seconds : retry_action case_type (Sleep seconds)
| ra_solve a : solve_captcha_action a -> retry_action case_type a
| ra_fill a : fill_value_action CAPTCHA_CODE a -> retry_action case_type a
| ra_submit : retry_action case_type (Click (Css (value case_type))).

Inductive pass_captcha_action (case_type : CaseType) : Action -> Prop :=
| pa_check : pass_captcha_action case_type (IsVisible (First (Css CLOSE)))
| pa_close : pass_captcha_action case_type (Click (First (Css CLOSE)))
| pa_retry a : retry_action case_type a -> pass_captcha_action case_type a.

Inductive get_pdfs_action : Action -> Prop :=
| gp_sleep seconds : get_pdfs_action (Sleep seconds)
| gp_all : get_pdfs_action (All (Css VIEW))
| gp_makedirs dir : get_pdfs_action (Makedirs dir)
| gp_row i : get_pdfs_action (Click (Nth (Css VIEW) i))
| gp_cnr : get_pdfs_action (InnerText (First (Css CNR_NUMBER)))
| gp_pdf file : get_pdfs_action (Pdf file)
| gp_back : get_pdfs_action (Click (Css BACK))
| gp_wait state : get_pdfs_action (WaitForLoadState state)
| gp_yield record : get_pdfs_action (Yield record)
| gp_print line : get_pdfs_action (Print line).

(** ** The retry loop *)

(** Passes of the loop body started in a run: each pass begins by closing
    the error modal. *)
Definition retries (d : list Event) : nat :=
  occurrences (Click (First (Css CLOSE))) d.

(** Evaluations of the loop condition. *)
Definition checks (d : list Event) : nat :=
  occurrences (IsVisible (First (Css CLOSE))) d.

(** ** Sample portals

    A portal that answers every call: the error modal is visible while
    [visible] says so, every text read is [text], every menu entry carries
    the value [1], [rows] result rows are listed, and [identified] says what
    [Image.open] makes of the captured image. *)
Definition portal (visible : nat -> bool) (text : string) (rows : nat) (identified : pil)
  : Env :=
  {| cwd := "/srv/app";
     env_act := fun _ => PwOk ();
     env_visible := fun n => PwOk (visible n);
     env_attr := fun _ => PwOk (Some "1");
     env_text := fun _ => PwOk text;
     env_count := fun _ => PwOk rows;
     env_makedirs := fun _ => FsOk;
     env_write := fun _ => FsOk;
     b64decode := fun s => Some s;
     image_open := fun _ => identified;
     image_to_string := fun _ => Some "x7Kp2";
     re_compile := fun _ => true |}.

Definition data_url : string := "data:image/png;base64,iVBORw0KGgo=".

(** The tenth retry solves the CAPTCHA: the error modal is visible at the
    first ten evaluations of the loop condition (a pass consumes seven
    answers, so they are the answers 0, 7, ..., 63) and gone at the
    eleventh (answer 70). *)
Definition solved_by_tenth_retry : Env :=
  portal (fun n => Nat.ltb n 70) data_url 0 PilImage.

(** The third retry solves the CAPTCHA. *)
Definition solved_by_third_retry : Env :=
  portal (fun n => Nat.ltb n 21) data_url 0 PilImage.

(** No error modal, a CAPTCHA that is read, and no result row. *)
Definition empty_list : Env := portal (fun _ => false) data_url 0 PilImage.

(** The captured image is not one PIL can identify. *)
Definition garbled_captcha : Env := portal (fun _ => false) data_url 0 PilUnidentified.

(** The page returns a data URL whose second field is not base64:
    [b64decode] raises [binascii.Error] on it. *)
Definition undecoded_captcha : Env :=
  {| cwd := "/srv/app";
     env_act := fun _ => PwOk ();
     env_visible := fun _ => PwOk false;
     env_attr := fun _ => PwOk (Some "1");
     env_text := fun _ => PwOk "data:image/png;base64,iVBOR";
     env_count := fun _ => PwOk 0;
     env_makedirs := fun _ => FsOk;
     env_write := fun _ => FsOk;
     b64decode := fun _ => None;
     image_open := fun _ => PilImage;
     image_to_string := fun _ => Some "x7Kp2";
     re_compile := fun _ => true |}.

(** What was captured does not decode to an image: the second field of the
    data URL [url], if there is one, is not base64, or [Image.open] makes
    no image of the bytes. *)
Definition no_valid_image (env : Env) (url : string) : Prop :=
  forall payload byte,
    split "," url !! 1 = Some payload -> b64decode env payload = Some byte ->
    image_open env byte <> PilImage.

(** The claim on [solve_captcha] as the specification states it: when what
    was captured does not decode to an image, the empty string is returned;
    and a string is returned always. *)
Definition returns_string_as_stated (env : Env) (c : nat) : Prop :=
  (forall url,
      env_text env c = PwOk url -> no_valid_image env url ->
      result (solve_captcha env c) = Done "") /\
  exists text, result (solve_captcha env c) = Done text.

(** ** The export loop of [get_pdfs] *)

(** The record [get_pdfs] yields for the CNR label [label]. *)
Definition record_for (dir : Path) (label : string) : Dict :=
  mkDict label (render (joinpath dir [label +:+ ".pdf"])).

(** The calls of one complete pass of the loop for the row [record], up to
    the [yield], when the CNR label on the page reads [label]; [dir] is the
    output directory. *)
Definition row_calls (cwd : string) (dir : Path) (back record : Locator) (label : string)
  : list Event :=
  [ (Click record, RUnit);
    (Sleep 5, RUnit);
    (InnerText (First (Css CNR_NUMBER)), RText label);
    (Pdf (absolute cwd (joinpath dir [label +:+ ".pdf"])), RUnit);
    (Sleep 5, RUnit);
    (Click back, RUnit);
    (WaitForLoadState "networkidle", RUnit) ].

(** One complete pass: the calls, then the record is yielded. *)
Definition row_events (cwd : string) (dir : Path) (back record : Locator) (label : string)
  : list Event :=
  row_calls cwd dir back record label ++ [(Yield (record_for dir label), RUnit)].

(** A call that raised [e] was answered by [reply]. *)
Definition failure (e : exn) (reply : Reply) : Prop :=
  (e = TimeoutError /\ reply = RTimeout) \/ (e = PlaywrightError /\ reply = RError) \/
  (e = OSError /\ reply = ROSError) \/
  (exists message, e = ValueError message /\ reply = RValueError).

(** A pass that was cut short by the exception [e]: the first [j] calls of
    a complete pass went well and the next one failed; the record is not
    yielded. *)
Definition failed_row (cwd : string) (dir : Path) (back record : Locator)
    (e : exn) (d : list Event) : Prop :=
  exists label j a r reply,
    j < 7 /\
    row_events cwd dir back record label !! j = Some (a, r) /\
    failure e reply /\
    d = take j (row_events cwd dir back record label) ++ [(a, reply)].

(** The records a run yielded, in order. *)
Definition yields (d : list Event) : list Dict :=
  omap (fun e => match e.1 with Yield record => Some record | _ => None end) d.

(** The call got its answer: no exception was raised. *)
Definition succeeded (e : Event) : Prop :=
  e.2 <> RTimeout /\ e.2 <> RError /\ e.2 <> ROSError /\ e.2 <> RValueError.

(** The line [get_pdfs] prints when a call of the loop timed out. *)
Definition download_failed (state dist court court_name : string) : string :=
  "[ERROR]: Failed to download pdf for State " +:+ state
  +:+ " - District " +:+ dist +:+ " - Court Complex " +:+ court
  +:+ " - Court name " +:+ court_name.

(** [preceded P d]: every call of the run [d] satisfies [P], which may look
    at the calls made before it. *)
Definition preceded (P : list Event -> Event -> Prop) (d : list Event) : Prop :=
  forall l1 e l2, d = l1 ++ e :: l2 -> P l1 e.

(** [P] does not care what happened further back. *)
Definition stable (P : list Event -> Event -> Prop) : Prop :=
  forall l0 l1 e, P l1 e -> P (l0 ++ l1) e.

(** ** Files and records of [get_pdfs] *)

(** The call [e], made after the calls [before], is no export, or it exports
    the file named in the output directory [dir] after the CNR label that
    was read just before it.  When the label has no slash, that file lies
    in [dir] and [label.pdf] is its name. *)
Definition names_file (cwd : string) (dir : Path) (before : list Event) (e : Event) : Prop :=
  forall file reply,
    e = (Pdf file, reply) ->
    exists earlier label,
      before = earlier ++ [(InnerText (First (Css CNR_NUMBER)), RText label)] /\
      file = absolute cwd (joinpath dir [label +:+ ".pdf"]) /\
      (lacks "/" label = true ->
       name file = label +:+ ".pdf" /\ parent file = absolute cwd dir).

(** The same, as the specification words it: the file is always named
    [label.pdf]. *)
Definition names_file_as_stated (before : list Event) (e : Event) : Prop :=
  forall file reply,
    e = (Pdf file, reply) ->
    exists earlier label,
      before = earlier ++ [(InnerText (First (Css CNR_NUMBER)), RText label)] /\
      name file = label +:+ ".pdf".

(** The call [e] is no [yield], or it yields the record of the pass that
    was just completed: the label read in that pass, with the path of the
    file exported in that pass. *)
Definition pairs_record (cwd : string) (dir : Path) (back : Locator)
    (before : list Event) (e : Event) : Prop :=
  forall record reply,
    e = (Yield record, reply) ->
    exists earlier row,
      before = earlier ++ row_calls cwd dir back row (cnr record) /\
      record = record_for dir (cnr record).

(** The scraper of the web server, [WebScraper("static")]. *)
Definition static_scraper : WebScraper := {| PATH := "static"; HEADLESS := true |}.

(** A result page with [rows] rows, each with the CNR label [label]. *)
Definition listing (label : string) (rows : nat) : Env :=
  portal (fun _ => false) label rows PilImage.

(** Both at once. *)
Definition exported (cwd : string) (dir : Path) (back : Locator)
    (before : list Event) (e : Event) : Prop :=
  names_file cwd dir before e /\ pairs_record cwd dir back before e.

(** The claim on file names as the specification states it, for one run of
    [get_pdfs]. *)
Definition exports_named_as_stated (env : Env) (self : WebScraper)
    (state dist court court_name : string) (c : nat) : Prop :=
  forall before e after,
    events (get_pdfs env self state dist court court_name c) = before ++ e :: after ->
    names_file_as_stated before e /\
    pairs_record (cwd env) (pdf_dir self state dist court court_name) (Css BACK) before e.

(** ** The form of the portal *)

(** The controls of the cause-list form. *)
Inductive Control :=
| StateMenu | DistrictMenu | ComplexMenu | CourtNameMenu
| DateInput | CaptchaInput | CaseTypeButton.

#[global] Instance Control_eq_dec : EqDecision Control.
Proof. solve_decision. Defined.

(** Their place in the dependency chain; the CAPTCHA answer and the
    case-type button come last, together. *)
Definition step (x : Control) : nat :=
  match x with
  | StateMenu => 0
  | DistrictMenu => 1
  | ComplexMenu => 2
  | CourtNameMenu => 3
  | DateInput => 4
  | CaptchaInput => 5
  | CaseTypeButton => 5
  end.

(** The control a CSS selector of the scraper designates: a menu is
    designated by its own selector and by that of its options. *)
Definition control_of_selector (s : string) : option Control :=
  if String.eqb s STATE || String.eqb s (STATE +:+ " option") then Some StateMenu
  else if String.eqb s DIST || String.eqb s (DIST +:+ " option") then Some DistrictMenu
  else if String.eqb s COURT || String.eqb s (COURT +:+ " option") then Some ComplexMenu
  else if String.eqb s COURT_NAME || String.eqb s (COURT_NAME +:+ " option")
       then Some CourtNameMenu
  else if String.eqb s DATE then Some DateInput
  else if String.eqb s CAPTCHA_CODE then Some CaptchaInput
  else if String.eqb s CIVIL || String.eqb s CRIMINAL then Some CaseTypeButton
  else None.

Fixpoint selector_of (l : Locator) : string :=
  match l with
  | Css s => s
  | First l' => selector_of l'
  | ByText l' _ => selector_of l'
  | Nth l' _ => selector_of l'
  end.

(** The form control a call interacts with, if any. *)
Definition touches (a : Action) : option Control :=
  match a with
  | IsVisible l | Click l | Fill l _ | GetAttribute l _ | SelectOption l _
  | InnerText l | All l => control_of_selector (selector_of l)
  | _ => None
  end.

(** The form interactions of a run, in order. *)
Definition controls (d : list Event) : list Control :=
  omap (fun e => touches e.1) d.

(** [staged lo hi m]: the form interactions of [m] follow the dependency
    chain and stay between the places [lo] and [hi]. *)
Definition staged {A} (lo hi : nat) (m : M A) : Prop :=
  forall c,
    Forall (fun x => lo <= step x <= hi) (controls (events (m c))) /\
    StronglySorted (fun x y => step x <= step y) (controls (events (m c))).

(** [chained lo m]: a run of [m] that touches a control has touched every
    control that comes before it in the chain, from the place [lo] on. *)
Definition chained {A} (lo : nat) (m : M A) : Prop :=
  forall c x y,
    In x (controls (events (m c))) -> lo <= step y -> step y < step x ->
    In y (controls (events (m c))).

(** The call [a] touches no control, or one at the place [n] of the chain. *)
Definition at_step (n : nat) (a : Action) : Prop :=
  forall x, touches a = Some x -> step x = n.

(** ** The two entry points, as the specification describes them *)

Section EntryPoints.

Variable env : Env.
Variable self : WebScraper.
Variables (chosen_state chosen_dist chosen_court chosen_date : string).
Variable case_type : CaseType.

(** The error modal is closed if it shows. *)
Definition dismiss_modal : M unit :=
  visible <- is_visible env (First (Css CLOSE));;
  if visible then click env (First (Css CLOSE)) else ret ().

(** The portal is opened and the chain is followed up to the court
    complex: state, district, court complex. *)
Definition open_and_select : M unit :=
  playwright env (Launch (HEADLESS self));;
  playwright env NewPage;;
  goto env LAW;;
  wait_for_load_state env "networkidle";;
  sleep 5;;
  dismiss_modal;;
  choose_state env chosen_state;;
  choose_district env chosen_dist;;
  choose_complex env chosen_court.

(** The work for one court name: the menu entry is selected, the date
    filled in, the CAPTCHA solved and the PDFs exported; [pause] stands
    between the CAPTCHA and the export. *)
Definition court_steps (pause : M unit) (name : string) : M unit :=
  choose_name env name;;
  fill env (Css DATE) chosen_date;;
  fill_value env DATE chosen_date;;
  text <- solve_captcha env;;
  fill_value env CAPTCHA_CODE text;;
  click env (Css (value case_type));;
  pass_captcha env case_type;;
  pause;;
  get_pdfs env self chosen_state chosen_dist chosen_court name.

(** [begin_scrape]: the chain up to the court complex, then the work for
    the chosen court name. *)
Definition begin_scrape_spec (chosen_court_name : string) : M unit :=
  async_with_playwright env
    (open_and_select;;
     court_steps (ret ()) chosen_court_name).

(** [begin_scrape_all]: the chain up to the court complex, once; then, for
    every enabled entry of the court name menu, in menu order and one
    after the other, the same work. *)
Definition begin_scrape_all_spec : M unit :=
  async_with_playwright env
    (open_and_select;;
     court_names <- get_all_options env COURT_NAME;;
     for_each court_names (fun name =>
       dismiss_modal;;
       court_steps (sleep 3) name)).

End EntryPoints.

(** Two runs agree but for one pause of three seconds that the first makes
    and the second does not. *)
Definition differ_by_pause (r1 r2 : Run unit) : Prop :=
  result r1 = result r2 /\
  clock r1 = clock r2 /\
  exists d1 d2,
    events r2 = d1 ++ d2 /\
    (events r1 = d1 ++ (Sleep 3, RUnit) :: d2 \/ (events r1 = d1 /\ d2 = [])).

(** The entries of a menu that [get_all_options] keeps: those with a
    value that are not disabled; an entry is given by its value attribute,
    its text and its disabled attribute. *)
Definition enabled_entries (entries : list (option string * string * option string))
  : list string :=
  omap (fun '(value, text, disabled) =>
          if negb (String.eqb (default "" value) "") && is_None disabled
          then Some text else None) entries.

(** The portal answers the calls of [get_all_options] for the menu entries
    [entries], from the answer number [c] on: three answers per entry. *)
Fixpoint menu_answers (env : Env) (c : nat)
    (entries : list (option string * string * option string)) : Prop :=
  match entries with
  | [] => True
  | (value, text, disabled) :: rest =>
      env_attr env c = PwOk value /\
      env_text env (S c) = PwOk text /\
      env_attr env (S (S c)) = PwOk disabled /\
      menu_answers env (S (S (S c))) rest
  end.

(** The runs of a loop body over the elements of [xs], one after the other:
    each round starts where the one before ended, and an exception ends the
    loop. *)
Fixpoint rounds {A} (body : A -> M unit) (xs : list A) (c : nat) : list (A * list Event) :=
  match xs with
  | [] => []
  | x :: rest =>
      (x, events (body x c))
      :: match result (body x c) with
         | Done _ => rounds body rest (clock (body x c))
         | Raise _ => []
         end
  end.

(** A court name menu with two entries one can choose and, between them,
    one that is disabled; every other call succeeds and no result row is
    listed. *)
Definition court_menu : Env :=
  {| cwd := "/srv/app";
     env_act := fun _ => PwOk ();
     env_visible := fun _ => PwOk false;
     env_attr := fun n =>
       PwOk (if Nat.eqb n 1 then Some "1" else
             if Nat.eqb n 4 then Some "2" else
             if Nat.eqb n 6 then Some "" else
             if Nat.eqb n 7 then Some "3" else None);
     env_text := fun n =>
       PwOk (if Nat.eqb n 2 then "1-Principal District Judge" else
             if Nat.eqb n 5 then "2-District Judge" else
             if Nat.eqb n 8 then "3-Civil Judge" else data_url);
     env_count := fun n => PwOk (if Nat.eqb n 0 then 3 else 0);
     env_makedirs := fun _ => FsOk;
     env_write := fun _ => FsOk;
     b64decode := fun s => Some s;
     image_open := fun _ => PilImage;
     image_to_string := fun _ => Some "x7Kp2";
     re_compile := fun _ => true |}.

(** ** Writes to the file system *)

(** The run creates no directory but an output directory, and writes no
    file but in the tree below an output directory. *)
Definition writes_below (cwd : string) (is_output : Path -> Prop) (d : list Event) : Prop :=
  forall a reply,
    In (a, reply) d ->
    match a with
    | Makedirs dir => is_output dir
    | Pdf file => exists dir, is_output dir /\ under (absolute cwd dir) file
    | _ => True
    end.


(** [within dir p]: the path [p] is [dir] or lies in the tree below it. *)
Definition within (dir p : Path) : Prop :=
  root p = root dir /\ exists rest, parts p = parts dir ++ rest /\ ~ In ".." rest.

(** A path segment that leads down: it does not start with a slash, and
    none of its components is [..]. *)
Definition descends (segment : string) : Prop :=
  root_of segment = Relative /\ ~ In ".." (components segment).

(** A path segment that is one component: it has no slash and is neither
    empty nor [.] nor [..]. *)
Definition one_component (segment : string) : Prop :=
  lacks "/" segment = true /\ segment <> "" /\ segment <> "." /\ segment <> "..".





(** [always P m]: every call of every run of [m] satisfies [P]. *)
Definition always {A} (P : list Event -> Event -> Prop) (m : M A) : Prop :=
  forall c, preceded P (events (m c)).

(** A visit without surprises: no error modal, an image that is read at the
    first attempt, and two result rows with their CNR labels. *)
Definition two_rows : Env :=
  {| cwd := "/srv/app";
     env_act := fun _ => PwOk ();
     env_visible := fun _ => PwOk false;
     env_attr := fun _ => PwOk (Some "1");
     env_text := fun n =>
       PwOk (if Nat.eqb n 21 then data_url else
             if Nat.eqb n 29 then "MHPU010012342023" else "MHPU010045672023");
     env_count := fun _ => PwOk 2;
     env_makedirs := fun _ => FsOk;
     env_write := fun _ => FsOk;
     b64decode := fun s => Some s;
     image_open := fun _ => PilImage;
     image_to_string := fun _ => Some "x7Kp2";
     re_compile := fun _ => true |}.

(** * The callers of the scraper *)

(** ** The request handlers of [server/main.py]

    [get_court_pdf] and [get_all_court_pdf] read the form of a request,
    run the scraper and pass every record on to the browser that sent the
    request, through the connection manager.  A handler is followed from
    its first line to the point where it is left, for one request, with no
    other request served in between. *)

(** The exceptions that can travel through a handler. *)
Inductive HandlerError :=
| MissingKey (key : string)             (* KeyError of mapping[key] *)
| AssertionError (message : string)
| RuntimeError
| HTTPException                         (* req.form(): the body cannot be parsed *)
| OfManager (e : ServerError)           (* raised by manager.broadcast *)
| OfScraper (e : exn).                  (* raised by the scraper *)

(** [except (AssertionError, RuntimeError)]: of the exceptions of the
    scraper, [pytesseract.TesseractError] is a [RuntimeError]. *)
Definition is_handled (e : HandlerError) : bool :=
  match e with
  | AssertionError _ | RuntimeError => true
  | OfScraper TesseractError => true
  | _ => false
  end.

(** What [await req.form(max_files=0)] comes to: the fields of the form,
    each one a string since no file is accepted, or an exception. *)
Inductive FormAnswer :=
| FormData (data : gmap string string)
| FormAssertionError                    (* python-multipart is not installed *)
| FormRuntimeError                      (* the body was read before *)
| FormHTTPException.

(** A request, as far as the handlers look at it. *)
Record Request := mkRequest {
  req_cookies : gmap string string;
  req_form : FormAnswer
}.

(** What a handler leaves behind: the exception that leaves it, if any, the
    manager, the number of calls of [manager.broadcast] it made, and the
    calls of the scraper up to the point where the handler is left. *)
Record Handled := mkHandled {
  raised : option HandlerError;
  server : Server;
  broadcasts : nat;
  calls : list Event
}.

(** [data[key]]. *)
Definition field (data : gmap string string) (key : string) : HandlerError + string :=
  match data !! key with
  | Some v => inr v
  | None => inl (MissingKey key)
  end.

Definition and_then {A B} (x : HandlerError + A) (k : A -> HandlerError + B)
  : HandlerError + B :=
  match x with
  | inl e => inl e
  | inr a => k a
  end.

(** The message for a record, [{"cnr": cnr, "path": path}]. *)
Definition record_message (record : Dict) : Message :=
  {[ "cnr" := cnr record; "path" := path record ]}.

(** [{"error": "Request Failed. Please try again"}]. *)
Definition error_message : Message :=
  {[ "error" := "Request Failed. Please try again" ]}.

(** [async for cnr, path in records: await manager.broadcast(idx, ...)]
    over the run [d] of the scraper: a record is passed on where it is
    yielded; [answer n] is what [send_json] comes to in the call number [n]
    of [manager.broadcast].  When [broadcast] raises, the generator is not
    resumed: the run stops at that record. *)
Fixpoint relay (answer : nat -> SocketAnswer) (idx : string) (d : list Event)
    (n : nat) (s : Server) : option ServerError * Server * nat * list Event :=
  match d with
  | [] => (None, s, n, [])
  | (Yield record, reply) :: rest =>
      match broadcast (answer n) idx (record_message record) s with
      | (Some e, s1) => (Some e, s1, S n, [(Yield record, reply)])
      | (None, s1) =>
          let '(r, s2, n2, d2) := relay answer idx rest (S n) s1 in
          (r, s2, n2, (Yield record, reply) :: d2)
      end
  | e :: rest =>
      let '(r, s2, n2, d2) := relay answer idx rest n s in
      (r, s2, n2, e :: d2)
  end.

(** The [except] clause of a handler: [line] is logged and the error
    message sent; an exception the clause does not name goes on. *)
Definition request_failed (line : string) (answer : nat -> SocketAnswer) (idx : string)
    (e : HandlerError) (s : Server) (n : nat) (d : list Event) : Handled :=
  if is_handled e
  then
    let '(r, s1) := broadcast (answer n) idx error_message (logged ERROR line s) in
    mkHandled (option_map OfManager r) s1 (S n) d
  else mkHandled (Some e) s n d.

(** The body of [try] once the scraper has been started: its records are
    passed on, and its end is the end of the handler. *)
Definition relay_run (line : string) (answer : nat -> SocketAnswer) (idx : string)
    (run : Run unit) (s : Server) : Handled :=
  let '(r, s1, n, d) := relay answer idx (events run) 0 s in
  match r with
  | Some e => request_failed line answer idx (OfManager e) s1 n d
  | None =>
      match result run with
      | Done _ => mkHandled None s1 n d
      | Raise e => request_failed line answer idx (OfScraper e) s1 n d
      end
  end.

(** [CaseType.CRIMINAL if str(case) == "Criminal" else CaseType.CIVIL]. *)
Definition case_type_of (case : string) : CaseType :=
  if String.eqb case "Criminal" then Criminal else Civil.

Notation "x <~ m ; k" := (and_then m (fun x => k))
  (at level 100, m at next level, k at level 200, right associativity, only parsing).

(** The lines of a handler from [assert ConnectionManager.AUTH in
    req.cookies] to [data = await req.form(max_files=0)]; [fields] are the
    lines that follow. *)
Definition with_form {A} (req : Request) (fields : gmap string string -> HandlerError + A)
  : HandlerError + A :=
  if is_None (req_cookies req !! AUTH)
  then inl (AssertionError "Auth cookie was not found")
  else
    match req_form req with
    | FormData data => fields data
    | FormAssertionError =>
        inl (AssertionError
               "The `python-multipart` library must be installed to use form parsing.")
    | FormRuntimeError => inl RuntimeError
    | FormHTTPException => inl HTTPException
    end.

(** The assertion on [data["case_type"]] and the choice of the case type. *)
Definition case_field (data : gmap string string) : HandlerError + CaseType :=
  case <~ field data "case_type";
  if String.eqb case "Civil" || String.eqb case "Criminal"
  then inr (case_type_of case)
  else inl (AssertionError "Chosen State must be a string").

(** [WEBSCRAPER = WebScraper("static")]. *)
Definition WEBSCRAPER : WebScraper := static_scraper.

(** [get_court_pdf], the handler of [POST /api/court].  The assertions on
    [isinstance(str(...), str)] hold by typing. *)
Definition get_court_pdf (env : Env) (answer : nat -> SocketAnswer) (req : Request)
    (s : Server) : Handled :=
  match req_cookies req !! AUTH with
  | None => mkHandled (Some (MissingKey AUTH)) s 0 []
  | Some idx =>
      let line := "[ERROR]: Single Court PDF generation failed" in
      match
        with_form req (fun data =>
          chosen_state <~ field data "chosen_state";
          chosen_dist <~ field data "chosen_dist";
          chosen_court <~ field data "chosen_court";
          chosen_date <~ field data "chosen_date";
          chosen_court_name <~ field data "chosen_court_name";
          case_type <~ case_field data;
          inr (begin_scrape env WEBSCRAPER chosen_state chosen_dist chosen_court
                 chosen_court_name chosen_date case_type 0))
      with
      | inr run => relay_run line answer idx run s
      | inl e => request_failed line answer idx e s 0 []
      end
  end.

(** [get_all_court_pdf], the handler of [POST /api/court/all]. *)
Definition get_all_court_pdf (env : Env) (answer : nat -> SocketAnswer) (req : Request)
    (s : Server) : Handled :=
  match req_cookies req !! AUTH with
  | None => mkHandled (Some (MissingKey AUTH)) s 0 []
  | Some idx =>
      let line := "[ERROR]: Multiple Court PDF generation failed" in
      match
        with_form req (fun data =>
          chosen_state <~ field data "chosen_state";
          chosen_dist <~ field data "chosen_dist";
          chosen_court <~ field data "chosen_court";
          chosen_date <~ field data "chosen_date";
          case_type <~ case_field data;
          inr (begin_scrape_all env WEBSCRAPER chosen_state chosen_dist chosen_court
                 chosen_date case_type 0))
      with
      | inr run => relay_run line answer idx run s
      | inl e => request_failed line answer idx e s 0 []
      end
  end.

(** ** [cli.py] *)

(** [DateAction.__call__]: the value of [--date] is split at its hyphens
    into day, month and year and put together again as an ISO date;
    [fromisoformat s] says whether [datetime.date.fromisoformat(s)] accepts
    it.  The result is the value stored in the namespace. *)
Definition DateAction_call (fromisoformat : string -> bool) (values : string)
  : outcome string :=
  let error := ValueError ("Date must be in format: DD-MM-YYYY, Got: " +:+ values) in
  match split "-" values with
  | [day; month; year] =>
      if fromisoformat (year +:+ "-" +:+ month +:+ "-" +:+ day)
      then Done values
      else Raise error
  | _ => Raise error
  end.

(** The namespace [parser.parse_args()] returns: [arg_name] is [None]
    without [-n], [arg_all] is [True] with [-a] and [None] (false) without,
    [arg_verbose] is [False] with [--verbose] and [True] without. *)
Record Namespace := mkNamespace {
  arg_state : string;
  arg_district : string;
  arg_complex : string;
  arg_case : string;
  arg_path : string;
  arg_name : option string;
  arg_date : string;
  arg_all : bool;
  arg_verbose : bool
}.

(** The truth value of [args.name]: [None] and the empty string are false. *)
Definition truthy (name : option string) : bool :=
  match name with
  | Some (String _ _) => true
  | _ => false
  end.

(** [caseType]. *)
Definition caseType (args : Namespace) : CaseType :=
  if String.eqb (arg_case args) "Criminal" then Criminal else Civil.

(** [web = WebScraper(args.path, bool(args.verbose))]. *)
Definition web (args : Namespace) : WebScraper :=
  mkWebScraper (arg_path args) (arg_verbose args).

(** The line [main] prints for a record. *)
Definition saved_line (record : Dict) : string :=
  "[SUCCESS]: Saved CNR '" +:+ cnr record +:+ "' to " +:+ path record.

(** [async for cnr, path in task: print(...)] over the run [d] of the
    scraper: the line is printed where the record is yielded. *)
Fixpoint report (d : list Event) : list Event :=
  match d with
  | [] => []
  | (Yield record, reply) :: rest =>
      (Yield record, reply) :: (Print (saved_line record), RUnit) :: report rest
  | e :: rest => e :: report rest
  end.

(** The script, from the two checks on [-a] and [-n] to the end of
    [asyncio.run(main())].  The second check and the choice of the task in
    [main] look at the same two arguments and are one case distinction
    here. *)
Definition cli (env : Env) (args : Namespace) : Run unit :=
  if arg_all args && truthy (arg_name args)
  then (Raise (ValueError "Both -a and -n both cannot be set"), 0, [])
  else
    match arg_all args, arg_name args with
    | false, None => (Raise (ValueError "Both -a and -n both cannot be unset"), 0, [])
    | true, _ =>
        let '(r, c, d) :=
          begin_scrape_all env (web args) (arg_state args) (arg_district args)
            (arg_complex args) (arg_date args) (caseType args) 0 in
        (r, c, report d)
    | false, Some name =>
        let '(r, c, d) :=
          begin_scrape env (web args) (arg_state args) (arg_district args)
            (arg_complex args) name (arg_date args) (caseType args) 0 in
        (r, c, report d)
    end.

(** ** Requests and what they are answered *)

(** The messages [messages], sent to the socket registered under [idx] in
    [s], as [delivered] records them; nothing when [idx] is not
    registered. *)
Definition sent_to (s : Server) (idx : string) (messages : list Message)
  : list (WebSocket * Message) :=
  match active_connections s !! idx with
  | Some websocket => map (pair websocket) messages
  | None => []
  end.

(** The fields of the form of [req] that both handlers read. *)
Definition form_fields (req : Request)
    (chosen_state chosen_dist chosen_court chosen_date case : string)
    (data : gmap string string) : Prop :=
  req_form req = FormData data /\
  data !! "chosen_state" = Some chosen_state /\
  data !! "chosen_dist" = Some chosen_dist /\
  data !! "chosen_court" = Some chosen_court /\
  data !! "chosen_date" = Some chosen_date /\
  data !! "case_type" = Some case.

(** A request [get_court_pdf] serves: it carries the cookie [idx], every
    field of the form, and one of the two case types. *)
Definition court_request (req : Request)
    (idx chosen_state chosen_dist chosen_court chosen_date chosen_court_name case : string)
  : Prop :=
  req_cookies req !! AUTH = Some idx /\
  (case = "Civil" \/ case = "Criminal") /\
  exists data,
    form_fields req chosen_state chosen_dist chosen_court chosen_date case data /\
    data !! "chosen_court_name" = Some chosen_court_name.

(** A request [get_all_court_pdf] serves. *)
Definition all_courts_request (req : Request)
    (idx chosen_state chosen_dist chosen_court chosen_date case : string) : Prop :=
  req_cookies req !! AUTH = Some idx /\
  (case = "Civil" \/ case = "Criminal") /\
  exists data,
    form_fields req chosen_state chosen_dist chosen_court chosen_date case data.

(** A form posted by the page: the first court of Pune, civil cases. *)
Definition pune_form : gmap string string :=
  {[ "chosen_state" := "MH"; "chosen_dist" := "Pune"; "chosen_court" := "Court";
     "chosen_date" := "10-11-2026"; "chosen_court_name" := "1";
     "case_type" := "Civil" ]}.

Definition pune_request : Request :=
  {| req_cookies := {[ AUTH := "17" ]}; req_form := FormData pune_form |}.

(** An exception of the lines before the scraper is started. *)
Definition rejected (e : HandlerError) : Prop :=
  match e with
  | OfManager _ | OfScraper _ => False
  | _ => True
  end.

(** What a handler did to the manager: the registry is as it was, and what
    went out went to the socket of [idx]: records that were yielded, in
    their order, and at most the error message after them. *)
Definition answered (s : Server) (idx : string) (h : Handled) : Prop :=
  active_connections (server h) = active_connections s /\
  exists records tail,
    records `sublist_of` yields (calls h) /\
    (tail = [] \/ tail = [error_message]) /\
    delivered (server h)
    = delivered s ++ sent_to s idx (map record_message records ++ tail).

(** ** Exceptions and timeouts of a run *)

(** A call of the run timed out. *)
Definition timed_out (d : list Event) : Prop := Exists (fun e => e.2 = RTimeout) d.

(** [uncaught m]: [m] catches no timeout; a call of a run of [m] timed out
    exactly when the run ends with [TimeoutError]. *)
Definition uncaught {A} (m : M A) : Prop :=
  forall c, timed_out (events (m c)) <-> result (m c) = Raise TimeoutError.

(** [throws P m]: [m] raises no exception outside [P]. *)
Definition throws {A} (P : exn -> Prop) (m : M A) : Prop :=
  forall c e, result (m c) = Raise e -> P e.

(** [catches_timeouts line m]: [m] never ends with [TimeoutError]; when a
    call of [m] times out, [m] prints [line] as its last call and returns;
    and it prints nothing otherwise. *)
Definition catches_timeouts (line : string) (m : M unit) : Prop :=
  forall c,
    result (m c) <> Raise TimeoutError /\
    (timed_out (events (m c)) ->
     result (m c) = Done () /\ last (events (m c)) = Some (Print line, RUnit)) /\
    (forall l reply, In (Print l, reply) (events (m c)) ->
                     l = line /\ timed_out (events (m c))).

(** The line a menu wrapper prints when the entry [name] was not found in
    the menu called [menu]. *)
Definition option_not_found (name menu : string) : string :=
  "[ERROR]: Failed to find option " +:+ name +:+ " for " +:+ menu.

(** ** Selections of the form *)

(** The call [a] fills in the CAPTCHA answer or clicks the case-type
    button. *)
Definition submits (a : Action) : Prop :=
  touches a = Some CaptchaInput \/ touches a = Some CaseTypeButton.

(** In the calls [d] the entry [name] of the menu [menu] was selected: the
    value of the entry found by the text [name] was read, and the selection
    of that value went well. *)
Definition selected (name menu : string) (d : list Event) : Prop :=
  exists choice,
    In (GetAttribute (ByText (Css (menu +:+ " option")) name) "value", RAttr choice) d /\
    In (SelectOption (Css menu) choice, RUnit) d.

(** The menu [menu], called [label] in the messages, was gone through: its
    entry [name] was selected, or the selection timed out and was reported
    on standard output. *)
Definition tried (name menu label : string) (d : list Event) : Prop :=
  selected name menu d \/ In (Print (option_not_found name label), RUnit) d.

(** The date was filled in. *)
Definition dated (chosen_date : string) (d : list Event) : Prop :=
  In (Fill (Css DATE) chosen_date, RUnit) d.

(** [before_submit G m]: when a run of [m] fills in the CAPTCHA answer or
    clicks the case-type button, [G] holds of the calls made before. *)
Definition before_submit {A} (G : list Event -> Prop) (m : M A) : Prop :=
  forall c before a reply after,
    events (m c) = before ++ (a, reply) :: after -> submits a -> G before.

(** The claim on the order of the form as the specification states it:
    before the CAPTCHA answer is filled in and the case-type button clicked,
    the state, the district, the court complex and the court name were
    selected and the date was filled in. *)
Definition selected_before_submit_as_stated
    (chosen_state chosen_dist chosen_court chosen_court_name chosen_date : string)
    (d : list Event) : Prop :=
  forall before a reply after,
    d = before ++ (a, reply) :: after -> submits a ->
    selected chosen_state STATE before /\ selected chosen_dist DIST before /\
    selected chosen_court COURT before /\ selected chosen_court_name COURT_NAME before /\
    dated chosen_date before.

(** The four menus do not answer in time: the clicks that open them time
    out.  Every other call succeeds, no error modal shows, the CAPTCHA is
    read, and no result row is listed. *)
Definition menus_time_out : Env :=
  {| cwd := "/srv/app";
     env_act := fun n => if Nat.leb 6 n && Nat.leb n 9 then PwTimeout else PwOk ();
     env_visible := fun _ => PwOk false;
     env_attr := fun _ => PwOk (Some "1");
     env_text := fun _ => PwOk data_url;
     env_count := fun _ => PwOk 0;
     env_makedirs := fun _ => FsOk;
     env_write := fun _ => FsOk;
     b64decode := fun s => Some s;
     image_open := fun _ => PilImage;
     image_to_string := fun _ => Some "x7Kp2";
     re_compile := fun _ => true |}.

(** The texts read with [inner_text] in a run, in order. *)
Definition texts_read (d : list Event) : list string :=
  omap (fun e => match e with
                 | (InnerText _, RText text) => Some text
                 | _ => None
                 end) d.

(** The data URL [url] has a second field, which is not base64: [b64decode]
    raises [binascii.Error] on it. *)
Definition undecodable (env : Env) (url : string) : Prop :=
  exists payload, split "," url !! 1 = Some payload /\ b64decode env payload = None.

(** The last call of the run [d] captured the CAPTCHA image, and what the
    page returned cannot be decoded. *)
Definition captured_undecodable (env : Env) (d : list Event) : Prop :=
  exists url,
    last d = Some (Evaluate IMG_TO_CANVAS_JS, RText url) /\ undecodable env url.

(** If [e] is a [ValueError], it is the [binascii.Error] of [b64decode],
    raised right after the image was captured in the run [d]. *)
Definition decode_error (env : Env) (e : exn) (d : list Event) : Prop :=
  is_ValueError e = true -> e = BinasciiError /\ captured_undecodable env d.

(** [raising P m]: when a run of [m] ends with an exception, [P] holds of
    the exception and the calls of the run. *)
Definition raising {A} (P : exn -> list Event -> Prop) (m : M A) : Prop :=
  forall c e, result (m c) = Raise e -> P e (events (m c)).





(** ** Paths in normal form *)

(** A path as [pathlib] keeps it: no component is empty, is [.] or has a
    slash in it. *)
Definition normal (p : Path) : Prop :=
  Forall (fun x => is_component x = true /\ lacks "/" x = true) (parts p).

(** ** The calls of a scraping session *)

(** The lines the scraper prints start with [[ERROR]: ]. *)
Definition error_line (line : string) : Prop := exists rest, line = "[ERROR]: " +:+ rest.

(** The calls of the page helpers: calls on elements of the page, pauses,
    the capture of the CAPTCHA image, and error lines. *)
Inductive helper_action : Action -> Prop :=
| ha_visible l : helper_action (IsVisible l)
| ha_click l : helper_action (Click l)
| ha_fill l text : helper_action (Fill l text)
| ha_attribute l attribute : helper_action (GetAttribute l attribute)
| ha_select l choice : helper_action (SelectOption l choice)
| ha_text l : helper_action (InnerText l)
| ha_all l : helper_action (All l)
| ha_sleep seconds : helper_action (Sleep seconds)
| ha_evaluate : helper_action (Evaluate IMG_TO_CANVAS_JS)
| ha_print line : error_line line -> helper_action (Print line).

(** The calls made between the start and the end of a session of the
    scraper [self]: those of the helpers, the launch of the browser with
    the [HEADLESS] flag of [self], the opening of the portal, and the
    exports. *)
Inductive session_action (self : WebScraper) : Action -> Prop :=
| sa_helper a : helper_action a -> session_action self a
| sa_launch : session_action self (Launch (HEADLESS self))
| sa_new_page : session_action self NewPage
| sa_goto : session_action self (Goto LAW)
| sa_wait : session_action self (WaitForLoadState "networkidle")
| sa_makedirs dir : session_action self (Makedirs dir)
| sa_pdf file : session_action self (Pdf file)
| sa_yield record : session_action self (Yield record).

(** A run of a session: the start failed and nothing else happened, or the
    session was started, made calls of a session, and was ended, as the
    last call of the run. *)
Definition session_run (self : WebScraper) (d : list Event) : Prop :=
  (exists reply, d = [(Start, reply)] /\ reply <> RUnit) \/
  (exists body,
      d = (Start, RUnit) :: body ++ [(Stop, RUnit)] /\
      Forall (fun e => session_action self e.1) body).




(** ** What the command line reports *)

(** The lines [main] prints start with [[SUCCESS]: ]. *)
Definition success_line (line : string) : Prop :=
  exists rest, line = "[SUCCESS]: " +:+ rest.


(** Arguments for one court, the browser shown. *)
Definition one_court : Namespace :=
  {| arg_state := "MH"; arg_district := "Pune"; arg_complex := "Court";
     arg_case := "Civil"; arg_path := "out"; arg_name := Some "1";
     arg_date := "10-11-2026"; arg_all := false; arg_verbose := false |}.

(** The lines printed in the run [d]. *)
Definition printed (d : list Event) : list string :=
  flat_map (fun e => match e.1 with Print line => [line] | _ => [] end) d.

(** * Lemmas and theorems *)

(** ** Reasoning about runs *)

Lemma occurrences_app a d1 d2 :
  occurrences a (d1 ++ d2) = occurrences a d1 + occurrences a d2.
Proof. unfold occurrences. now rewrite filter_app, length_app. Qed.

Lemma occurrences_cons a b r d :
  occurrences a ((b, r) :: d) = (if decide (b = a) then 1 else 0) + occurrences a d.
Proof.
  unfold occurrences. destruct (decide (b = a)) as [E|E].
  - now rewrite filter_cons_True by exact E.
  - now rewrite filter_cons_False by exact E.
Qed.

Lemma occurrences_here a r d : occurrences a ((a, r) :: d) = S (occurrences a d).
Proof. rewrite occurrences_cons. now rewrite decide_True. Qed.

Lemma occurrences_skip a b r d :
  b <> a -> occurrences a ((b, r) :: d) = occurrences a d.
Proof. intros E. rewrite occurrences_cons. now rewrite decide_False. Qed.

Lemma occurrences_absent a d :
  Forall (fun e => e.1 <> a) d -> occurrences a d = 0.
Proof.
  unfold occurrences. induction 1 as [|e d He _ IH]; [reflexivity|].
  rewrite filter_cons_False by exact He. exact IH.
Qed.

Section Only.

Context {A B : Type} (P : Action -> Prop).

Lemma only_ret (a : A) : only P (ret a).
Proof. intros c. constructor. Qed.

Lemma only_raise (e : exn) : only P (@raise A e).
Proof. intros c. constructor. Qed.

Lemma only_emit (a : Action) : P a -> only P (emit a).
Proof. intros Ha c. repeat constructor. exact Ha. Qed.

Lemma only_call (a : Action) (answer : nat -> pw A) (show : A -> Reply) :
  P a -> only P (fun c => call a (answer c) show c).
Proof.
  intros Ha c. unfold call. destruct (answer c); repeat constructor; exact Ha.
Qed.

Lemma only_bind (m : M A) (k : A -> M B) :
  only P m -> (forall a, only P (k a)) -> only P (bind m k).
Proof.
  intros Hm Hk c. unfold bind. specialize (Hm c).
  destruct (m c) as [[[a|e] c1] d1]; [|exact Hm].
  specialize (Hk a c1). destruct (k a c1) as [[r c2] d2].
  apply Forall_app. split; [exact Hm | exact Hk].
Qed.

Lemma only_try (body handler : M A) (catches : exn -> bool) :
  only P body -> only P handler -> only P (try_except body catches handler).
Proof.
  intros Hb Hh c. unfold try_except. specialize (Hb c).
  destruct (body c) as [[[a|e] c1] d1]; [exact Hb|].
  destruct (catches e); [|exact Hb].
  specialize (Hh c1). destruct (handler c1) as [[r c2] d2].
  apply Forall_app. split; [exact Hb | exact Hh].
Qed.

Lemma only_mono (Q : Action -> Prop) (m : M A) :
  (forall a, Q a -> P a) -> only Q m -> only P m.
Proof. intros HQ Hm c. eapply Forall_impl; [apply Hm|]. intros e. apply HQ. Qed.

End Only.

Lemma only_for_each {A} (P : Action -> Prop) (xs : list A) (body : A -> M unit) :
  (forall x, only P (body x)) -> only P (for_each xs body).
Proof.
  intros Hb. induction xs as [|x xs IH]; simpl.
  - apply only_ret.
  - apply only_bind; [apply Hb | intros _; exact IH].
Qed.

Lemma only_for_each_in {A} (P : Action -> Prop) (xs : list A) (body : A -> M unit) :
  (forall x, In x xs -> only P (body x)) -> only P (for_each xs body).
Proof.
  intros Hb. induction xs as [|x xs IH]; simpl.
  - apply only_ret.
  - apply only_bind; [apply Hb; now left | intros _; apply IH].
    intros y Hy. apply Hb. now right.
Qed.

(** The events and the result of a sequence. *)
Lemma events_bind {A B} (m : M A) (k : A -> M B) c :
  events (bind m k c) =
  events (m c) ++
  match result (m c) with
  | Done a => events (k a (clock (m c)))
  | Raise _ => []
  end.
Proof.
  unfold bind, events, result, clock.
  destruct (m c) as [[[a|e] c1] d1]; simpl.
  - destruct (k a c1) as [[r c2] d2]. reflexivity.
  - now rewrite app_nil_r.
Qed.

Lemma result_bind {A B} (m : M A) (k : A -> M B) c :
  result (bind m k c) =
  match result (m c) with
  | Done a => result (k a (clock (m c)))
  | Raise e => Raise e
  end.
Proof.
  unfold bind, events, result, clock.
  destruct (m c) as [[[a|e] c1] d1]; simpl; [|reflexivity].
  destruct (k a c1) as [[r c2] d2]. reflexivity.
Qed.

Lemma clock_bind {A B} (m : M A) (k : A -> M B) c :
  clock (bind m k c) =
  match result (m c) with
  | Done a => clock (k a (clock (m c)))
  | Raise _ => clock (m c)
  end.
Proof.
  unfold bind, events, result, clock.
  destruct (m c) as [[[a|e] c1] d1]; simpl; [|reflexivity].
  destruct (k a c1) as [[r c2] d2]. reflexivity.
Qed.

Lemma events_try {A} (body handler : M A) (catches : exn -> bool) c :
  events (try_except body catches handler c) =
  events (body c) ++
  match result (body c) with
  | Raise e => if catches e then events (handler (clock (body c))) else []
  | Done _ => []
  end.
Proof.
  unfold try_except, events, result, clock.
  destruct (body c) as [[[a|e] c1] d1]; simpl.
  - now rewrite app_nil_r.
  - destruct (catches e); [|now rewrite app_nil_r].
    destruct (handler c1) as [[r c2] d2]. reflexivity.
Qed.

Lemma result_try {A} (body handler : M A) (catches : exn -> bool) c :
  result (try_except body catches handler c) =
  match result (body c) with
  | Raise e => if catches e then result (handler (clock (body c))) else Raise e
  | Done a => Done a
  end.
Proof.
  unfold try_except, events, result, clock.
  destruct (body c) as [[[a|e] c1] d1]; simpl; [reflexivity|].
  destruct (catches e); [|reflexivity].
  destruct (handler c1) as [[r c2] d2]. reflexivity.
Qed.

(** Properties of the calls that look back at the calls before. *)

Lemma preceded_nil P : preceded P [].
Proof. intros l1 x l2 E. now destruct l1. Qed.

Lemma preceded_cons P e d :
  P [] e -> preceded (fun l x => P (e :: l) x) d -> preceded P (e :: d).
Proof.
  intros He Hd [|e' l1] x l2 [= E1 E2].
  - subst. exact He.
  - subst. eapply Hd. reflexivity.
Qed.

Lemma preceded_app P d1 d2 :
  stable P -> preceded P d1 -> preceded P d2 -> preceded P (d1 ++ d2).
Proof.
  intros HP H1 H2 l1 e l2 E.
  apply List.app_eq_app in E as (l & [[E1 E2] | [E1 E2]]).
  - destruct l as [|e' l]; simpl in E2.
    + subst d2. rewrite app_nil_r in E1. subst d1.
      rewrite <- (app_nil_r l1). apply HP. eapply H2. reflexivity.
    + injection E2 as E3 E4. subst e' l2. eapply H1. exact E1.
  - subst l1. apply HP. eapply H2. exact E2.
Qed.

Lemma preceded_concat P ds :
  stable P -> Forall (preceded P) ds -> preceded P (concat ds).
Proof.
  intros HP. induction 1 as [|d ds Hd _ IH]; simpl.
  - apply preceded_nil.
  - now apply preceded_app.
Qed.

(** ** Paths *)

Example joinpath_output_directory :
  render (joinpath (of_string "static") ["MH"; "Pune"; "Court"; "1"])
  = "static/MH/Pune/Court/1".
Proof. reflexivity. Qed.

Example joinpath_absolute_segment :
  render (joinpath (of_string "static") ["/abs"; "x"]) = "/abs/x".
Proof. reflexivity. Qed.

Example joinpath_keeps_dotdot :
  parts (joinpath (of_string "static") ["a/b"; ""; "../c"]) = ["static"; "a"; "b"; ".."; "c"].
Proof. reflexivity. Qed.

Example of_string_two_slashes : root (of_string "//net/x") = DoubleSlash.
Proof. reflexivity. Qed.

Example absolute_in_cwd :
  render (absolute "/srv/app" (of_string "static/MH")) = "/srv/app/static/MH".
Proof. reflexivity. Qed.

Example split_data_url : split "," data_url = ["data:image/png;base64"; "iVBORw0KGgo="].
Proof. reflexivity. Qed.

Lemma lacks_app sep s t : lacks sep (s +:+ t) = lacks sep s && lacks sep t.
Proof.
  induction s as [|ch s IH]; simpl; [reflexivity|].
  rewrite IH. now rewrite andb_assoc.
Qed.

Lemma split_lacks sep s : lacks sep s = true -> split sep s = [s].
Proof.
  induction s as [|ch s IH]; simpl; [reflexivity|].
  intros [Hch Hs]%andb_prop. apply negb_true_iff in Hch. rewrite Hch.
  now rewrite (IH Hs).
Qed.

Lemma length_append s t : String.length (s +:+ t) = String.length s + String.length t.
Proof. induction s as [|ch s IH]; simpl; [reflexivity | now rewrite IH]. Qed.

Lemma root_of_lacks s : lacks "/" s = true -> root_of s = Relative.
Proof.
  destruct s as [|ch s]; [reflexivity|]. simpl.
  intros [Hch _]%andb_prop. apply negb_true_iff in Hch.
  destruct ch as [[] [] [] [] [] [] [] []]; try reflexivity; discriminate.
Qed.

(** A file name made of a slash-free label and the extension is a single
    path component. *)
Lemma components_file label :
  lacks "/" label = true -> components (label +:+ ".pdf") = [label +:+ ".pdf"].
Proof.
  intros Hlabel. unfold components.
  rewrite split_lacks by (rewrite lacks_app, Hlabel; reflexivity).
  simpl. unfold is_component.
  assert (4 <= String.length (label +:+ ".pdf")) as Hlen
    by (rewrite length_append; simpl; lia).
  destruct (String.eqb_spec (label +:+ ".pdf") "") as [E|_];
    [rewrite E in Hlen; simpl in Hlen; lia|].
  destruct (String.eqb_spec (label +:+ ".pdf") ".") as [E|_];
    [rewrite E in Hlen; simpl in Hlen; lia|].
  reflexivity.
Qed.

Lemma joinpath_file dir label :
  lacks "/" label = true ->
  joinpath dir [label +:+ ".pdf"]
  = {| root := root dir; parts := parts dir ++ [label +:+ ".pdf"] |}.
Proof.
  intros Hlabel. unfold joinpath. simpl. unfold join1.
  rewrite root_of_lacks by (rewrite lacks_app, Hlabel; reflexivity).
  now rewrite components_file.
Qed.

Lemma absolute_file cwd dir label :
  lacks "/" label = true ->
  absolute cwd (joinpath dir [label +:+ ".pdf"])
  = {| root := root (absolute cwd dir);
       parts := parts (absolute cwd dir) ++ [label +:+ ".pdf"] |}.
Proof.
  intros Hlabel. rewrite joinpath_file by exact Hlabel.
  unfold absolute, is_absolute. simpl.
  destruct (root dir) eqn:E; simpl; rewrite ?E; try reflexivity.
  now rewrite app_assoc.
Qed.

(** The exported file of a slash-free label sits right in the output
    directory, under the label's name. *)
Lemma exported_file_in_dir cwd dir label :
  lacks "/" label = true ->
  let file := absolute cwd (joinpath dir [label +:+ ".pdf"]) in
  name file = label +:+ ".pdf" /\
  parent file = absolute cwd dir /\
  under (absolute cwd dir) file.
Proof.
  intros Hlabel file. subst file. rewrite absolute_file by exact Hlabel.
  unfold name, parent, under. simpl.
  rewrite List.last_last, List.removelast_last.
  split; [reflexivity|]. split; [now destruct (absolute cwd dir)|].
  split; [reflexivity|].
  exists [label +:+ ".pdf"]. split; [discriminate|]. split; [reflexivity|].
  intros [E|[]].
  assert (String.length (label +:+ ".pdf") = 2) as Hlen by now rewrite E.
  rewrite length_append in Hlen. simpl in Hlen. lia.
Qed.

(** ** Segments that lead down *)









Lemma one_component_components segment :
  one_component segment -> root_of segment = Relative /\ components segment = [segment].
Proof.
  intros (Hlacks & H1 & H2 & _). split; [now apply root_of_lacks|].
  unfold components. rewrite split_lacks by exact Hlacks. simpl. unfold is_component.
  destruct (String.eqb_spec segment "") as [E|_]; [now destruct H1|].
  destruct (String.eqb_spec segment ".") as [E|_]; [now destruct H2|].
  reflexivity.
Qed.

Lemma one_component_descends segment : one_component segment -> descends segment.
Proof.
  intros H. destruct (one_component_components segment H) as [Hroot Hparts].
  split; [exact Hroot|]. rewrite Hparts. intros [E|[]].
  destruct H as (_ & _ & _ & H). now destruct H.
Qed.


(** ** What the helpers call *)

Section Alphabets.

Variable env : Env.

Lemma only_playwright {P : Action -> Prop} a : P a -> only P (playwright env a).
Proof. intros Ha. unfold playwright. now apply only_call. Qed.

Lemma only_is_visible {P : Action -> Prop} l :
  P (IsVisible l) -> only P (is_visible env l).
Proof. intros Ha. unfold is_visible. now apply only_call. Qed.

Lemma only_get_attribute {P : Action -> Prop} l a :
  P (GetAttribute l a) -> only P (get_attribute env l a).
Proof. intros Ha. unfold get_attribute. now apply only_call. Qed.

Lemma only_inner_text {P : Action -> Prop} l :
  P (InnerText l) -> only P (inner_text env l).
Proof. intros Ha. unfold inner_text. now apply only_call. Qed.

Lemma only_evaluate {P : Action -> Prop} js :
  P (Evaluate js) -> only P (evaluate env js).
Proof. intros Ha. unfold evaluate. now apply only_call. Qed.

Lemma only_all {P : Action -> Prop} l : P (All l) -> only P (all env l).
Proof.
  intros Ha. unfold all. apply only_bind; [now apply only_call|].
  intros n. apply only_ret.
Qed.

Lemma only_makedirs {P : Action -> Prop} dir :
  P (Makedirs dir) -> only P (makedirs env dir).
Proof.
  intros Ha c. unfold makedirs.
  destruct (env_makedirs env c); repeat constructor; exact Ha.
Qed.

Lemma only_pdf {P : Action -> Prop} file : P (Pdf file) -> only P (pdf env file).
Proof.
  intros Ha c. unfold pdf, written.
  destruct (env_act env c); [destruct (env_write env c)| |];
    repeat constructor; exact Ha.
Qed.

(** [all] returns the rows it has found, in page order. *)
Lemma only_bind_all {B} {P : Action -> Prop} l (k : list Locator -> M B) :
  P (All l) -> (forall n, only P (k (map (Nth l) (seq 0 n)))) ->
  only P (bind (all env l) k).
Proof.
  intros Ha Hk c. unfold all. unfold bind, call, ret.
  destruct (env_count env c) as [n| |]; simpl; try (repeat constructor; exact Ha).
  specialize (Hk n (S c)). destruct (k _ (S c)) as [[r c2] d2].
  constructor; [exact Ha | exact Hk].
Qed.

End Alphabets.

Ltac only_step :=
  lazymatch goal with
  | |- only _ (ret _) => apply only_ret
  | |- only _ (raise _) => apply only_raise
  | |- only _ (bind _ _) => apply only_bind; [|intros ?]
  | |- only _ (try_except _ _ _) => apply only_try
  | |- only _ (for_each _ _) => apply only_for_each; intros ?
  | |- only _ (emit _) => apply only_emit
  | |- only _ (playwright _ _) => apply only_playwright
  | |- only _ (is_visible _ _) => apply only_is_visible
  | |- only _ (get_attribute _ _ _) => apply only_get_attribute
  | |- only _ (inner_text _ _) => apply only_inner_text
  | |- only _ (evaluate _ _) => apply only_evaluate
  | |- only _ (all _ _) => apply only_all
  | |- only _ (makedirs _ _) => apply only_makedirs
  | |- only _ (pdf _ _) => apply only_pdf
  end.

Ltac only_auto := repeat only_step; try (now constructor).

Section Helpers.

Variable env : Env.

Lemma solve_captcha_calls : only solve_captcha_action (solve_captcha env).
Proof.
  unfold solve_captcha, download_image, print. only_auto.
  - destruct (split "," _ !! 1) as [base64_data|]; [|only_auto].
    destruct (b64decode env base64_data); only_auto.
  - destruct (image_open env _); only_auto.
    destruct (image_to_string env _); only_auto.
Qed.

Lemma fill_value_calls node text :
  only (fill_value_action node) (fill_value env node text).
Proof. unfold fill_value, fill, print. only_auto. Qed.

Lemma choose_option_calls parent name :
  only (choose_option_action parent) (choose_option env parent name).
Proof.
  unfold choose_option, click, select_option. only_auto.
  destruct (re_compile env name); only_auto.
Qed.

Lemma retry_captcha_shape close case_type c :
  exists reply rest,
    events (retry_captcha env close case_type c) = (Click (First close), reply) :: rest /\
    Forall (fun e => retry_action case_type e.1) rest.
Proof.
  unfold retry_captcha. rewrite events_bind.
  assert (only (retry_action case_type)
            (click env (Css REFRESH);; sleep 2;; text <- solve_captcha env;;
             fill_value env CAPTCHA_CODE text;;
             click env (Css (value case_type));; sleep 2)) as Hrest.
  { unfold click, sleep. only_auto.
    - eapply only_mono; [|apply solve_captcha_calls]. apply ra_solve.
    - eapply only_mono; [|apply fill_value_calls]. apply ra_fill. }
  destruct (click env (First close) c) as [[r c1] d1] eqn:E.
  unfold click, playwright, call in E.
  destruct (env_act env c); inversion E; subst; unfold events, result, clock; simpl;
    eauto.
Qed.

(** *** The retry loop *)

Lemma retry_captcha_counts close case_type c :
  occurrences (Click (First close)) (events (retry_captcha env close case_type c)) = 1 /\
  occurrences (IsVisible (First close)) (events (retry_captcha env close case_type c)) = 0.
Proof.
  destruct (retry_captcha_shape close case_type c) as (reply & rest & -> & Hrest).
  assert (forall a, (forall b, retry_action case_type b -> b <> a) ->
                    occurrences a rest = 0) as Habsent.
  { intros a Ha. apply occurrences_absent.
    eapply Forall_impl; [exact Hrest|]. intros e He. now apply Ha. }
  rewrite occurrences_here, occurrences_skip by congruence.
  rewrite !Habsent.
  - split; reflexivity.
  - intros b Hb. destruct Hb as [| | ? [] | ? [] |]; congruence.
  - intros b Hb. destruct Hb as [| | ? [] | ? [] |]; congruence.
Qed.

Lemma is_visible_run l c :
  exists r reply, is_visible env l c = (r, S c, [(IsVisible l, reply)]).
Proof.
  unfold is_visible, call. destruct (env_visible env c); eauto.
Qed.

Lemma captcha_loop_counter close case_type idx c :
  idx <= MAX_ITERATIONS ->
  idx + occurrences (Click (First close))
          (events (captcha_loop env close case_type idx c)) <= MAX_ITERATIONS /\
  occurrences (IsVisible (First close)) (events (captcha_loop env close case_type idx c))
    <= occurrences (Click (First close))
         (events (captcha_loop env close case_type idx c)) + 1 /\
  forall k, result (captcha_loop env close case_type idx c) = Done k ->
            k = idx + occurrences (Click (First close))
                        (events (captcha_loop env close case_type idx c)).
Proof.
  funelim (captcha_loop env close case_type idx c); intros Hidx.
  all: try match goal with
    | H : is_visible _ _ _ = _ |- _ =>
        let E := fresh in
        destruct (is_visible_run (First close) c) as (? & ? & E);
        rewrite E in H; inversion H; subst; clear H
    end.
  all: unfold events, result; simpl.
  all: repeat first [ rewrite occurrences_app | rewrite occurrences_here
                    | rewrite occurrences_skip by congruence ];
    change (occurrences _ []) with 0.
  - split; [lia|]. split; [lia|]. intros k [= <-]. lia.
  - split; [lia|]. split; [lia|]. intros k [=].
  - split; [lia|]. split; [lia|]. intros k [= <-]. lia.
  - destruct (retry_captcha_counts close case_type (S c)) as [H1 H2].
    rewrite Heq in H1, H2. unfold events in H1, H2. simpl in H1, H2.
    rewrite H1, H2. split; [lia|]. split; [lia|]. intros k [=].
  - destruct (retry_captcha_counts close case_type (S c)) as [H1 H2].
    rewrite Heq0 in H1, H2. unfold events in H1, H2. simpl in H1, H2.
    rewrite Heq in Hind. unfold events, result in Hind. simpl in Hind.
    destruct Hind as (I1 & I2 & I3); [lia|].
    rewrite H1, H2. split; [lia|]. split; [lia|].
    intros k Hk. rewrite (I3 k Hk). lia.
Qed.

End Helpers.

(** C1: in every run of [pass_captcha] the retry loop makes at most
    [MAX_ITERATIONS] = 10 passes.  The run of [pass_captcha] is the run of
    the loop started with [idx = 0]; at most ten passes are started; the
    loop condition is evaluated at most once more than that; and when the
    loop is left normally, [idx] is the number of passes made, one step per
    pass.  [pass_captcha] is a total function: it ends for every behaviour
    of the portal. *)
Theorem pass_captcha_at_most_ten_passes (env : Env) (case_type : CaseType) (c : nat) :
  let loop := captcha_loop env (Css CLOSE) case_type 0 c in
  let run := pass_captcha env case_type c in
  events run = events loop /\
  retries (events run) <= MAX_ITERATIONS /\
  checks (events run) <= retries (events run) + 1 /\
  forall idx, result loop = Done idx -> idx = retries (events run).
Proof.
  intros loop run.
  assert (events run = events loop) as Hrun.
  { subst run loop. unfold pass_captcha. rewrite events_bind.
    destruct (result _) as [idx|e]; [|apply app_nil_r].
    destruct (Nat.eqb idx MAX_ITERATIONS); apply app_nil_r. }
  rewrite Hrun. unfold retries, checks.
  destruct (captcha_loop_counter env (Css CLOSE) case_type 0 c) as (H1 & H2 & H3).
  { unfold MAX_ITERATIONS. lia. }
  fold loop in H1, H2, H3. simpl in H1, H3. auto.
Qed.

Lemma pass_captcha_at_most_ten_passes_witness :
  retries (events (pass_captcha solved_by_third_retry Civil 0)) = 3.
Proof.
  symmetry.
  apply (proj2 (proj2 (proj2
           (pass_captcha_at_most_ten_passes solved_by_third_retry Civil 0)))).
  vm_compute. reflexivity.
Defined.

(** The result of [pass_captcha], from the run of its loop. *)
Lemma pass_captcha_result (env : Env) (case_type : CaseType) (c : nat) :
  result (pass_captcha env case_type c) =
  match result (captcha_loop env (Css CLOSE) case_type 0 c) with
  | Done idx =>
      if Nat.eqb idx MAX_ITERATIONS
      then Raise (ValueError "Failed to solve captcha. Please try again")
      else Done ()
  | Raise e => Raise e
  end.
Proof.
  unfold pass_captcha. rewrite result_bind.
  destruct (result _) as [idx|e]; [|reflexivity].
  destruct (Nat.eqb idx MAX_ITERATIONS); reflexivity.
Qed.

(** Fewer than ten retries: [pass_captcha] returns normally as soon as the
    loop is left with [idx < MAX_ITERATIONS]. *)
Lemma pass_captcha_returns_before_bound (env : Env) (case_type : CaseType) (c idx : nat) :
  result (captcha_loop env (Css CLOSE) case_type 0 c) = Done idx ->
  idx < MAX_ITERATIONS ->
  result (pass_captcha env case_type c) = Done ().
Proof.
  intros Hloop Hidx. rewrite pass_captcha_result, Hloop.
  destruct (Nat.eqb_spec idx MAX_ITERATIONS); [lia | reflexivity].
Qed.

(** C2 (fails on the code): when the tenth retry solves the CAPTCHA, the
    loop condition finds the error modal gone, and yet [pass_captcha] raises
    [ValueError], because [idx] has reached [MAX_ITERATIONS]. *)
Theorem pass_captcha_raises_although_solved :
  let run := pass_captcha solved_by_tenth_retry Civil 0 in
  result run = Raise (ValueError "Failed to solve captcha. Please try again") /\
  retries (events run) = 10 /\
  last (events run) = Some (IsVisible (First (Css CLOSE)), RBool false).
Proof. vm_compute. repeat split. Qed.

(** [UnidentifiedImageError] never leaves [solve_captcha]. *)
Lemma solve_captcha_catches_unidentified (env : Env) (c : nat) :
  result (solve_captcha env c) <> Raise UnidentifiedImageError.
Proof.
  unfold solve_captcha. rewrite result_try.
  destruct (result _) as [text|e]; [discriminate|].
  destruct e; simpl; discriminate.
Qed.

(** C8 as stated fails: when the second field of the data URL is not
    base64, nothing decodes to an image, and [solve_captcha] neither returns
    the empty string nor any other: the [binascii.Error] of [b64decode] is
    not caught by [except UnidentifiedImageError]. *)
Lemma undecodable_payload_is_propagated :
  result (solve_captcha undecoded_captcha 0) = Raise BinasciiError /\
  ~ returns_string_as_stated undecoded_captcha 0.
Proof.
  split; [reflexivity|].
  intros [_ [text Htext]]. vm_compute in Htext. discriminate Htext.
Qed.

(** C8 (amended): [solve_captcha] catches [UnidentifiedImageError] and
    nothing else.  When [Image.open] does not identify the captured bytes,
    the error line is printed and the empty string returned;
    [UnidentifiedImageError] never leaves [solve_captcha].  Every other
    exception is propagated, right after the one call to the page and with
    nothing printed: the error of a failing [page.evaluate], [IndexError]
    for a data URL without a comma, [binascii.Error] for a second field
    that is not base64, another error of [Image.open], and the error of
    the OCR.  A string is returned in the two remaining cases only: the
    empty string for an image that is not identified, and the text read
    from an image that is. *)
Theorem solve_captcha_catches_unidentified_only (env : Env) (c : nat) :
  let run := solve_captcha env c in
  let captured := fun reply => [(Evaluate IMG_TO_CANVAS_JS, reply)] in
  result run <> Raise UnidentifiedImageError /\
  match env_text env c with
  | PwTimeout => run = (Raise TimeoutError, S c, captured RTimeout)
  | PwError => run = (Raise PlaywrightError, S c, captured RError)
  | PwOk url =>
      match split "," url !! 1 with
      | None => run = (Raise IndexError, S c, captured (RText url))
      | Some base64_data =>
          match b64decode env base64_data with
          | None => run = (Raise BinasciiError, S c, captured (RText url))
          | Some byte =>
              match image_open env byte with
              | PilUnidentified =>
                  run = (Done "", S c,
                         captured (RText url)
                         ++ [(Print "[ERROR]: Invalid Image format found", RUnit)])
              | PilFailure => run = (Raise OSError, S c, captured (RText url))
              | PilImage =>
                  match image_to_string env byte with
                  | Some text => run = (Done text, S c, captured (RText url))
                  | None => run = (Raise TesseractError, S c, captured (RText url))
                  end
              end
          end
      end
  end.
Proof.
  intros run captured. split; [apply solve_captcha_catches_unidentified|].
  subst run captured.
  unfold solve_captcha, try_except, download_image, bind, evaluate, call, raise, ret,
    print, emit.
  destruct (env_text env c) as [url| |]; simpl; try reflexivity.
  destruct (split "," url !! 1) as [base64_data|]; simpl; [|reflexivity].
  destruct (b64decode env base64_data) as [byte|]; simpl; [|reflexivity].
  destruct (image_open env byte); simpl; try reflexivity.
  destruct (image_to_string env byte); reflexivity.
Qed.

Lemma solve_captcha_catches_unidentified_only_witness :
  solve_captcha garbled_captcha 0 =
    (Done "", 1,
     [(Evaluate IMG_TO_CANVAS_JS, RText data_url);
      (Print "[ERROR]: Invalid Image format found", RUnit)]).
Proof.
  exact (proj2 (solve_captcha_catches_unidentified_only garbled_captcha 0)).
Defined.

(** ** The export loop *)

Section ExportLoop.

Variable env : Env.
Variables (dir : Path) (back : Locator).

(** One pass of the loop either completes, and then made exactly the calls
    of [row_events], or is cut short by an exception. *)
Lemma export_record_run record c :
  (exists label,
      result (export_record env dir back record c) = Done () /\
      events (export_record env dir back record c)
      = row_events (cwd env) dir back record label) \/
  (exists e,
      result (export_record env dir back record c) = Raise e /\
      failed_row (cwd env) dir back record e (events (export_record env dir back record c))).
Proof.
  unfold export_record, bind, click, sleep, yield, emit, inner_text, pdf, written,
    wait_for_load_state, playwright, call.
  repeat match goal with
    | |- context [match env_act env ?n with _ => _ end] =>
        destruct (env_act env n) as [[]| |]
    | |- context [match env_text env ?n with _ => _ end] =>
        destruct (env_text env n) as [label| |]
    | |- context [match env_write env ?n with _ => _ end] =>
        destruct (env_write env n) as [| |message]
    end;
    unfold result, events; simpl.
  all: try (left; eexists; split; reflexivity).
  all: right; eexists; (split; [reflexivity|]); unfold failed_row.
  all: first
    [ eexists _, 0, _, _, _; split; [lia|]; split; [reflexivity|];
      split; [unfold failure; eauto 8 | reflexivity]
    | eexists _, 2, _, _, _; split; [lia|]; split; [reflexivity|];
      split; [unfold failure; eauto 8 | reflexivity]
    | eexists _, 3, _, _, _; split; [lia|]; split; [reflexivity|];
      split; [unfold failure; eauto 8 | reflexivity]
    | eexists _, 5, _, _, _; split; [lia|]; split; [reflexivity|];
      split; [unfold failure; eauto 8 | reflexivity]
    | eexists _, 6, _, _, _; split; [lia|]; split; [reflexivity|];
      split; [unfold failure; eauto 8 | reflexivity] ].
  Unshelve. all: exact "".
Qed.

End ExportLoop.

Section ExportRuns.

Variable env : Env.
Variables (dir : Path) (back : Locator).

(** The loop makes complete passes over the first rows, in order, until
    it has gone through all of them or one pass fails. *)
Lemma export_loop_run records c :
  exists labels tail,
    events (for_each records (export_record env dir back) c)
    = concat (zip_with (row_events (cwd env) dir back) records labels) ++ tail /\
    length labels <= length records /\
    match result (for_each records (export_record env dir back) c) with
    | Done _ => length labels = length records /\ tail = []
    | Raise e =>
        exists record,
          records !! length labels = Some record /\
          failed_row (cwd env) dir back record e tail
    end.
Proof.
  revert c. induction records as [|record records IH]; intros c.
  - exists [], []. repeat split; reflexivity.
  - simpl for_each. rewrite events_bind, result_bind.
    destruct (export_record_run env dir back record c)
      as [(label & -> & ->) | (e & -> & Hfail)].
    + destruct (IH (clock (export_record env dir back record c)))
        as (labels & tail & -> & Hlen & Hres).
      exists (label :: labels), tail. split; [|split].
      * reflexivity.
      * simpl. lia.
      * destruct (result _) as [[]|e].
        -- destruct Hres as [Hl ->]. split; [simpl; lia | reflexivity].
        -- exact Hres.
    + exists [], (events (export_record env dir back record c)).
      split; [|split].
      * now rewrite app_nil_r.
      * simpl. lia.
      * exists record. split; [reflexivity | exact Hfail].
Qed.

End ExportRuns.

Section GetPdfs.

Variable env : Env.
Variables (self : WebScraper) (state dist court court_name : string).

Let dir := pdf_dir self state dist court court_name.
Let run (c : nat) := get_pdfs env self state dist court court_name c.

(** The shape of every run of [get_pdfs]: the pause, the listing of the
    rows, and then, if there are rows, the creation of the directory, the
    complete passes, and what is left of a pass that failed. *)
Lemma get_pdfs_run c :
  exists body,
    events (run c) = (Sleep 5, RUnit) :: body /\
    match env_count env c with
    | PwTimeout => body = [(All (Css VIEW), RTimeout)] /\ result (run c) = Raise TimeoutError
    | PwError => body = [(All (Css VIEW), RError)] /\ result (run c) = Raise PlaywrightError
    | PwOk 0 => body = [(All (Css VIEW), RCount 0)] /\ result (run c) = Done ()
    | PwOk (S n) =>
        match env_makedirs env (S c) with
        | FsOk =>
          exists labels tail,
            body = (All (Css VIEW), RCount (S n)) :: (Makedirs dir, RUnit)
                   :: concat (zip_with (row_events (cwd env) dir (Css BACK))
                                (map (Nth (Css VIEW)) (seq 0 (S n))) labels)
                   ++ tail /\
            length labels <= S n /\
            ((length labels = S n /\ tail = [] /\ result (run c) = Done ()) \/
             (exists record e t,
                 map (Nth (Css VIEW)) (seq 0 (S n)) !! length labels = Some record /\
                 failed_row (cwd env) dir (Css BACK) record e t /\
                 ((e = TimeoutError /\ result (run c) = Done () /\
                   tail = t ++ [(Print (download_failed state dist court court_name),
                                 RUnit)]) \/
                  (e <> TimeoutError /\ result (run c) = Raise e /\ tail = t))))
        | FsOSError =>
          body = [(All (Css VIEW), RCount (S n)); (Makedirs dir, ROSError)] /\
          result (run c) = Raise OSError
        | FsValueError message =>
          body = [(All (Css VIEW), RCount (S n)); (Makedirs dir, RValueError)] /\
          result (run c) = Raise (ValueError message)
        end
    end.
Proof.
  subst run. cbv beta.
  unfold get_pdfs, all, sleep, emit, makedirs, written.
  unfold bind, call, ret, try_except, result, events.
  destruct (env_count env c) as [[|n]| |]; simpl; eauto.
  fold dir.
  destruct (env_makedirs env (S c)) as [| |message]; simpl; eauto.
  pose proof (export_loop_run env dir (Css BACK)
                (Nth (Css VIEW) 0 :: map (Nth (Css VIEW)) (seq 1 n)) (S (S c))) as Hloop.
  simpl for_each in Hloop.
  match goal with
  | |- context [bind ?m ?k ?c0] => destruct (bind m k c0) as [[[[]|e] c2] d2]
  end;
    destruct Hloop as (labels & tail & Hev & Hlen & Hres);
    unfold events, result in Hev, Hres; cbn [fst snd] in Hev, Hres;
    cbn [length] in Hlen, Hres;
    rewrite List.length_map, List.length_seq in Hlen;
    rewrite ?List.length_map, ?List.length_seq in Hres; simpl.
  - destruct Hres as [Hl ->]. eexists. split; [reflexivity|].
    exists labels, []. split; [now rewrite Hev|]. split; [lia|]. left. auto.
  - destruct Hres as (record & Hrecord & Hfail).
    pose proof Hfail as (label & j & a & r & reply & Hj & Hrow & Hfailure & Htail).
    destruct Hfailure as [[-> ->] | [[-> ->] | [[-> ->] | (message & -> & ->)]]]; simpl;
      (eexists; split; [reflexivity|]).
    + eexists labels, _. split; [rewrite Hev, <- app_assoc; reflexivity|].
      split; [lia|]. right. exists record, TimeoutError, tail. auto 6.
    + exists labels, tail. split; [now rewrite Hev|].
      split; [lia|]. right. exists record, PlaywrightError, tail.
      split; [exact Hrecord|]. split; [exact Hfail|]. right. now repeat split.
    + exists labels, tail. split; [now rewrite Hev|].
      split; [lia|]. right. exists record, OSError, tail.
      split; [exact Hrecord|]. split; [exact Hfail|]. right. now repeat split.
    + exists labels, tail. split; [now rewrite Hev|].
      split; [lia|]. right. exists record, (ValueError message), tail.
      split; [exact Hrecord|]. split; [exact Hfail|]. right. now repeat split.
Qed.

End GetPdfs.

(** ** Files and records *)

Section Exported.

Variables (cwd : string) (dir : Path) (back : Locator).

Lemma exported_stable : stable (exported cwd dir back).
Proof.
  intros l0 l1 e [Hfile Hrecord]. split.
  - intros file reply E. destruct (Hfile file reply E) as (earlier & label & -> & H).
    exists (l0 ++ earlier), label. now rewrite app_assoc.
  - intros record reply E. destruct (Hrecord record reply E) as (earlier & row & -> & H).
    exists (l0 ++ earlier), row. now rewrite app_assoc.
Qed.

(** A call that is neither an export nor a [yield]. *)
Lemma exported_other before a reply :
  (forall file, a <> Pdf file) -> (forall record, a <> Yield record) ->
  exported cwd dir back before (a, reply).
Proof.
  intros Hpdf Hyield. split.
  - intros file r [= -> _]. now destruct (Hpdf file).
  - intros record r [= -> _]. now destruct (Hyield record).
Qed.

Lemma exported_pdf earlier label reply :
  exported cwd dir back
    (earlier ++ [(InnerText (First (Css CNR_NUMBER)), RText label)])
    (Pdf (absolute cwd (joinpath dir [label +:+ ".pdf"])), reply).
Proof.
  split; [|intros record r [=]].
  intros file r [= <- _]. exists earlier, label.
  split; [reflexivity|]. split; [reflexivity|].
  intros Hlabel. destruct (exported_file_in_dir cwd dir label Hlabel) as (H1 & H2 & _).
  auto.
Qed.

Lemma exported_yield row label reply :
  exported cwd dir back (row_calls cwd dir back row label)
    (Yield (record_for dir label), reply).
Proof.
  split; [intros file r [=]|].
  intros record r [= <- _]. exists [], row. split; reflexivity.
Qed.

Ltac exported_calls :=
  repeat (apply preceded_cons; cbv beta;
          [ first [ apply exported_other; intros ?; discriminate
                  | apply (exported_pdf [_; _])
                  | apply exported_yield ] | ]);
  apply preceded_nil.

Lemma row_events_exported record label :
  preceded (exported cwd dir back) (row_events cwd dir back record label).
Proof. unfold row_events, row_calls. simpl app. exported_calls. Qed.

Lemma failed_row_exported record e t :
  failed_row cwd dir back record e t -> preceded (exported cwd dir back) t.
Proof.
  intros (label & j & a & r & reply & Hj & Hrow & _ & ->).
  do 7 (destruct j as [|j]; [injection Hrow as <- <-; simpl; exported_calls|]).
  lia.
Qed.

End Exported.

Section GetPdfsExports.

Variable env : Env.
Variables (self : WebScraper) (state dist court court_name : string).

Let dir := pdf_dir self state dist court court_name.
Lemma get_pdfs_exported c :
  preceded (exported (cwd env) dir (Css BACK)) (events (get_pdfs env self state dist court court_name c)).
Proof.
  pose proof (exported_stable (cwd env) dir (Css BACK)) as Hstable.
  assert (forall a reply, (forall file, a <> Pdf file) -> (forall record, a <> Yield record) ->
                          preceded (exported (cwd env) dir (Css BACK)) [(a, reply)]) as Hone.
  { intros a reply H1 H2. apply preceded_cons; [|apply preceded_nil].
    now apply exported_other. }
  destruct (get_pdfs_run env self state dist court court_name c) as (body & Hev & Hbody).
  fold dir in Hev, Hbody. rewrite Hev.
  change (preceded (exported (cwd env) dir (Css BACK)) ([(Sleep 5, RUnit)] ++ body)).
  apply preceded_app; [exact Hstable | now apply Hone |].
  destruct (env_count env c) as [[|n]| |].
  - destruct Hbody as [-> _]. now apply Hone.
  - destruct (env_makedirs env (S c)) as [| |message].
    + destruct Hbody as (labels & tail & -> & _ & Htail).
      change (preceded (exported (cwd env) dir (Css BACK))
                ([(All (Css VIEW), RCount (S n))] ++ [(Makedirs dir, RUnit)] ++
                 concat (zip_with (row_events (cwd env) dir (Css BACK))
                           (map (Nth (Css VIEW)) (seq 0 (S n))) labels) ++ tail)).
      repeat (apply preceded_app; [exact Hstable | |]); try now apply Hone.
      * apply preceded_concat; [exact Hstable|].
        clear. generalize (map (Nth (Css VIEW)) (seq 0 (S n))). intros records.
        revert labels. induction records as [|record records IH];
          intros [|label labels]; simpl; constructor.
        -- apply row_events_exported.
        -- apply IH.
      * destruct Htail as [(_ & -> & _) | (record & e & t & _ & Hfail & Hend)].
        -- apply preceded_nil.
        -- destruct Hend as [(_ & _ & ->) | (_ & _ & ->)].
           ++ apply preceded_app; [exact Hstable | |now apply Hone].
              eapply failed_row_exported. exact Hfail.
           ++ eapply failed_row_exported. exact Hfail.
    + destruct Hbody as [-> _].
      change (preceded (exported (cwd env) dir (Css BACK))
                ([(All (Css VIEW), RCount (S n))] ++ [(Makedirs dir, ROSError)])).
      apply preceded_app; [exact Hstable | |]; now apply Hone.
    + destruct Hbody as [-> _].
      change (preceded (exported (cwd env) dir (Css BACK))
                ([(All (Css VIEW), RCount (S n))] ++ [(Makedirs dir, RValueError)])).
      apply preceded_app; [exact Hstable | |]; now apply Hone.
  - destruct Hbody as [-> _]. now apply Hone.
  - destruct Hbody as [-> _]. now apply Hone.
Qed.

End GetPdfsExports.

(** [get_pdfs] creates no directory but the output directory. *)
Lemma get_pdfs_makedirs env self state dist court court_name :
  only (fun a => forall d, a = Makedirs d -> d = pdf_dir self state dist court court_name)
       (get_pdfs env self state dist court court_name).
Proof.
  unfold get_pdfs, sleep, print. only_auto; try (intros d [=]; fail).
  match goal with records : list Locator |- _ => destruct records end;
    only_auto; try (intros d [=]; fail).
  - now intros d [= <-].
  - unfold export_record, click, sleep, wait_for_load_state, yield.
    only_auto; intros d [=].
Qed.


(** ** The order of the form interactions *)

Lemma controls_app d1 d2 : controls (d1 ++ d2) = controls d1 ++ controls d2.
Proof. apply omap_app. Qed.

Lemma controls_cons a reply d :
  controls ((a, reply) :: d)
  = match touches a with Some x => x :: controls d | None => controls d end.
Proof. reflexivity. Qed.

Lemma controls_at_step n d :
  Forall (fun e => at_step n e.1) d -> Forall (fun x => step x = n) (controls d).
Proof.
  induction 1 as [|e d He _ IH]; [constructor|].
  unfold controls. simpl. destruct (touches e.1) as [x|] eqn:E; [|exact IH].
  constructor; [now apply He | exact IH].
Qed.

Lemma sorted_constant n (xs : list Control) :
  Forall (fun x => step x = n) xs -> StronglySorted (fun x y => step x <= step y) xs.
Proof.
  induction 1 as [|x xs Hx Hxs IH]; constructor; [exact IH|].
  eapply Forall_impl; [exact Hxs|]. intros y Hy. simpl in *. lia.
Qed.

Lemma sorted_app (xs ys : list Control) mid :
  StronglySorted (fun x y => step x <= step y) xs ->
  StronglySorted (fun x y => step x <= step y) ys ->
  Forall (fun x => step x <= mid) xs -> Forall (fun y => mid <= step y) ys ->
  StronglySorted (fun x y => step x <= step y) (xs ++ ys).
Proof.
  intros Hxs Hys Hlo Hhi. induction Hxs as [|x xs Hxs IH Hx]; [exact Hys|].
  inversion_clear Hlo as [|? ? Hx' Hlo']. simpl. constructor; [now apply IH|].
  apply Forall_app. split; [exact Hx|].
  eapply Forall_impl; [exact Hhi|]. intros y Hy. simpl in *. lia.
Qed.

Section Staged.

Context {A B : Type}.

Lemma staged_of_only n (m : M A) : only (at_step n) m -> staged n n m.
Proof.
  intros Hm c. pose proof (controls_at_step n _ (Hm c)) as H. split.
  - eapply Forall_impl; [exact H|]. intros x Hx. simpl in *. lia.
  - eapply sorted_constant. exact H.
Qed.

Lemma staged_bind lo a b hi (m : M A) (k : A -> M B) :
  lo <= a -> a <= b -> b <= hi ->
  staged lo a m -> (forall x, staged b hi (k x)) -> staged lo hi (bind m k).
Proof.
  intros H1 H2 H3 Hm Hk c. rewrite events_bind, controls_app.
  destruct (Hm c) as [Hm1 Hm2].
  assert (Forall (fun x => b <= step x <= hi)
            (controls match result (m c) with
                      | Done x => events (k x (clock (m c)))
                      | Raise _ => []
                      end) /\
          StronglySorted (fun x y => step x <= step y)
            (controls match result (m c) with
                      | Done x => events (k x (clock (m c)))
                      | Raise _ => []
                      end)) as [Hk1 Hk2].
  { destruct (result (m c)) as [x|e]; [apply Hk|]. split; constructor. }
  split.
  - apply Forall_app. split.
    + eapply Forall_impl; [exact Hm1|]. intros x Hx. simpl in *. lia.
    + eapply Forall_impl; [exact Hk1|]. intros x Hx. simpl in *. lia.
  - apply (sorted_app _ _ a); auto.
    + eapply Forall_impl; [exact Hm1|]. intros x Hx. simpl in *. lia.
    + eapply Forall_impl; [exact Hk1|]. intros x Hx. simpl in *. lia.
Qed.

(** No control comes after the place 5. *)
Lemma chained_top (m : M A) : chained 5 m.
Proof. intros c x y _ Hlo Hy. destruct x; simpl in *; lia. Qed.

(** [m] stays at the place [n], where what follows starts. *)
Lemma chained_bind n (m : M A) (k : A -> M B) :
  only (at_step n) m -> (forall a, chained n (k a)) -> chained n (bind m k).
Proof.
  intros Hm Hk c x y Hx Hlo Hy.
  rewrite events_bind, controls_app in Hx |- *.
  apply List.in_app_iff in Hx as [Hx|Hx].
  - pose proof (controls_at_step n _ (Hm c)) as H.
    rewrite Forall_forall in H. apply list_elem_of_In in Hx.
    specialize (H x Hx). simpl in H. lia.
  - apply List.in_app_iff. right.
    destruct (result (m c)) as [a|e]; [|destruct Hx].
    now apply (Hk a (clock (m c)) x y).
Qed.

(** [m] always touches the control [ctl] of the place [n], and what
    follows starts at the next place. *)
Lemma chained_bind_next n ctl (m : M A) (k : A -> M B) :
  step ctl = n -> n < 5 ->
  only (at_step n) m ->
  (forall c, In ctl (controls (events (m c)))) ->
  (forall a, chained (S n) (k a)) -> chained n (bind m k).
Proof.
  intros Hctl Hn Hm Htouch Hk c x y Hx Hlo Hy.
  rewrite events_bind, controls_app in Hx |- *.
  apply List.in_app_iff in Hx as [Hx|Hx].
  - pose proof (controls_at_step n _ (Hm c)) as H.
    rewrite Forall_forall in H. apply list_elem_of_In in Hx.
    specialize (H x Hx). simpl in H. lia.
  - apply List.in_app_iff.
    destruct (decide (step y = n)) as [E|E].
    + left. assert (y = ctl) as ->; [|apply Htouch].
      clear - E Hctl Hn. destruct y, ctl; simpl in *; subst; try reflexivity; lia.
    + right. destruct (result (m c)) as [a|e]; [|destruct Hx].
      apply (Hk a (clock (m c)) x y); [exact Hx | lia | exact Hy].
Qed.

End Staged.

Ltac at_step_solve :=
  let x := fresh "x" in
  intros x; vm_compute; first [ solve [intros [=]] | intros [= <-]; reflexivity ].

Section FormSteps.

Variable env : Env.

Lemma choose_option_step n parent name :
  at_step n (Click (Css parent)) ->
  at_step n (Click (Css (parent +:+ " option"))) ->
  only (at_step n) (choose_option env parent name).
Proof.
  intros Hmenu Hoption.
  eapply only_mono; [|apply choose_option_calls].
  intros a [| | |]; try exact Hmenu; try exact Hoption.
  intros x [=].
Qed.

Lemma choose_state_step name : only (at_step 0) (choose_state env name).
Proof.
  unfold choose_state, print. apply only_try.
  - apply choose_option_step; at_step_solve.
  - apply only_emit. at_step_solve.
Qed.

Lemma choose_district_step name : only (at_step 1) (choose_district env name).
Proof.
  unfold choose_district, print. apply only_try.
  - apply choose_option_step; at_step_solve.
  - apply only_emit. at_step_solve.
Qed.

Lemma choose_complex_step name : only (at_step 2) (choose_complex env name).
Proof.
  unfold choose_complex, print. apply only_try.
  - apply choose_option_step; at_step_solve.
  - apply only_emit. at_step_solve.
Qed.

Lemma choose_name_step name : only (at_step 3) (choose_name env name).
Proof.
  unfold choose_name, print. apply only_try.
  - apply choose_option_step; at_step_solve.
  - apply only_emit. at_step_solve.
Qed.

Lemma fill_value_step n node text :
  at_step n (Fill (Css node) "") -> only (at_step n) (fill_value env node text).
Proof.
  intros Hnode. eapply only_mono; [|apply fill_value_calls].
  intros a [|]; [exact Hnode | intros x [=]].
Qed.

Lemma solve_captcha_step n : only (at_step n) (solve_captcha env).
Proof.
  eapply only_mono; [|apply solve_captcha_calls]. intros a []; intros x [=].
Qed.

Lemma retry_action_step case_type a : retry_action case_type a -> at_step 5 a.
Proof.
  intros [| |? []|? []|]; try at_step_solve.
  destruct case_type; at_step_solve.
Qed.

Lemma captcha_loop_calls case_type idx c :
  Forall (fun e => pass_captcha_action case_type e.1)
         (events (captcha_loop env (Css CLOSE) case_type idx c)).
Proof.
  remember (Css CLOSE) as close eqn:Hclose.
  funelim (captcha_loop env close case_type idx c).
  all: try match goal with
    | H : is_visible _ _ _ = _ |- _ =>
        let E := fresh in
        destruct (is_visible_run env (First (Css CLOSE)) c) as (? & ? & E);
        rewrite E in H; inversion H; subst; clear H
    end.
  all: unfold events; simpl.
  all: repeat (constructor; [apply pa_check|]); try constructor.
  - destruct (retry_captcha_shape env (Css CLOSE) case_type (S c))
      as (reply & rest & Hev & Hrest).
    rewrite Heq in Hev. unfold events in Hev. simpl in Hev. subst d2.
    constructor; [apply pa_close|].
    eapply Forall_impl; [exact Hrest|]. intros ev. apply pa_retry.
  - destruct (retry_captcha_shape env (Css CLOSE) case_type (S c))
      as (reply & rest & Hev & Hrest).
    rewrite Heq0 in Hev. unfold events in Hev. simpl in Hev. subst d2.
    rewrite Heq in Hind. unfold events in Hind. simpl in Hind.
    simpl. constructor; [apply pa_close|].
    apply Forall_app. split; [|exact Hind].
    eapply Forall_impl; [exact Hrest|]. intros ev. apply pa_retry.
Qed.

Lemma pass_captcha_calls case_type :
  only (pass_captcha_action case_type) (pass_captcha env case_type).
Proof.
  intros c. unfold pass_captcha. rewrite events_bind.
  apply Forall_app. split; [apply captcha_loop_calls|].
  destruct (result _) as [idx|e]; [|constructor].
  destruct (Nat.eqb idx MAX_ITERATIONS); constructor.
Qed.

Lemma pass_captcha_step case_type : only (at_step 5) (pass_captcha env case_type).
Proof.
  eapply only_mono; [|apply pass_captcha_calls].
  intros a [| |? Hretry]; try at_step_solve.
  now apply (retry_action_step case_type).
Qed.

Lemma get_pdfs_calls self state dist court court_name :
  only get_pdfs_action (get_pdfs env self state dist court court_name).
Proof.
  unfold get_pdfs, sleep, print. only_step; [only_auto|].
  apply only_bind_all; [constructor|]. intros n. only_auto.
  destruct n as [|n]; [only_auto|].
  change (map (Nth (Css VIEW)) (seq 0 (S n)))
    with (Nth (Css VIEW) 0 :: map (Nth (Css VIEW)) (seq 1 n)).
  cbv iota. only_step; [only_auto|].
  apply only_for_each_in. intros record Hin.
  assert (exists i, record = Nth (Css VIEW) i) as [i ->].
  { destruct Hin as [Hin|Hin]; [now exists 0|].
    apply List.in_map_iff in Hin. destruct Hin as (i & Hi & Hseq). now exists i. }
  unfold export_record, click, sleep, wait_for_load_state, yield. only_auto.
Qed.

Lemma get_pdfs_step n self state dist court court_name :
  only (at_step n) (get_pdfs env self state dist court court_name).
Proof.
  eapply only_mono; [|apply get_pdfs_calls]. intros a []; at_step_solve.
Qed.

End FormSteps.

Section Sessions.

Variable env : Env.

Lemma playwright_events a c : exists reply, events (playwright env a c) = [(a, reply)].
Proof. unfold playwright, call. destruct (env_act env c); eauto. Qed.

Lemma controls_session {A} (body : M A) c :
  controls (events (async_with_playwright env body c)) = []
  \/ exists c', controls (events (async_with_playwright env body c))
                = controls (events (body c')).
Proof.
  unfold async_with_playwright. rewrite events_bind.
  destruct (playwright_events Start c) as [reply ->].
  destruct (result _) as [[]|e]; [|now left].
  right. exists (clock (playwright env Start c)).
  destruct (body _) as [[r c1] d]. unfold events. simpl.
  rewrite controls_app. unfold controls at 2. simpl. now rewrite app_nil_r.
Qed.

Lemma staged_session {A} lo hi (body : M A) :
  staged lo hi body -> staged lo hi (async_with_playwright env body).
Proof.
  intros Hbody c. destruct (controls_session body c) as [-> | [c' ->]].
  - split; constructor.
  - apply Hbody.
Qed.

Lemma chained_session {A} lo (body : M A) :
  chained lo body -> chained lo (async_with_playwright env body).
Proof.
  intros Hbody c. destruct (controls_session body c) as [-> | [c' ->]].
  - intros x y [].
  - apply Hbody.
Qed.

(** A menu is clicked whatever comes of the selection. *)
Lemma choose_touches parent name handler ctl c :
  touches (Click (Css parent)) = Some ctl ->
  In ctl (controls (events (try_except (choose_option env parent name)
                              is_TimeoutError handler c))).
Proof.
  intros Hctl. rewrite events_try. unfold choose_option. rewrite events_bind.
  destruct (playwright_events (Click (Css parent)) c) as [reply E].
  unfold click. rewrite E. rewrite <- !app_assoc.
  change ([(Click (Css parent), reply)] ++ ?d) with ((Click (Css parent), reply) :: d).
  rewrite controls_cons, Hctl. now left.
Qed.

Lemma fill_touches l text ctl c :
  touches (Fill l text) = Some ctl -> In ctl (controls (events (fill env l text c))).
Proof.
  intros Hctl. destruct (playwright_events (Fill l text) c) as [reply E].
  unfold fill. rewrite E. rewrite controls_cons, Hctl. now left.
Qed.

End Sessions.

Ltac step_solve :=
  first
    [ apply choose_state_step | apply choose_district_step
    | apply choose_complex_step | apply choose_name_step
    | apply fill_value_step; at_step_solve
    | apply solve_captcha_step | apply pass_captcha_step | apply get_pdfs_step
    | unfold click, fill, goto, wait_for_load_state, sleep; only_auto; at_step_solve ].

Section BeginScrape.

Variable env : Env.
Variables (self : WebScraper).
Variables (chosen_state chosen_dist chosen_court chosen_court_name chosen_date : string).
Variable case_type : CaseType.

(** What [begin_scrape] does once the date is in: the CAPTCHA is answered,
    the form submitted, the answer retried, the PDFs exported. *)
Lemma submit_and_export_step court_name :
  only (at_step 5)
    (text <- solve_captcha env;;
     fill_value env CAPTCHA_CODE text;;
     click env (Css (value case_type));;
     pass_captcha env case_type;;
     get_pdfs env self chosen_state chosen_dist chosen_court court_name).
Proof.
  repeat (lazymatch goal with
          | |- only _ (bind _ _) => apply only_bind; [|intros ?]
          end); try step_solve.
  destruct case_type; step_solve.
Qed.

Lemma begin_scrape_staged :
  staged 0 5 (begin_scrape env self chosen_state chosen_dist chosen_court
                chosen_court_name chosen_date case_type).
Proof.
  unfold begin_scrape. apply staged_session.
  do 5 (eapply (staged_bind 0 0 0 5);
        [lia | lia | lia | apply staged_of_only; step_solve | intros ?]).
  eapply (staged_bind 0 0 0 5);
    [lia | lia | lia | apply staged_of_only; step_solve | intros visible].
  eapply (staged_bind 0 0 0 5); [lia | lia | lia | | intros ?].
  { apply staged_of_only. destruct visible; step_solve. }
  eapply (staged_bind 0 0 1 5);
    [lia | lia | lia | apply staged_of_only; step_solve | intros ?].
  eapply (staged_bind 1 1 2 5);
    [lia | lia | lia | apply staged_of_only; step_solve | intros ?].
  eapply (staged_bind 2 2 3 5);
    [lia | lia | lia | apply staged_of_only; step_solve | intros ?].
  eapply (staged_bind 3 3 4 5);
    [lia | lia | lia | apply staged_of_only; step_solve | intros ?].
  eapply (staged_bind 4 4 4 5);
    [lia | lia | lia | apply staged_of_only; step_solve | intros ?].
  eapply (staged_bind 4 4 5 5);
    [lia | lia | lia | apply staged_of_only; step_solve | intros ?].
  apply staged_of_only. apply submit_and_export_step.
Qed.

Lemma begin_scrape_chained :
  chained 0 (begin_scrape env self chosen_state chosen_dist chosen_court
               chosen_court_name chosen_date case_type).
Proof.
  unfold begin_scrape. apply chained_session.
  do 5 (apply chained_bind; [step_solve | intros ?]).
  apply chained_bind; [step_solve | intros visible].
  apply chained_bind; [destruct visible; step_solve | intros ?].
  apply (chained_bind_next 0 StateMenu); [reflexivity | lia | step_solve | | intros ?].
  { intros c. now apply choose_touches. }
  apply (chained_bind_next 1 DistrictMenu); [reflexivity | lia | step_solve | | intros ?].
  { intros c. now apply choose_touches. }
  apply (chained_bind_next 2 ComplexMenu); [reflexivity | lia | step_solve | | intros ?].
  { intros c. now apply choose_touches. }
  apply (chained_bind_next 3 CourtNameMenu); [reflexivity | lia | step_solve | | intros ?].
  { intros c. now apply choose_touches. }
  apply (chained_bind_next 4 DateInput); [reflexivity | lia | step_solve | | intros ?].
  { intros c. now apply fill_touches. }
  apply chained_top.
Qed.

End BeginScrape.

(** ** Selections *)

Lemma at_step_not_submit n : n <> 5 -> forall a, at_step n a -> ~ submits a.
Proof. intros Hn a Ha [H|H]; apply Ha in H; simpl in H; lia. Qed.

Section BeforeSubmit.

Context {A B : Type}.
Variable G : list Event -> Prop.
Hypothesis G_left : forall l0 l, G l -> G (l0 ++ l).
Hypothesis G_right : forall l l1, G l -> G (l ++ l1).

(** Where the call that submits stands in a run of [m ;; k], when [m]
    does not submit. *)
Lemma submit_in_rest (m : M A) (k : A -> M B) c before a reply after :
  only (fun a => ~ submits a) m ->
  events (bind m k c) = before ++ (a, reply) :: after -> submits a ->
  exists x rest,
    result (m c) = Done x /\
    before = events (m c) ++ rest /\
    events (k x (clock (m c))) = rest ++ (a, reply) :: after.
Proof.
  intros Hm E Ha. rewrite events_bind in E.
  apply List.app_eq_app in E as [l [[E1 E2] | [E1 E2]]].
  - destruct l as [|e l].
    + rewrite app_nil_r in E1. simpl in E2.
      destruct (result (m c)) as [x|e]; [|discriminate E2].
      exists x, []. rewrite app_nil_r. now split.
    + injection E2 as <- E2. specialize (Hm c). rewrite E1 in Hm.
      apply Forall_app in Hm as [_ Hm]. inversion_clear Hm as [|? ? Hhere _].
      now destruct Hhere.
  - destruct (result (m c)) as [x|e].
    + exists x, l. now split.
    + now destruct l.
Qed.

(** [m] does not submit; what follows sees to [G]. *)
Lemma before_submit_skip (m : M A) (k : A -> M B) :
  only (fun a => ~ submits a) m -> (forall x, before_submit G (k x)) ->
  before_submit G (bind m k).
Proof using G_left.
  intros Hm Hk c before a reply after E Ha.
  destruct (submit_in_rest m k c before a reply after Hm E Ha) as (x & rest & _ & -> & E').
  apply G_left. eapply Hk; eassumption.
Qed.

(** [m] does not submit, and a run of [m] that returns has seen to [G]. *)
Lemma before_submit_done (m : M A) (k : A -> M B) :
  only (fun a => ~ submits a) m ->
  (forall c x, result (m c) = Done x -> G (events (m c))) ->
  before_submit G (bind m k).
Proof using G_right.
  intros Hm HG c before a reply after E Ha.
  destruct (submit_in_rest m k c before a reply after Hm E Ha) as (x & rest & Hx & -> & _).
  apply G_right. eapply HG. exact Hx.
Qed.

End BeforeSubmit.

Lemma before_submit_session env {A} (G : list Event -> Prop) (body : M A) :
  (forall l0 l, G l -> G (l0 ++ l)) ->
  before_submit G body -> before_submit G (async_with_playwright env body).
Proof.
  intros G_left Hbody. unfold async_with_playwright.
  apply before_submit_skip; [exact G_left | |].
  - apply only_playwright. intros [H|H]; discriminate H.
  - intros _ c before a reply after E Ha.
    specialize (Hbody c). destruct (body c) as [[r c1] d].
    unfold events in *. simpl in *.
    apply List.app_eq_app in E as [l [[E1 E2] | [E1 E2]]].
    + destruct l as [|e l].
      * injection E2 as -> -> ->. destruct Ha as [H|H]; discriminate H.
      * injection E2 as <- E2. eapply Hbody; [exact E1 | exact Ha].
    + destruct l as [|e l].
      * injection E2 as <- <- <-. destruct Ha as [H|H]; discriminate H.
      * injection E2 as _ E2. now destruct l.
Qed.

Lemma tried_left name menu label l0 l :
  tried name menu label l -> tried name menu label (l0 ++ l).
Proof.
  intros [(choice & H1 & H2) | H].
  - left. exists choice. rewrite !List.in_app_iff. auto.
  - right. apply List.in_app_iff. auto.
Qed.

Lemma tried_right name menu label l l1 :
  tried name menu label l -> tried name menu label (l ++ l1).
Proof.
  intros [(choice & H1 & H2) | H].
  - left. exists choice. rewrite !List.in_app_iff. auto.
  - right. apply List.in_app_iff. auto.
Qed.

(** A menu wrapper that returns has selected the entry or reported the
    timeout. *)
Lemma menu_tried env name menu label c :
  result (try_except (choose_option env menu name) is_TimeoutError
            (print (option_not_found name label)) c) = Done () ->
  tried name menu label
    (events (try_except (choose_option env menu name) is_TimeoutError
               (print (option_not_found name label)) c)).
Proof.
  unfold tried, selected, try_except, choose_option, bind, click, select_option,
    get_attribute, playwright, call, print, emit, ret, raise, result, events.
  destruct (env_act env c) as [[]| |]; simpl; try discriminate;
    [|intros _; right; auto].
  destruct (re_compile env name); simpl; [|discriminate].
  destruct (env_attr env (S c)) as [choice| |]; simpl; try discriminate;
    [|intros _; right; auto].
  destruct (env_act env (S (S c))) as [[]| |]; simpl; try discriminate.
  - intros _. left. exists choice. auto.
  - intros _. right. auto 6.
Qed.

Ltac submit_free :=
  lazymatch goal with
  | |- only _ (if ?b then _ else _) => destruct b
  | _ => idtac
  end;
  first
    [ eapply only_mono; [apply (at_step_not_submit 0); lia | step_solve]
    | eapply only_mono; [apply (at_step_not_submit 1); lia | step_solve]
    | eapply only_mono; [apply (at_step_not_submit 2); lia | step_solve]
    | eapply only_mono; [apply (at_step_not_submit 3); lia | step_solve]
    | eapply only_mono; [apply (at_step_not_submit 4); lia | step_solve] ].

(** Walks down the calls of [begin_scrape] to the one that sees to [G]. *)
Ltac submit_walk G_left G_right done :=
  repeat (lazymatch goal with
          | |- before_submit _ (bind _ _) =>
              first
                [ apply before_submit_done; [exact G_right | submit_free | done]
                | apply before_submit_skip; [exact G_left | submit_free | intros ?] ]
          end).

Section Selections.

Variable env : Env.
Variables (self : WebScraper).
Variables (chosen_state chosen_dist chosen_court chosen_court_name chosen_date : string).
Variable case_type : CaseType.

Let run := begin_scrape env self chosen_state chosen_dist chosen_court
             chosen_court_name chosen_date case_type.

Lemma state_before_submit : before_submit (tried chosen_state STATE "State") run.
Proof.
  subst run. unfold begin_scrape.
  apply before_submit_session; [apply tried_left|].
  submit_walk (tried_left chosen_state STATE "State")
    (tried_right chosen_state STATE "State")
    ltac:(intros c []; apply (menu_tried env chosen_state STATE "State")).
Qed.

Lemma district_before_submit : before_submit (tried chosen_dist DIST "District") run.
Proof.
  subst run. unfold begin_scrape.
  apply before_submit_session; [apply tried_left|].
  submit_walk (tried_left chosen_dist DIST "District")
    (tried_right chosen_dist DIST "District")
    ltac:(intros c []; apply (menu_tried env chosen_dist DIST "District")).
Qed.

Lemma complex_before_submit :
  before_submit (tried chosen_court COURT "Court Complex") run.
Proof.
  subst run. unfold begin_scrape.
  apply before_submit_session; [apply tried_left|].
  submit_walk (tried_left chosen_court COURT "Court Complex")
    (tried_right chosen_court COURT "Court Complex")
    ltac:(intros c []; apply (menu_tried env chosen_court COURT "Court Complex")).
Qed.

Lemma name_before_submit :
  before_submit (tried chosen_court_name COURT_NAME "Court Name") run.
Proof.
  subst run. unfold begin_scrape.
  apply before_submit_session; [apply tried_left|].
  submit_walk (tried_left chosen_court_name COURT_NAME "Court Name")
    (tried_right chosen_court_name COURT_NAME "Court Name")
    ltac:(intros c []; apply (menu_tried env chosen_court_name COURT_NAME "Court Name")).
Qed.

Lemma date_before_submit : before_submit (dated chosen_date) run.
Proof.
  assert (forall l0 l, dated chosen_date l -> dated chosen_date (l0 ++ l)) as G_left
    by (intros l0 l H; apply List.in_app_iff; now right).
  assert (forall l l1, dated chosen_date l -> dated chosen_date (l ++ l1)) as G_right
    by (intros l l1 H; apply List.in_app_iff; now left).
  subst run. unfold begin_scrape.
  apply before_submit_session; [exact G_left|].
  submit_walk G_left G_right
    ltac:(intros c []; unfold fill, playwright, call, dated, result, events;
          destruct (env_act env c) as [[]| |]; try discriminate; intros _; now left).
Qed.

End Selections.

(** C3 as stated fails: when the four menus do not answer in time, the
    timeouts are caught and reported, no entry is selected, and the run
    goes on: the date and the CAPTCHA answer are filled in, the case-type
    button is clicked, and [begin_scrape] returns normally. *)
Lemma captcha_filled_although_nothing_selected :
  let run := begin_scrape menus_time_out static_scraper "MH" "Pune" "Court" "1"
               "10-11-2026" Civil 0 in
  result run = Done () /\
  (forall l choice reply, ~ In (SelectOption l choice, reply) (events run)) /\
  In (Fill (Css CAPTCHA_CODE) "x7Kp2", RUnit) (events run) /\
  ~ selected_before_submit_as_stated "MH" "Pune" "Court" "1" "10-11-2026" (events run).
Proof.
  intros run.
  assert (forall l choice reply, ~ In (SelectOption l choice, reply) (events run)) as Hnone.
  { intros l choice reply Hin. vm_compute in Hin.
    repeat (destruct Hin as [Hin|Hin]; [discriminate Hin|]). exact Hin. }
  split; [reflexivity|]. split; [exact Hnone|]. split; [vm_compute; auto 30|].
  intros H.
  destruct (H (take 19 (events run)) (Fill (Css CAPTCHA_CODE) "") RUnit
              (drop 20 (events run)))
    as [(choice & _ & Hin) _]; [reflexivity | left; reflexivity |].
  apply (Hnone (Css STATE) choice RUnit).
  rewrite <- (take_drop 19 (events run)). apply List.in_app_iff. now left.
Qed.

(** C3 (amended): in every run of [begin_scrape] the form is gone through
    in the order of the dependency chain: first the state menu, then the
    district menu, then the court complex menu, then the court name menu,
    then the date, and last the CAPTCHA answer and the case-type button.  A
    run that touches a control has touched every control that comes before
    it in the chain.  When the CAPTCHA answer is filled in or the case-type
    button clicked, each of the four menus was gone through before, in that
    order: its entry was selected, the entry found by the name given, or
    the selection timed out and was reported on standard output, for a
    timeout does not end the run; and the date was filled in. *)
Theorem begin_scrape_follows_dependency_chain
    (env : Env) (self : WebScraper)
    (chosen_state chosen_dist chosen_court chosen_court_name chosen_date : string)
    (case_type : CaseType) (c : nat) :
  let run := begin_scrape env self chosen_state chosen_dist chosen_court
               chosen_court_name chosen_date case_type c in
  let touched := controls (events run) in
  StronglySorted (fun x y => step x <= step y) touched /\
  (forall x y, In x touched -> step y < step x -> In y touched) /\
  (In CaptchaInput touched \/ In CaseTypeButton touched ->
   In StateMenu touched /\ In DistrictMenu touched /\ In ComplexMenu touched /\
   In CourtNameMenu touched /\ In DateInput touched) /\
  (forall before a reply after,
      events run = before ++ (a, reply) :: after -> submits a ->
      tried chosen_state STATE "State" before /\
      tried chosen_dist DIST "District" before /\
      tried chosen_court COURT "Court Complex" before /\
      tried chosen_court_name COURT_NAME "Court Name" before /\
      dated chosen_date before).
Proof.
  intros run touched.
  assert (forall x y, In x touched -> step y < step x -> In y touched) as Hchain.
  { intros x y Hx Hy.
    apply (begin_scrape_chained env self chosen_state chosen_dist chosen_court
             chosen_court_name chosen_date case_type c x y Hx); [lia | exact Hy]. }
  split; [apply begin_scrape_staged|]. split; [exact Hchain|]. split.
  - intros [Hlate|Hlate]; repeat split; apply (Hchain _ _ Hlate); simpl; lia.
  - intros before a reply after E Ha. subst run. repeat split.
    + eapply state_before_submit; eassumption.
    + eapply district_before_submit; eassumption.
    + eapply complex_before_submit; eassumption.
    + eapply name_before_submit; eassumption.
    + eapply date_before_submit; eassumption.
Qed.

(** On a portal that answers every call, the four entries are selected
    before the CAPTCHA answer is filled in. *)
Lemma begin_scrape_follows_dependency_chain_witness :
  let run := begin_scrape empty_list static_scraper "MH" "Pune" "Court" "1"
               "10-11-2026" Civil 0 in
  let before := take 23 (events run) in
  selected "MH" STATE before /\ selected "Pune" DIST before /\
  selected "Court" COURT before /\ selected "1" COURT_NAME before /\
  dated "10-11-2026" before.
Proof.
  intros run before.
  assert (forall name menu label,
             tried name menu label before ->
             ~ In (Print (option_not_found name label), RUnit) before ->
             selected name menu before) as Hselected
    by (intros name menu label [H|H] Hnone; [exact H | now destruct Hnone]).
  destruct (proj2 (proj2 (proj2
              (begin_scrape_follows_dependency_chain empty_list static_scraper
                 "MH" "Pune" "Court" "1" "10-11-2026" Civil 0)))
              before (Fill (Css CAPTCHA_CODE) "") RUnit (drop 24 (events run)))
    as (H1 & H2 & H3 & H4 & H5); [reflexivity | left; reflexivity |].
  repeat split; try exact H5;
    (eapply Hselected; [eassumption|]);
    vm_compute; intros Hin;
    repeat (destruct Hin as [Hin|Hin]; [discriminate Hin|]); exact Hin.
Defined.

(** ** Writes to the file system *)


Section Always.

Context {A B : Type} (P : list Event -> Event -> Prop) (HP : stable P).



Lemma always_mono (P' : list Event -> Event -> Prop) (m : M A) :
(forall l e, P' l e -> P l e) -> always P' m -> always P m.
Proof. intros HP' Hm c l1 e l2 E. apply HP'. eapply Hm. exact E. Qed.

End Always.






Section Quiet.

Variable env : Env.






End Quiet.



Section Writes.

Variable env : Env.
Variable self : WebScraper.
Variables (chosen_state chosen_dist chosen_court chosen_date : string).
Variable case_type : CaseType.



End Writes.

(** ** Where the files lie *)












Section WritesAll.

Variable env : Env.
Variable self : WebScraper.
Variables (chosen_state chosen_dist chosen_court chosen_date : string).
Variable case_type : CaseType.

Let dir := pdf_dir self chosen_state chosen_dist chosen_court.





End WritesAll.

(** ** The claims on [get_pdfs] *)

Lemma yields_app d1 d2 : yields (d1 ++ d2) = yields d1 ++ yields d2.
Proof. apply omap_app. Qed.

Lemma yields_rows cwd dir back records labels :
  length labels <= length records ->
  yields (concat (zip_with (row_events cwd dir back) records labels))
  = map (record_for dir) labels.
Proof.
  revert labels. induction records as [|record records IH]; intros [|label labels] Hlen;
    simpl in Hlen; try reflexivity; try lia.
  cbn [zip_with concat]. rewrite yields_app, IH by lia. reflexivity.
Qed.

Lemma failed_row_yields cwd dir back record e t :
  failed_row cwd dir back record e t -> yields t = [].
Proof.
  intros (label & j & a & r & reply & Hj & Hrow & _ & ->).
  do 7 (destruct j as [|j]; [injection Hrow as <- <-; reflexivity|]).
  lia.
Qed.

Lemma failed_row_not_succeeded cwd dir back record e t :
  failed_row cwd dir back record e t -> ~ Forall succeeded t.
Proof.
  intros (label & j & a & r & reply & Hj & Hrow & Hfail & ->) Hall.
  apply Forall_app in Hall as [_ Hlast].
  inversion_clear Hlast as [|? ? (H1 & H2 & H3 & H4) _].
  destruct Hfail as [[_ ->] | [[_ ->] | [[_ ->] | (message & _ & ->)]]];
    simpl in *; congruence.
Qed.

(** C4 (amended): every export of [get_pdfs] is made right after the CNR
    label on the page was read, and writes the file that [joinpath] names in
    the output directory after the label and the extension [.pdf]; when the
    label has no slash, that file is named [label.pdf] and lies in the
    output directory.  Every record yielded closes a complete pass and
    pairs the label read in that pass with the path of the file the pass
    exported. *)
Theorem get_pdfs_names_files_after_cnr
    (env : Env) (self : WebScraper) (state dist court court_name : string) (c : nat)
    (before : list Event) (e : Event) (after : list Event) :
  events (get_pdfs env self state dist court court_name c) = before ++ e :: after ->
  names_file (cwd env) (pdf_dir self state dist court court_name) before e /\
  pairs_record (cwd env) (pdf_dir self state dist court court_name) (Css BACK) before e.
Proof.
  intros E.
  exact (get_pdfs_exported env self state dist court court_name c before e after E).
Qed.

Lemma get_pdfs_names_files_after_cnr_witness :
  let dir := pdf_dir static_scraper "MH" "Pune" "Court" "1" in
  let before :=
    [ (Sleep 5, RUnit); (All (Css VIEW), RCount 1); (Makedirs dir, RUnit);
      (Click (Nth (Css VIEW) 0), RUnit); (Sleep 5, RUnit);
      (InnerText (First (Css CNR_NUMBER)), RText "MHPU010012342023") ] in
  let e := (Pdf (absolute "/srv/app" (joinpath dir ["MHPU010012342023.pdf"])), RUnit) in
  names_file "/srv/app" dir before e /\ pairs_record "/srv/app" dir (Css BACK) before e.
Proof.
  intros dir before e.
  apply (get_pdfs_names_files_after_cnr (listing "MHPU010012342023" 1) static_scraper
           "MH" "Pune" "Court" "1" 0 before e
           [ (Sleep 5, RUnit); (Click (Css BACK), RUnit);
             (WaitForLoadState "networkidle", RUnit);
             (Yield (record_for dir "MHPU010012342023"), RUnit) ]).
  vm_compute. reflexivity.
Defined.

(** C4 as stated fails: for a CNR label with a slash the exported file is
    not named after the label.  The label /2024/MHPU01 is exported to the
    file /2024/MHPU01.pdf, whose name is MHPU01.pdf and which is not in the
    output directory. *)
Lemma slash_in_cnr_changes_file_name :
  ~ exports_named_as_stated (listing "/2024/MHPU01" 1) static_scraper
      "MH" "Pune" "Court" "1" 0.
Proof.
  intros H.
  pose (dir := pdf_dir static_scraper "MH" "Pune" "Court" "1").
  destruct (H [ (Sleep 5, RUnit); (All (Css VIEW), RCount 1); (Makedirs dir, RUnit);
                (Click (Nth (Css VIEW) 0), RUnit); (Sleep 5, RUnit);
                (InnerText (First (Css CNR_NUMBER)), RText "/2024/MHPU01") ]
              (Pdf (mkPath Slash ["2024"; "MHPU01.pdf"]), RUnit)
              [ (Sleep 5, RUnit); (Click (Css BACK), RUnit);
                (WaitForLoadState "networkidle", RUnit);
                (Yield (record_for dir "/2024/MHPU01"), RUnit) ]) as [Hfile _].
  { vm_compute. reflexivity. }
  destruct (Hfile _ _ eq_refl) as (earlier & label & Hbefore & Hname).
  change (([ (Sleep 5, RUnit); (All (Css VIEW), RCount 1); (Makedirs dir, RUnit);
             (Click (Nth (Css VIEW) 0), RUnit); (Sleep 5, RUnit) ]
           ++ [(InnerText (First (Css CNR_NUMBER)), RText "/2024/MHPU01")])
          = earlier ++ [(InnerText (First (Css CNR_NUMBER)), RText label)]) in Hbefore.
  apply app_inj_tail in Hbefore as [_ [= <-]].
  vm_compute in Hname. discriminate.
Qed.




(** A label with a component [..] climbs out of the output directory:
    the label ../../x is exported to static/MH/Pune/Court/1/../../x.pdf. *)
Example dotdot_in_cnr_leaves_output_directory :
  ~ writes_below "/srv/app"
      (fun x => x = pdf_dir static_scraper "MH" "Pune" "Court" "1")
      (events (get_pdfs (listing "../../x" 1) static_scraper "MH" "Pune" "Court" "1" 0)).
Proof.
  intros H.
  destruct (H (Pdf (mkPath Slash ["srv"; "app"; "static"; "MH"; "Pune"; "Court"; "1";
                                  ".."; ".."; "x.pdf"])) RUnit)
    as (dir & -> & _ & rest & _ & Hparts & Hnone).
  { vm_compute. tauto. }
  vm_compute in Hparts. injection Hparts as <-. apply Hnone. now left.
Qed.

(** A court name that starts with a slash replaces [PATH]: the output
    directory of the court name /tmp/evil is /tmp/evil, outside the tree of
    static, and the file of the label MHPU01 is /tmp/evil/MHPU01.pdf. *)
Example absolute_court_name_leaves_PATH :
  let dir := pdf_dir static_scraper "MH" "Pune" "Court" "/tmp/evil" in
  dir = mkPath Slash ["tmp"; "evil"] /\
  ~ within (of_string (PATH static_scraper)) dir /\
  In (Pdf (mkPath Slash ["tmp"; "evil"; "MHPU01.pdf"]), RUnit)
     (events (get_pdfs (listing "MHPU01" 1) static_scraper "MH" "Pune" "Court"
                "/tmp/evil" 0)).
Proof.
  split; [reflexivity|]. split; [intros [H _]; discriminate H|].
  vm_compute. tauto.
Qed.

(** C10: when the page lists no result row, [get_pdfs] pauses, asks for the
    rows and returns: no directory is created, no file written and no
    record yielded.  Whenever a directory is created, it is the output
    directory and the page listed at least one row. *)
Theorem get_pdfs_without_rows
    (env : Env) (self : WebScraper) (state dist court court_name : string) (c : nat) :
  (env_count env c = PwOk 0 ->
   get_pdfs env self state dist court court_name c
   = (Done (), S c, [(Sleep 5, RUnit); (All (Css VIEW), RCount 0)])) /\
  (forall d reply,
      In (Makedirs d, reply) (events (get_pdfs env self state dist court court_name c)) ->
      d = pdf_dir self state dist court court_name /\
      exists rows, env_count env c = PwOk (S rows)).
Proof.
  split.
  - intros Hrows.
    unfold get_pdfs, all, sleep, emit. unfold bind, call, ret, try_except.
    rewrite Hrows. reflexivity.
  - intros d reply Hin. split.
    + pose proof (get_pdfs_makedirs env self state dist court court_name c) as Honly.
      rewrite Forall_forall in Honly.
      apply (Honly (Makedirs d, reply)); [|reflexivity].
      apply list_elem_of_In. exact Hin.
    + destruct (get_pdfs_run env self state dist court court_name c) as (body & Hev & Hbody).
      rewrite Hev in Hin.
      destruct (env_count env c) as [[|n]| |]; [| eauto | |];
        destruct Hbody as [-> _]; simpl in Hin;
        repeat (destruct Hin as [[=]|Hin]); destruct Hin.
Qed.

Lemma get_pdfs_without_rows_witness :
  get_pdfs (listing "MHPU010012342023" 0) static_scraper "MH" "Pune" "Court" "1" 0
  = (Done (), 1, [(Sleep 5, RUnit); (All (Css VIEW), RCount 0)]).
Proof.
  apply (get_pdfs_without_rows (listing "MHPU010012342023" 0) static_scraper
           "MH" "Pune" "Court" "1" 0).
  reflexivity.
Defined.

(** C5: [get_pdfs] is a loop over the result rows in page order.  When the
    page lists [rows] rows, the run is a setup (the pause, the listing and
    the creation of the directory), then one complete pass per row for the
    first rows, each clicking the row, exporting one PDF, going back and
    yielding one record, then at most the remains of one pass that failed.
    The records yielded are exactly those of the complete passes, in row
    order; and when no call of the run failed, every row got its pass. *)
Theorem get_pdfs_one_record_per_row
    (env : Env) (self : WebScraper) (state dist court court_name : string) (c rows : nat) :
  let run := get_pdfs env self state dist court court_name c in
  let dir := pdf_dir self state dist court court_name in
  let records := map (Nth (Css VIEW)) (seq 0 rows) in
  env_count env c = PwOk rows ->
  exists labels setup rest,
    events run
    = setup ++ concat (zip_with (row_events (cwd env) dir (Css BACK)) records labels)
      ++ rest /\
    length labels <= rows /\
    yields (events run) = map (record_for dir) labels /\
    (Forall succeeded (events run) -> length labels = rows) /\
    (forall x, In x setup -> x.1 = Sleep 5 \/ x.1 = All (Css VIEW) \/ x.1 = Makedirs dir) /\
    (rest = [] \/
     exists record e t,
       records !! length labels = Some record /\
       failed_row (cwd env) dir (Css BACK) record e t /\
       (rest = t \/
        rest = t ++ [(Print (download_failed state dist court court_name), RUnit)])).
Proof.
  intros run dir records Hrows.
  destruct (get_pdfs_run env self state dist court court_name c) as (body & Hev & Hbody).
  fold run in Hev. fold dir in Hbody. rewrite Hrows in Hbody. rewrite Hev. clear Hev.
  destruct rows as [|n].
  - destruct Hbody as [-> _].
    exists [], [(Sleep 5, RUnit); (All (Css VIEW), RCount 0)], [].
    repeat split; auto.
    intros x [<-|[<-|[]]]; simpl; auto.
  - destruct (env_makedirs env (S c)) as [| |message].
    + destruct Hbody as (labels & tail & -> & Hlen & Htail). fold records.
      exists labels,
        [(Sleep 5, RUnit); (All (Css VIEW), RCount (S n)); (Makedirs dir, RUnit)], tail.
      assert (length labels <= length records) as Hlen'
        by (subst records; now rewrite List.length_map, List.length_seq).
      split; [reflexivity|]. split; [exact Hlen|].
      destruct Htail as [(Hall & -> & _) | (record & e & t & Hrecord & Hfail & Hend)].
      * rewrite app_nil_r. split; [|repeat split; auto].
        -- change (yields ([(Sleep 5, RUnit); (All (Css VIEW), RCount (S n));
                           (Makedirs dir, RUnit)]
                          ++ concat (zip_with (row_events (cwd env) dir (Css BACK))
                                       records labels))
                   = map (record_for dir) labels).
           rewrite yields_app, yields_rows by exact Hlen'. reflexivity.
        -- intros x [<-|[<-|[<-|[]]]]; simpl; auto.
      * assert (yields tail = [] /\ ~ Forall succeeded tail) as [Hyields Hfailed].
        { pose proof (failed_row_yields _ _ _ _ _ _ Hfail) as Hy.
          pose proof (failed_row_not_succeeded _ _ _ _ _ _ Hfail) as Hn.
          destruct Hend as [(_ & _ & ->) | (_ & _ & ->)].
          - rewrite yields_app, Hy. split; [reflexivity|].
            intros [Ht _]%Forall_app. auto.
          - auto. }
        split; [|split; [|split]].
        -- change (yields ([(Sleep 5, RUnit); (All (Css VIEW), RCount (S n));
                           (Makedirs dir, RUnit)]
                          ++ concat (zip_with (row_events (cwd env) dir (Css BACK))
                                       records labels) ++ tail)
                   = map (record_for dir) labels).
           rewrite !yields_app, yields_rows, Hyields by exact Hlen'.
           now rewrite app_nil_r.
        -- intros Hall. exfalso. apply Hfailed.
           change (Forall succeeded
                     ([(Sleep 5, RUnit); (All (Css VIEW), RCount (S n));
                       (Makedirs dir, RUnit)]
                      ++ concat (zip_with (row_events (cwd env) dir (Css BACK))
                                   records labels) ++ tail)) in Hall.
           apply Forall_app in Hall as [_ Hall]. now apply Forall_app in Hall as [_ Hall].
        -- intros x [<-|[<-|[<-|[]]]]; simpl; auto.
        -- right. exists record, e, t. split; [exact Hrecord|]. split; [exact Hfail|].
           destruct Hend as [(_ & _ & ->) | (_ & _ & ->)]; auto.
    + destruct Hbody as [-> _].
      exists [],
        [(Sleep 5, RUnit); (All (Css VIEW), RCount (S n)); (Makedirs dir, ROSError)], [].
      split; [reflexivity|]. split; [simpl; lia|]. split; [reflexivity|].
      split; [|split; [|now left]].
      * intros Hall. exfalso.
        inversion_clear Hall as [|? ? _ Hall'].
        inversion_clear Hall' as [|? ? _ Hall].
        inversion_clear Hall as [|? ? (_ & _ & H & _) _]. now apply H.
      * intros x [<-|[<-|[<-|[]]]]; simpl; auto.
    + destruct Hbody as [-> _].
      exists [],
        [(Sleep 5, RUnit); (All (Css VIEW), RCount (S n)); (Makedirs dir, RValueError)], [].
      split; [reflexivity|]. split; [simpl; lia|]. split; [reflexivity|].
      split; [|split; [|now left]].
      * intros Hall. exfalso.
        inversion_clear Hall as [|? ? _ Hall'].
        inversion_clear Hall' as [|? ? _ Hall].
        inversion_clear Hall as [|? ? (_ & _ & _ & H) _]. now apply H.
      * intros x [<-|[<-|[<-|[]]]]; simpl; auto.
Qed.

Lemma get_pdfs_one_record_per_row_witness :
  let env := listing "MHPU010012342023" 3 in
  let dir := pdf_dir static_scraper "MH" "Pune" "Court" "1" in
  let run := get_pdfs env static_scraper "MH" "Pune" "Court" "1" 0 in
  exists labels setup rest,
    events run
    = setup ++ concat (zip_with (row_events "/srv/app" dir (Css BACK))
                         (map (Nth (Css VIEW)) (seq 0 3)) labels) ++ rest /\
    length labels <= 3 /\
    yields (events run) = map (record_for dir) labels /\
    (Forall succeeded (events run) -> length labels = 3) /\
    (forall x, In x setup -> x.1 = Sleep 5 \/ x.1 = All (Css VIEW) \/ x.1 = Makedirs dir) /\
    (rest = [] \/
     exists record e t,
       map (Nth (Css VIEW)) (seq 0 3) !! length labels = Some record /\
       failed_row "/srv/app" dir (Css BACK) record e t /\
       (rest = t \/
        rest = t ++ [(Print (download_failed "MH" "Pune" "Court" "1"), RUnit)])).
Proof.
  intros env dir run.
  apply (get_pdfs_one_record_per_row env static_scraper "MH" "Pune" "Court" "1" 0 3).
  reflexivity.
Defined.

(** ** The two entry points *)

Example begin_scrape_two_rows :
  let run := begin_scrape two_rows static_scraper "MH" "Pune" "Court" "1"
               "10-11-2026" Civil 0 in
  result run = Done () /\
  yields (events run)
  = [ {| cnr := "MHPU010012342023";
         path := "static/MH/Pune/Court/1/MHPU010012342023.pdf" |};
      {| cnr := "MHPU010045672023";
         path := "static/MH/Pune/Court/1/MHPU010045672023.pdf" |} ].
Proof. vm_compute. split; reflexivity. Qed.

Lemma bind_assoc {A B C} (m : M A) (f : A -> M B) (g : B -> M C) c :
  bind (bind m f) g c = bind m (fun x => bind (f x) g) c.
Proof.
  unfold bind. destruct (m c) as [[[a|e] c1] d1]; [|reflexivity].
  destruct (f a c1) as [[[b|e] c2] d2]; [|reflexivity].
  destruct (g b c2) as [[r c3] d3]. now rewrite app_assoc.
Qed.

Lemma bind_ext {A B} (m : M A) (k1 k2 : A -> M B) c :
  (forall a c', k1 a c' = k2 a c') -> bind m k1 c = bind m k2 c.
Proof.
  intros Hk. unfold bind. destruct (m c) as [[[a|e] c1] d1]; [|reflexivity].
  now rewrite Hk.
Qed.

Lemma bind_ret_l {B} (m : M B) c : bind (ret ()) (fun _ => m) c = m c.
Proof. unfold bind, ret. now destruct (m c) as [[r c1] d1]. Qed.

Lemma for_each_ext {A} (xs : list A) (f g : A -> M unit) c :
  (forall x c', f x c' = g x c') -> for_each xs f c = for_each xs g c.
Proof.
  intros Hfg. revert c. induction xs as [|x xs IH]; intros c; [reflexivity|].
  simpl. unfold bind. rewrite Hfg. destruct (g x c) as [[[[]|e] c1] d1]; [|reflexivity].
  now rewrite IH.
Qed.

Lemma session_ext env {A} (b1 b2 : M A) c :
  (forall c', b1 c' = b2 c') ->
  async_with_playwright env b1 c = async_with_playwright env b2 c.
Proof.
  intros Hb. unfold async_with_playwright. apply bind_ext. intros _ c'. now rewrite Hb.
Qed.

Ltac same_steps :=
  repeat (rewrite ?bind_assoc; apply bind_ext; intros ? ?);
  rewrite ?bind_assoc, ?bind_ret_l; try reflexivity.

Section EntryPointsAgree.

Variable env : Env.
Variable self : WebScraper.
Variables (chosen_state chosen_dist chosen_court chosen_date : string).
Variable case_type : CaseType.

Lemma begin_scrape_as_specified chosen_court_name c :
  begin_scrape env self chosen_state chosen_dist chosen_court chosen_court_name
    chosen_date case_type c
  = begin_scrape_spec env self chosen_state chosen_dist chosen_court chosen_date
      case_type chosen_court_name c.
Proof.
  unfold begin_scrape, begin_scrape_spec. apply session_ext. intros c'.
  unfold open_and_select, dismiss_modal, court_steps. symmetry. same_steps.
Qed.

Lemma begin_scrape_all_as_specified c :
  begin_scrape_all env self chosen_state chosen_dist chosen_court chosen_date case_type c
  = begin_scrape_all_spec env self chosen_state chosen_dist chosen_court chosen_date
      case_type c.
Proof.
  unfold begin_scrape_all, begin_scrape_all_spec. apply session_ext. intros c'.
  unfold open_and_select, dismiss_modal. symmetry. same_steps.
  apply for_each_ext. intros name c''. unfold court_steps. same_steps.
Qed.

End EntryPointsAgree.

Section Pause.

Variable env : Env.

Lemma differ_by_pause_bind {A} (m : M A) (k1 k2 : A -> M unit) c :
  (forall a c', differ_by_pause (k1 a c') (k2 a c')) ->
  differ_by_pause (bind m k1 c) (bind m k2 c).
Proof.
  intros Hk. unfold differ_by_pause.
  rewrite !result_bind, !clock_bind, !events_bind.
  destruct (result (m c)) as [a|e].
  - destruct (Hk a (clock (m c))) as (Hr & Hc & d1 & d2 & E2 & E1).
    split; [exact Hr|]. split; [exact Hc|].
    exists (events (m c) ++ d1), d2. rewrite E2. split; [now rewrite app_assoc|].
    destruct E1 as [-> | [-> ->]]; [left | right]; now rewrite ?app_assoc, ?app_nil_r.
  - split; [reflexivity|]. split; [reflexivity|].
    exists (events (m c)), []. split; [reflexivity|]. right. now rewrite app_nil_r.
Qed.

Lemma differ_by_pause_here (m : M unit) c :
  differ_by_pause (bind (sleep 3) (fun _ => m) c) (bind (ret ()) (fun _ => m) c).
Proof.
  unfold differ_by_pause, bind, sleep, emit, ret, result, clock, events.
  destruct (m c) as [[r c1] d1]. simpl.
  split; [reflexivity|]. split; [reflexivity|].
  exists [], d1. split; [reflexivity|]. now left.
Qed.

(** The pause of [begin_scrape_all] is all that tells its work for a
    court from that of [begin_scrape]. *)
Lemma court_steps_differ_by_pause self state dist court date case_type name c :
  differ_by_pause
    (court_steps env self state dist court date case_type (sleep 3) name c)
    (court_steps env self state dist court date case_type (ret ()) name c).
Proof.
  unfold court_steps.
  do 7 (apply differ_by_pause_bind; intros ? ?).
  apply differ_by_pause_here.
Qed.

(** [get_all_options] returns the texts of the enabled entries, in menu
    order. *)
Lemma collect_options_enabled l i entries loc c :
  menu_answers env c entries ->
  result (collect_options env (map (Nth l) (seq i (length entries))) loc c)
  = Done (loc ++ enabled_entries entries).
Proof.
  revert i loc c. induction entries as [|[[value text] disabled] entries IH];
    intros i loc c Hanswers; simpl.
  - unfold ret, result. simpl. now rewrite app_nil_r.
  - destruct Hanswers as (Hvalue & Htext & Hdisabled & Hrest).
    unfold bind at 1, get_attribute at 1, call. rewrite Hvalue.
    unfold bind at 1, inner_text at 1, call. rewrite Htext.
    unfold bind at 1, get_attribute at 1, call. rewrite Hdisabled.
    specialize (IH (S i)
                  (if negb (String.eqb (default "" value) "") && is_None disabled
                   then loc ++ [text] else loc)
                  (S (S (S c))) Hrest).
    destruct (collect_options _ _ _ _) as [[r c2] d2].
    unfold result in *. simpl in *. rewrite IH.
    destruct (negb (String.eqb (default "" value) "") && is_None disabled);
      simpl; now rewrite <- ?app_assoc.
Qed.

Lemma get_all_options_enabled node entries c :
  env_count env c = PwOk (length entries) ->
  menu_answers env (S c) entries ->
  result (get_all_options env node c) = Done (enabled_entries entries).
Proof.
  intros Hcount Hanswers.
  pose proof (collect_options_enabled (Css (node +:+ " option")) 0 entries []
                (S c) Hanswers) as H.
  unfold get_all_options, sleep, emit, all. unfold bind, call, ret.
  rewrite Hcount. unfold result in *.
  destruct (collect_options env _ [] (S c)) as [[r c2] d2]. exact H.
Qed.

End Pause.

(** A loop is the sequence of its rounds, in the order of the list. *)
Lemma for_each_rounds {A} (body : A -> M unit) (xs : list A) c :
  events (for_each xs body c) = concat (map snd (rounds body xs c)) /\
  map fst (rounds body xs c) `prefix_of` xs /\
  (result (for_each xs body c) = Done () -> map fst (rounds body xs c) = xs).
Proof.
  revert c. induction xs as [|x xs IH]; intros c.
  - repeat split. apply prefix_nil.
  - simpl for_each. rewrite events_bind, result_bind. simpl rounds.
    destruct (result (body x c)) as [[]|e]; simpl.
    + destruct (IH (clock (body x c))) as (-> & Hprefix & Hdone).
      split; [reflexivity|]. split; [now apply prefix_cons|].
      intros Hresult. now rewrite (Hdone Hresult).
    + rewrite app_nil_r. split; [reflexivity|].
      split; [apply prefix_cons, prefix_nil | discriminate].
Qed.

(** C7: [begin_scrape_all] is [begin_scrape] with a loop over the court
    names.  Both open the portal and select state, district and court
    complex once, by the same calls.  [begin_scrape] then does the work for
    the chosen court name; [begin_scrape_all] reads the court name menu and
    does that work for each entry in turn, after closing the error modal if
    it shows.  The work for a court is the same in both but for a pause of
    three seconds before the export.  The entries visited are the enabled
    ones, in menu order; and the loop runs its rounds one after the other,
    in that order, so the records come court by court. *)
Theorem begin_scrape_all_extends_begin_scrape
    (env : Env) (self : WebScraper)
    (chosen_state chosen_dist chosen_court chosen_date : string) (case_type : CaseType) :
  let work := court_steps env self chosen_state chosen_dist chosen_court chosen_date
                case_type in
  let round := fun name => dismiss_modal env;; work (sleep 3) name in
  (forall chosen_court_name c,
      begin_scrape env self chosen_state chosen_dist chosen_court chosen_court_name
        chosen_date case_type c
      = begin_scrape_spec env self chosen_state chosen_dist chosen_court chosen_date
          case_type chosen_court_name c) /\
  (forall c,
      begin_scrape_all env self chosen_state chosen_dist chosen_court chosen_date
        case_type c
      = begin_scrape_all_spec env self chosen_state chosen_dist chosen_court chosen_date
          case_type c) /\
  (forall name c, differ_by_pause (work (sleep 3) name c) (work (ret ()) name c)) /\
  (forall entries c,
      env_count env c = PwOk (length entries) ->
      menu_answers env (S c) entries ->
      result (get_all_options env COURT_NAME c) = Done (enabled_entries entries)) /\
  (forall names c,
      events (for_each names round c) = concat (map snd (rounds round names c)) /\
      map fst (rounds round names c) `prefix_of` names /\
      (result (for_each names round c) = Done () ->
       map fst (rounds round names c) = names)).
Proof.
  intros work round. split; [|split; [|split; [|split]]].
  - intros name c. apply begin_scrape_as_specified.
  - intros c. apply begin_scrape_all_as_specified.
  - intros name c. apply court_steps_differ_by_pause.
  - intros entries c. apply get_all_options_enabled.
  - intros names c. apply for_each_rounds.
Qed.

Lemma begin_scrape_all_extends_begin_scrape_witness :
  result (get_all_options court_menu COURT_NAME 0)
  = Done ["1-Principal District Judge"; "3-Civil Judge"].
Proof.
  apply (proj1 (proj2 (proj2 (proj2
           (begin_scrape_all_extends_begin_scrape court_menu static_scraper
              "MH" "Pune" "Court" "10-11-2026" Civil))))
           [ (Some "1", "1-Principal District Judge", None);
             (Some "2", "2-District Judge", Some "");
             (Some "3", "3-Civil Judge", None) ] 0).
  - reflexivity.
  - vm_compute. tauto.
Defined.

(** ** The connection manager *)

Lemma reachable_keyed s : reachable s -> keyed s.
Proof.
  induction 1 as [|accepted websocket s _ IH|closed websocket s _ IH
                 |answer idx message s _ IH].
  - intros idx websocket. unfold manager. simpl. now rewrite lookup_empty.
  - unfold connect.
    destruct (cookies websocket !! AUTH) as [idx|] eqn:Hcookie; [|exact IH].
    destruct accepted; try exact IH.
    intros idx' websocket'. simpl.
    destruct (decide (idx = idx')) as [<-|Hne].
    + rewrite lookup_insert_eq. now intros [= <-].
    + rewrite lookup_insert_ne by exact Hne. apply IH.
  - unfold disconnect.
    destruct (cookies websocket !! AUTH) as [idx|] eqn:Hcookie; [|exact IH].
    destruct (active_connections s !! idx); [|exact IH].
    assert (keyed (popped idx s)) as Hpopped.
    { intros idx' websocket'. simpl. intros Hlookup.
      apply lookup_delete_Some in Hlookup as [_ Hlookup]. now apply IH. }
    destruct closed; exact Hpopped.
  - unfold broadcast. destruct (active_connections s !! idx); [|exact IH].
    destruct answer; exact IH.
Qed.

(** C9: in every state the manager can be in, [broadcast] leaves the
    registry of connections as it is; sends nothing and raises nothing when
    the id is not registered; sends at most the given message, and only to
    the connection registered under the given id; and nothing goes out to a
    connection registered under another id. *)
Theorem broadcast_reaches_only_the_given_id
    (s : Server) (answer : SocketAnswer) (idx : string) (message : Message) :
  reachable s ->
  let after := broadcast answer idx message s in
  active_connections after.2 = active_connections s /\
  (active_connections s !! idx = None ->
   after.1 = None /\ delivered after.2 = delivered s) /\
  (delivered after.2 = delivered s \/
   exists websocket,
     active_connections s !! idx = Some websocket /\
     delivered after.2 = delivered s ++ [(websocket, message)]) /\
  (forall idx' websocket',
      idx' <> idx -> active_connections s !! idx' = Some websocket' ->
      inbox after.2 websocket' = inbox s websocket').
Proof.
  intros Hreachable after. apply reachable_keyed in Hreachable.
  subst after. unfold broadcast.
  destruct (active_connections s !! idx) as [websocket|] eqn:Hidx;
    [|simpl; auto 6].
  destruct answer; simpl; (split; [reflexivity|]); (split; [discriminate|]).
  - split; [right; eauto|].
    intros idx' websocket' Hne Hidx'. unfold inbox. simpl.
    rewrite filter_app, filter_cons_False, filter_nil, app_nil_r; [reflexivity|].
    simpl. intros <-.
    apply Hreachable in Hidx. apply Hreachable in Hidx'. congruence.
  - auto.
  - auto.
Qed.

Lemma broadcast_reaches_only_the_given_id_witness :
  let after := broadcast SocketOk "17" {[ "cnr" := "MHPU010012342023" ]} two_clients in
  active_connections after.2 = active_connections two_clients /\
  (active_connections two_clients !! "17" = None ->
   after.1 = None /\ delivered after.2 = delivered two_clients) /\
  (delivered after.2 = delivered two_clients \/
   exists websocket,
     active_connections two_clients !! "17" = Some websocket /\
     delivered after.2
     = delivered two_clients ++ [(websocket, {[ "cnr" := "MHPU010012342023" ]})]) /\
  (forall idx' websocket',
      idx' <> "17" -> active_connections two_clients !! idx' = Some websocket' ->
      inbox after.2 websocket' = inbox two_clients websocket').
Proof.
  apply (broadcast_reaches_only_the_given_id two_clients SocketOk "17"
           {[ "cnr" := "MHPU010012342023" ]}).
  unfold two_clients. repeat apply reachable_connect. apply reachable_manager.
Defined.

(** * More on the page helpers *)

(** ** [split] and [join] *)

Lemma split_field sep a b :
  lacks sep a = true -> split sep (a +:+ String sep b) = a :: split sep b.
Proof.
  induction a as [|ch a IH]; simpl.
  - intros _. now rewrite Ascii.eqb_refl.
  - intros [Hch Ha]%andb_prop. apply negb_true_iff in Hch. rewrite Hch.
    now rewrite (IH Ha).
Qed.

Lemma split_join sep fields :
  Forall (fun f => lacks sep f = true) fields -> fields <> [] ->
  split sep (join (String sep "") fields) = fields.
Proof.
  induction 1 as [|f fields Hf Hfields IH]; intros Hne; [congruence|].
  destruct fields as [|g fields]; simpl.
  - now apply split_lacks.
  - change (split sep (f +:+ String sep (join (String sep "") (g :: fields)))
            = f :: g :: fields).
    rewrite split_field by exact Hf. now rewrite IH.
Qed.

(** X1: [download_image] decodes what stands between the first and the
    second comma of the data URL the page returns; what stands before the
    first comma plays no part.  The bytes decoded are returned, and a text
    that is not base64 raises the error of [b64decode]. *)
Theorem download_image_decodes_second_field
    (env : Env) (c : nat) (media payload : string) (more : list string) :
  let url := join "," (media :: payload :: more) in
  lacks "," media = true -> lacks "," payload = true ->
  Forall (fun f => lacks "," f = true) more ->
  env_text env c = PwOk url ->
  download_image env c
  = (match b64decode env payload with
     | Some byte => Done byte
     | None => Raise BinasciiError
     end, S c, [(Evaluate IMG_TO_CANVAS_JS, RText url)]).
Proof.
  intros url Hmedia Hpayload Hmore Hurl.
  assert (split "," url !! 1 = Some payload) as Hsplit.
  { subst url. rewrite split_join; [reflexivity | | discriminate].
    repeat constructor; assumption. }
  unfold download_image, bind, evaluate, call. rewrite Hurl, Hsplit.
  destruct (b64decode env payload); reflexivity.
Qed.

Lemma download_image_decodes_second_field_witness :
  download_image empty_list 0
  = (Done "iVBORw0KGgo=", 1, [(Evaluate IMG_TO_CANVAS_JS, RText data_url)]).
Proof.
  apply (download_image_decodes_second_field empty_list 0
           "data:image/png;base64" "iVBORw0KGgo=" []);
    first [reflexivity | constructor].
Defined.

(** X2: when the data URL the page returns has no comma, there is no second
    field: [solve_captcha] ends with [IndexError] right after the one call
    to the page.  Its [except] clause does not catch that error, and
    nothing is printed. *)
Theorem solve_captcha_url_without_comma (env : Env) (c : nat) (url : string) :
  lacks "," url = true ->
  env_text env c = PwOk url ->
  solve_captcha env c = (Raise IndexError, S c, [(Evaluate IMG_TO_CANVAS_JS, RText url)]).
Proof.
  intros Hurl Htext.
  unfold solve_captcha, try_except, download_image, bind, evaluate, call.
  rewrite Htext, (split_lacks "," url Hurl). reflexivity.
Qed.

Lemma solve_captcha_url_without_comma_witness :
  solve_captcha (portal (fun _ => false) "about:blank" 0 PilImage) 0
  = (Raise IndexError, 1, [(Evaluate IMG_TO_CANVAS_JS, RText "about:blank")]).
Proof.
  apply (solve_captcha_url_without_comma
           (portal (fun _ => false) "about:blank" 0 PilImage) 0 "about:blank");
    reflexivity.
Defined.

(** ** Runs that are known call by call *)

(** [E : d = before ++ e :: after] for a run [d] given call by call: one
    case per place of [e] in [d]. *)
Ltac split_event E before :=
  destruct before as [|? before]; simpl in E;
  [ try discriminate E
  | first [ discriminate E | injection E as ? E; subst; split_event E before ] ].

(** [H : In e d] for a run [d] given call by call. *)
Ltac in_run H :=
  simpl in H; repeat (destruct H as [H|H]; [try discriminate H|]); try contradiction.

Ltac timed_out_run :=
  unfold timed_out; rewrite ?Exists_cons, ?Exists_nil; simpl.

Ltac no_timeout H :=
  unfold timed_out in H; rewrite ?Exists_cons, ?Exists_nil in H; simpl in H;
  intuition discriminate.

(** ** Menus *)

(** X3: [choose_option] selects the entry whose [value] attribute it has
    just read.  A run that returns made exactly three calls: the click on
    the menu, the read of the attribute of the entry found by its text, and
    the selection of that value ([None] when the entry has no such
    attribute).  No selection is ever made but as the third call, after the
    two others went well. *)
Theorem choose_option_selects_value_read (env : Env) (parent name : string) (c : nat) :
  let run := choose_option env parent name c in
  let option := ByText (Css (parent +:+ " option")) name in
  (result run = Done () ->
   exists v,
     events run = [ (Click (Css parent), RUnit);
                    (GetAttribute option "value", RAttr v);
                    (SelectOption (Css parent) v, RUnit) ]) /\
  (forall before l choice reply after,
      events run = before ++ (SelectOption l choice, reply) :: after ->
      l = Css parent /\ after = [] /\
      before = [ (Click (Css parent), RUnit);
                 (GetAttribute option "value", RAttr choice) ]).
Proof.
  intros run option. subst run option.
  unfold choose_option, bind, click, select_option, get_attribute, playwright, call,
    ret, raise, result, events.
  destruct (env_act env c) as [[]| |]; simpl;
    destruct (re_compile env name); simpl;
    destruct (env_attr env (S c)) as [v| |]; simpl;
    try destruct (env_act env (S (S c))) as [[]| |]; simpl.
  all: split; [first [discriminate | intros _; eexists; reflexivity] |].
  all: intros before l choice reply after E; split_event E before.
  all: try (injection E as <- <- <- <-; auto).
Qed.

(** The [try] around [choose_option], with its handler. *)
Lemma menu_wrapper_run (env : Env) (parent name line : string) :
  catches_timeouts line
    (try_except (choose_option env parent name) is_TimeoutError (print line)) /\
  forall c l choice,
    In (SelectOption l choice, RUnit)
       (events (try_except (choose_option env parent name) is_TimeoutError
                  (print line) c)) ->
    ~ timed_out (events (try_except (choose_option env parent name) is_TimeoutError
                           (print line) c)).
Proof.
  split; [intros c|intros c l choice].
  all: unfold try_except, choose_option, bind, click, select_option, get_attribute,
         playwright, call, ret, raise, print, emit, result, events.
  all: destruct (env_act env c) as [[]| |]; simpl;
    destruct (re_compile env name); simpl;
    destruct (env_attr env (S c)) as [v| |]; simpl;
    try destruct (env_act env (S (S c))) as [[]| |]; simpl.
  all: try (split; [discriminate|]; split;
            [ first [ intros H; now no_timeout H | intros _; split; reflexivity ]
            | intros l reply H; in_run H;
              try (injection H as <- <-; split; [reflexivity | timed_out_run; auto 6]) ]).
  all: intros H; in_run H; intros H'; no_timeout H'.
Qed.

(** X4: the four menu wrappers catch the timeouts of [choose_option].  None
    of them ever ends with [TimeoutError]; when a call timed out, the
    wrapper prints its line, naming the entry and the menu, as its last
    call and returns; it prints nothing otherwise; and a run in which an
    entry was selected had no timeout. *)
Theorem menu_wrappers_catch_timeouts (env : Env) (name : string) :
  let guarded := fun (menu : string) (m : M unit) =>
    catches_timeouts (option_not_found name menu) m /\
    forall c l choice,
      In (SelectOption l choice, RUnit) (events (m c)) -> ~ timed_out (events (m c)) in
  guarded "State" (choose_state env name) /\
  guarded "District" (choose_district env name) /\
  guarded "Court Complex" (choose_complex env name) /\
  guarded "Court Name" (choose_name env name).
Proof.
  intros guarded. subst guarded. cbv beta.
  split; [|split; [|split]].
  - apply (menu_wrapper_run env STATE name (option_not_found name "State")).
  - apply (menu_wrapper_run env DIST name (option_not_found name "District")).
  - apply (menu_wrapper_run env COURT name (option_not_found name "Court Complex")).
  - apply (menu_wrapper_run env COURT_NAME name (option_not_found name "Court Name")).
Qed.

(** ** Inputs *)

(** X5: [fill_value] empties the input before it types.  It never ends
    with [TimeoutError]: a timeout is answered by one printed line and a
    normal return.  Its first call empties the input; the value is typed
    only as the second call, after the first went well; and a run that
    returned without a timeout made exactly these two calls. *)
Theorem fill_value_clears_then_types (env : Env) (node value : string) :
  catches_timeouts "[ERROR]: Failed to fill input" (fill_value env node value) /\
  forall c,
    let run := fill_value env node value c in
    (exists reply, head (events run) = Some (Fill (Css node) "", reply)) /\
    (forall before text reply after,
        events run = before ++ (Fill (Css node) text, reply) :: after ->
        (before = [] /\ text = "") \/
        (before = [(Fill (Css node) "", RUnit)] /\ text = value)) /\
    (result run = Done () -> ~ timed_out (events run) ->
     events run = [(Fill (Css node) "", RUnit); (Fill (Css node) value, RUnit)]).
Proof.
  split; intros c; [|intros run; subst run].
  all: unfold fill_value, try_except, bind, fill, playwright, call, print, emit,
         result, events.
  all: destruct (env_act env c) as [[]| |]; simpl;
    try destruct (env_act env (S c)) as [[]| |]; simpl.
  all: try (split; [discriminate|]; split;
            [ first [ intros H; now no_timeout H | intros _; split; reflexivity ]
            | intros l reply H; in_run H;
              try (injection H as <- <-; split; [reflexivity | timed_out_run; auto 6]) ]).
  all: split; [eexists; reflexivity|]; split.
  all: try (intros before text reply after E; split_event E before;
            injection E as <- <- <-; auto).
  all: first [ discriminate | solve [auto]
             | solve [intros _ H; exfalso; apply H; timed_out_run; auto 6] ].
Qed.

(** ** Timeouts that nothing catches *)

Lemma timed_out_app d1 d2 : timed_out (d1 ++ d2) <-> timed_out d1 \/ timed_out d2.
Proof. apply Exists_app. Qed.

Lemma timed_out_nil : ~ timed_out [].
Proof. intros H. inversion H. Qed.

Section Uncaught.

Context {A B : Type}.

Lemma uncaught_ret (a : A) : uncaught (ret a).
Proof. intros c. split; [intros H; now apply timed_out_nil in H | discriminate]. Qed.

Lemma uncaught_raise (e : exn) : e <> TimeoutError -> uncaught (@raise A e).
Proof.
  intros He c. split; [intros H; now apply timed_out_nil in H|].
  unfold raise, result. simpl. congruence.
Qed.

Lemma uncaught_emit (a : Action) : uncaught (emit a).
Proof.
  intros c. unfold emit, result, events. simpl.
  split; [intros H; no_timeout H | discriminate].
Qed.

Lemma uncaught_call (a : Action) (answer : nat -> pw A) (show : A -> Reply) :
  (forall x, show x <> RTimeout) -> uncaught (fun c => call a (answer c) show c).
Proof.
  intros Hshow c. unfold call, result, events.
  destruct (answer c) as [x| |]; simpl; timed_out_run.
  - specialize (Hshow x). intuition discriminate.
  - intuition.
  - intuition discriminate.
Qed.

Lemma uncaught_bind (m : M A) (k : A -> M B) :
  uncaught m -> (forall a, uncaught (k a)) -> uncaught (bind m k).
Proof.
  intros Hm Hk c. rewrite events_bind, result_bind, timed_out_app.
  specialize (Hm c). destruct (result (m c)) as [a|e].
  - specialize (Hk a (clock (m c))). split.
    + intros [H|H]; [apply Hm in H; discriminate | now apply Hk].
    + intros H. right. now apply Hk.
  - split.
    + intros [H|H]; [|now apply timed_out_nil in H].
      apply Hm in H. now injection H as ->.
    + intros [= ->]. left. now apply Hm.
Qed.

End Uncaught.

Section UncaughtCalls.

Variable env : Env.


Lemma uncaught_get_attribute l a : uncaught (get_attribute env l a).
Proof. unfold get_attribute. now apply uncaught_call. Qed.

Lemma uncaught_inner_text l : uncaught (inner_text env l).
Proof. unfold inner_text. now apply uncaught_call. Qed.

Lemma uncaught_all l : uncaught (all env l).
Proof.
  unfold all. apply uncaught_bind; [now apply uncaught_call|].
  intros n. apply uncaught_ret.
Qed.

Lemma uncaught_collect_options options loc : uncaught (collect_options env options loc).
Proof.
  revert loc. induction options as [|i options IH]; intros loc; simpl.
  - apply uncaught_ret.
  - apply uncaught_bind; [apply uncaught_get_attribute | intros attribute].
    apply uncaught_bind; [apply uncaught_inner_text | intros text].
    apply uncaught_bind; [apply uncaught_get_attribute | intros disabled].
    apply IH.
Qed.

End UncaughtCalls.



(** ** The entries of a menu *)

(** X6: [get_all_options] catches no timeout: a call of a run timed out
    exactly when the run ends with [TimeoutError]. *)
Theorem get_all_options_lets_timeouts_through (env : Env) (node : string) (c : nat) :
  timed_out (events (get_all_options env node c))
  <-> result (get_all_options env node c) = Raise TimeoutError.
Proof.
  revert c. change (uncaught (get_all_options env node)).
  unfold get_all_options, sleep.
  apply uncaught_bind; [apply uncaught_emit | intros _].
  apply uncaught_bind; [apply uncaught_all | intros options].
  apply uncaught_collect_options.
Qed.

Lemma texts_read_app d1 d2 : texts_read (d1 ++ d2) = texts_read d1 ++ texts_read d2.
Proof. apply omap_app. Qed.

Lemma collect_options_texts (env : Env) options loc c kept :
  result (collect_options env options loc c) = Done kept ->
  exists extra,
    kept = loc ++ extra /\
    extra `sublist_of` texts_read (events (collect_options env options loc c)) /\
    length (texts_read (events (collect_options env options loc c))) = length options /\
    clock (collect_options env options loc c) = c + 3 * length options.
Proof.
  revert loc c. induction options as [|i options IH]; intros loc c; simpl.
  - intros [= <-]. exists []. rewrite app_nil_r. repeat split; auto.
  - unfold bind, get_attribute, inner_text, call.
    destruct (env_attr env c) as [attribute| |]; [|discriminate..].
    destruct (env_text env (S c)) as [text| |]; [|discriminate..].
    destruct (env_attr env (S (S c))) as [disabled| |]; [|discriminate..].
    set (loc1 := if negb (String.eqb (default "" attribute) "") && is_None disabled
                 then loc ++ [text] else loc).
    specialize (IH loc1 (S (S (S c)))).
    destruct (collect_options env options loc1 (S (S (S c)))) as [[r c2] d2].
    unfold result, clock, events in *. simpl in *. intros Hr.
    destruct (IH Hr) as (extra & -> & Hsub & Hlen & ->).
    subst loc1.
    destruct (negb (String.eqb (default "" attribute) "") && is_None disabled).
    + exists (text :: extra). rewrite <- app_assoc. split; [reflexivity|].
      split; [now apply sublist_skip|]. split; [now rewrite Hlen | lia].
    + exists extra. split; [reflexivity|].
      split; [now apply sublist_cons|]. split; [now rewrite Hlen | lia].
Qed.

(** X7: the names [get_all_options] returns are texts it has read from the
    page, in the order of the page: a sub-sequence of the texts read.  It
    reads the text of every entry of the menu, keeps at most as many names
    as there are entries, and needs one answer for the list and three per
    entry. *)
Theorem get_all_options_returns_texts_read
    (env : Env) (node : string) (c : nat) (names : list string) :
  let run := get_all_options env node c in
  result run = Done names ->
  names `sublist_of` texts_read (events run) /\
  exists n,
    env_count env c = PwOk n /\
    length (texts_read (events run)) = n /\
    length names <= n /\
    clock run = S c + 3 * n.
Proof.
  intros run. subst run. unfold get_all_options, sleep, emit, all.
  unfold bind, call, ret.
  destruct (env_count env c) as [n| |]; [|discriminate..].
  pose proof (collect_options_texts env
                (map (Nth (Css (node +:+ " option"))) (seq 0 n)) [] (S c) names) as H.
  rewrite List.length_map, List.length_seq in H.
  destruct (collect_options env _ [] (S c)) as [[r c2] d2].
  unfold result, clock, events in *. simpl in *. intros Hr.
  destruct (H Hr) as (extra & -> & Hsub & Hlen & ->).
  split; [exact Hsub|]. exists n. split; [reflexivity|]. split; [exact Hlen|].
  split; [|lia]. apply sublist_length in Hsub. simpl in *. lia.
Qed.

Lemma get_all_options_returns_texts_read_witness :
  let run := get_all_options court_menu COURT_NAME 0 in
  ["1-Principal District Judge"; "3-Civil Judge"] `sublist_of` texts_read (events run) /\
  exists n,
    env_count court_menu 0 = PwOk n /\
    length (texts_read (events run)) = n /\
    length ["1-Principal District Judge"; "3-Civil Judge"] <= n /\
    clock run = 1 + 3 * n.
Proof.
  apply (get_all_options_returns_texts_read court_menu COURT_NAME 0
           ["1-Principal District Judge"; "3-Civil Judge"]).
  reflexivity.
Defined.

(** ** Exceptions *)

Section Throws.

Context {A B : Type} (P : exn -> Prop).

Lemma throws_ret (a : A) : throws P (ret a).
Proof. intros c e [=]. Qed.

Lemma throws_raise (e : exn) : P e -> throws P (@raise A e).
Proof. intros He c e' [= <-]. exact He. Qed.

Lemma throws_emit (a : Action) : throws P (emit a).
Proof. intros c e [=]. Qed.

Lemma throws_call (a : Action) (answer : nat -> pw A) (show : A -> Reply) :
  P TimeoutError -> P PlaywrightError -> throws P (fun c => call a (answer c) show c).
Proof.
  intros H1 H2 c e. unfold call. destruct (answer c); intros [=]; subst; assumption.
Qed.

Lemma throws_bind (m : M A) (k : A -> M B) :
  throws P m -> (forall a, throws P (k a)) -> throws P (bind m k).
Proof.
  intros Hm Hk c e. rewrite result_bind.
  destruct (result (m c)) as [a|e'] eqn:E.
  - apply Hk.
  - intros [= <-]. eapply Hm. exact E.
Qed.

Lemma throws_try (body handler : M A) (catches : exn -> bool) :
  throws (fun e => catches e = false -> P e) body -> throws P handler ->
  throws P (try_except body catches handler).
Proof.
  intros Hb Hh c e. rewrite result_try.
  destruct (result (body c)) as [a|e'] eqn:E; [discriminate|].
  destruct (catches e') eqn:Hc.
  - apply Hh.
  - intros [= <-]. eapply Hb; eassumption.
Qed.

Lemma throws_mono (Q : exn -> Prop) (m : M A) :
  (forall e, Q e -> P e) -> throws Q m -> throws P m.
Proof. intros HQ Hm c e E. apply HQ. eapply Hm. exact E. Qed.

End Throws.

Ltac throws_step env :=
  lazymatch goal with
  | |- throws _ (ret _) => apply throws_ret
  | |- throws _ (raise _) => apply throws_raise
  | |- throws _ (bind _ _) => apply throws_bind; [|intros ?]
  | |- throws _ (try_except _ _ _) => apply throws_try
  | |- throws _ (emit _) => apply throws_emit
  | |- throws _ (playwright _ _) => unfold playwright; apply throws_call
  | |- throws _ (is_visible _ _) => unfold is_visible; apply throws_call
  | |- throws _ (get_attribute _ _ _) => unfold get_attribute; apply throws_call
  | |- throws _ (inner_text _ _) => unfold inner_text; apply throws_call
  | |- throws _ (evaluate _ _) => unfold evaluate; apply throws_call
  end.

Section Raising.

Context {A B : Type}.
Variable P : exn -> list Event -> Prop.
Hypothesis P_suffix : forall e d1 d2, P e d2 -> P e (d1 ++ d2).

Lemma raising_throws (Q : exn -> Prop) (m : M A) :
  (forall e d, Q e -> P e d) -> throws Q m -> raising P m.
Proof. intros HQ Hm c e E. apply HQ. eapply Hm. exact E. Qed.

Lemma raising_bind (m : M A) (k : A -> M B) :
  raising P m -> (forall a, raising P (k a)) -> raising P (bind m k).
Proof.
  intros Hm Hk c e. rewrite result_bind, events_bind.
  destruct (result (m c)) as [a|e'] eqn:E.
  - intros Hr. apply P_suffix. now apply Hk.
  - intros [= <-]. rewrite app_nil_r. now apply Hm.
Qed.

End Raising.

Section Loop.

Variable env : Env.

Lemma decode_error_suffix e d1 d2 :
  decode_error env e d2 -> decode_error env e (d1 ++ d2).
Proof.
  intros H He. destruct (H He) as [-> (url & Hlast & Hurl)].
  split; [reflexivity|]. exists url. split; [|exact Hurl].
  apply last_app_Some. now left.
Qed.

(** A helper that raises no [ValueError]. *)
Lemma decode_error_throws {A} (m : M A) :
  throws (fun e => is_ValueError e = false) m -> raising (decode_error env) m.
Proof.
  apply raising_throws. intros e d He He'. rewrite He in He'. discriminate He'.
Qed.

(** The one [ValueError] of [solve_captcha] is the [binascii.Error] of
    [b64decode]. *)
Lemma solve_captcha_raising : raising (decode_error env) (solve_captcha env).
Proof.
  intros c e.
  unfold solve_captcha, download_image, try_except, bind, evaluate, call, raise, ret,
    print, emit, result, events, decode_error, captured_undecodable, undecodable.
  destruct (env_text env c) as [url| |]; simpl; try (intros [= <-]; discriminate).
  destruct (split "," url !! 1) as [payload|] eqn:E1; simpl;
    [|intros [= <-]; discriminate].
  destruct (b64decode env payload) as [byte|] eqn:E2; simpl.
  - destruct (image_open env byte); simpl; try (intros [= <-]; discriminate).
    destruct (image_to_string env byte); simpl; intros [= <-]; discriminate.
  - intros [= <-] _. split; [reflexivity|]. exists url. split; [reflexivity|]. eauto.
Qed.

Lemma fill_value_throws node text :
  throws (fun e => is_ValueError e = false) (fill_value env node text).
Proof.
  unfold fill_value, fill, print.
  repeat throws_step env; intros; reflexivity.
Qed.

Lemma retry_captcha_raising close case_type :
  raising (decode_error env) (retry_captcha env close case_type).
Proof.
  unfold retry_captcha, click, sleep.
  repeat (apply raising_bind; [apply decode_error_suffix | | intros ?]);
    first [ apply solve_captcha_raising
          | apply decode_error_throws;
            first [ apply fill_value_throws
                  | repeat throws_step env; reflexivity ] ].
Qed.

(** How the loop is left. *)
Lemma captcha_loop_left close case_type idx c :
  match result (captcha_loop env close case_type idx c) with
  | Done k =>
      idx <= k /\
      occurrences (IsVisible (First close))
        (events (captcha_loop env close case_type idx c))
      = S (occurrences (Click (First close))
             (events (captcha_loop env close case_type idx c))) /\
      exists seen,
        last (events (captcha_loop env close case_type idx c))
        = Some (IsVisible (First close), RBool seen) /\
        (k < MAX_ITERATIONS -> seen = false)
  | Raise e => decode_error env e (events (captcha_loop env close case_type idx c))
  end.
Proof.
  funelim (captcha_loop env close case_type idx c).
  all: try match goal with
    | H : is_visible _ _ _ = _ |- _ =>
        unfold is_visible, call in H;
        destruct (env_visible env c) as [seen| |]; inversion H; subst; clear H
    end.
  all: unfold events, result; simpl.
  all: repeat first [ rewrite occurrences_app | rewrite occurrences_here
                    | rewrite occurrences_skip by congruence ];
    change (occurrences _ []) with 0.
  - split; [lia|]. split; [reflexivity|]. eauto.
  - intros He. discriminate He.
  - intros He. discriminate He.
  - split; [lia|]. split; [reflexivity|]. exists true. split; [reflexivity|].
    unfold MAX_ITERATIONS in *. lia.
  - apply (decode_error_suffix e [_] d2).
    pose proof (retry_captcha_raising close case_type (S c) e) as Hretry.
    unfold result, events in Hretry. rewrite Heq in Hretry. now apply Hretry.
  - destruct (retry_captcha_counts env close case_type (S c)) as [H1 H2].
    rewrite Heq0 in H1, H2. unfold events in H1, H2. simpl in H1, H2.
    rewrite Heq in Hind. unfold events, result in Hind. simpl in Hind.
    destruct r as [k|e].
    + destruct Hind as (I1 & I2 & seen & I3 & I4).
      rewrite H1, H2, I2. split; [lia|]. split; [lia|].
      exists seen. split; [|exact I4].
      change ((IsVisible (First close), RBool true) :: d2 ++ d3)
        with (((IsVisible (First close), RBool true) :: d2) ++ d3).
      rewrite last_app, I3. reflexivity.
    + change ((IsVisible (First close), RBool true) :: d2 ++ d3)
        with (((IsVisible (First close), RBool true) :: d2) ++ d3).
      now apply decode_error_suffix.
Qed.

Lemma pass_captcha_events case_type c :
  events (pass_captcha env case_type c)
  = events (captcha_loop env (Css CLOSE) case_type 0 c).
Proof.
  unfold pass_captcha. rewrite events_bind.
  destruct (result _) as [idx|e]; [|apply app_nil_r].
  destruct (Nat.eqb idx MAX_ITERATIONS); apply app_nil_r.
Qed.

End Loop.

(** X8: when [pass_captcha] returns, the last thing it did was to look for
    the error modal and find it gone; fewer than [MAX_ITERATIONS] passes
    were made, and the loop condition was evaluated once more than that. *)
Theorem pass_captcha_returns_after_modal_gone
    (env : Env) (case_type : CaseType) (c : nat) :
  let run := pass_captcha env case_type c in
  result run = Done () ->
  last (events run) = Some (IsVisible (First (Css CLOSE)), RBool false) /\
  retries (events run) < MAX_ITERATIONS /\
  checks (events run) = S (retries (events run)).
Proof.
  intros run. subst run. rewrite pass_captcha_result, pass_captcha_events.
  unfold retries, checks.
  pose proof (captcha_loop_left env (Css CLOSE) case_type 0 c) as Hleft.
  destruct (captcha_loop_counter env (Css CLOSE) case_type 0 c) as (_ & _ & Hidx).
  { unfold MAX_ITERATIONS. lia. }
  destruct (result _) as [k|e]; [|discriminate].
  destruct (Nat.eqb_spec k MAX_ITERATIONS) as [|Hk]; [discriminate|]. intros _.
  destruct Hleft as (_ & Hchecks & seen & Hlast & Hseen).
  destruct (captcha_loop_counter env (Css CLOSE) case_type 0 c) as (Hmax & _ & _).
  { unfold MAX_ITERATIONS. lia. }
  specialize (Hidx k eq_refl). simpl in Hidx, Hmax.
  assert (k < MAX_ITERATIONS) as Hlt by lia.
  rewrite Hlast, (Hseen Hlt). split; [reflexivity|]. split; [lia | exact Hchecks].
Qed.

Lemma pass_captcha_returns_after_modal_gone_witness :
  let run := pass_captcha solved_by_third_retry Criminal 0 in
  last (events run) = Some (IsVisible (First (Css CLOSE)), RBool false) /\
  retries (events run) < MAX_ITERATIONS /\
  checks (events run) = S (retries (events run)).
Proof.
  apply (pass_captcha_returns_after_modal_gone solved_by_third_retry Criminal 0).
  vm_compute. reflexivity.
Defined.



(** * More on [get_pdfs] *)

(** ** Timeouts and exceptions *)




(** ** Writes that are refused *)

Section Strict.

Context {A B : Type}.




End Strict.




Section StrictCalls.

Variable env : Env.






End StrictCalls.





Section GetPdfsGuard.

Variable env : Env.
Variables (self : WebScraper) (state dist court court_name : string).

Let dir := pdf_dir self state dist court court_name.










End GetPdfsGuard.


(** The file system refuses the first export, as it does for a label that
    is too long for a file name: the [OSError] ends the run, although the
    directory was created, and no record is yielded. *)
Example get_pdfs_file_refused :
  let env := {| cwd := "/srv/app"; env_act := fun _ => PwOk ();
                env_visible := fun _ => PwOk false; env_attr := fun _ => PwOk None;
                env_text := fun _ => PwOk "MHPU010012342023"; env_count := fun _ => PwOk 2;
                env_makedirs := fun _ => FsOk; env_write := fun _ => FsOSError;
                b64decode := fun s => Some s; image_open := fun _ => PilImage;
                image_to_string := fun _ => Some "x7Kp2"; re_compile := fun _ => true |} in
  let run := get_pdfs env static_scraper "MH" "Pune" "Court" "1" 0 in
  result run = Raise OSError /\
  In (Makedirs (pdf_dir static_scraper "MH" "Pune" "Court" "1"), RUnit) (events run) /\
  yields (events run) = [].
Proof.
  split; [reflexivity|]. split; [|reflexivity]. vm_compute. auto 10.
Qed.

(** ** The path of a record *)

Lemma split_fields_lack sep s : Forall (fun f => lacks sep f = true) (split sep s).
Proof.
  induction s as [|ch s IH]; simpl.
  - repeat constructor.
  - destruct (Ascii.eqb ch sep) eqn:E.
    + constructor; [reflexivity | exact IH].
    + destruct (split sep s) as [|field fields]; [repeat constructor; simpl; now rewrite E|].
      inversion_clear IH as [|? ? Hfield Hfields].
      constructor; [|exact Hfields]. simpl. now rewrite E, Hfield.
Qed.

Lemma components_normal s :
  Forall (fun x => is_component x = true /\ lacks "/" x = true) (components s).
Proof.
  unfold components. pose proof (split_fields_lack "/" s) as H.
  induction H as [|f fs Hf _ IH]; simpl; [constructor|].
  destruct (is_component f) eqn:E; [constructor; auto | exact IH].
Qed.

Lemma of_string_normal s : normal (of_string s).
Proof. apply components_normal. Qed.

Lemma join1_normal p segment : normal p -> normal (join1 p segment).
Proof.
  intros Hp. unfold join1. destruct (root_of segment); try apply of_string_normal.
  unfold normal. simpl. apply Forall_app. split; [exact Hp | apply components_normal].
Qed.

Lemma joinpath_normal p segments : normal p -> normal (joinpath p segments).
Proof.
  unfold joinpath. revert p. induction segments as [|s segments IH]; intros p Hp; simpl.
  - exact Hp.
  - apply IH. now apply join1_normal.
Qed.

(** The root of a text that starts with another character than the slash. *)
Lemma root_of_other ch s : Ascii.eqb ch "/" = false -> root_of (String ch s) = Relative.
Proof.
  intros Hch. destruct ch as [[] [] [] [] [] [] [] []]; try reflexivity; discriminate.
Qed.

Lemma root_of_slash ch s :
  Ascii.eqb ch "/" = false -> root_of (String "/" (String ch s)) = Slash.
Proof.
  intros Hch. destruct ch as [[] [] [] [] [] [] [] []]; try reflexivity; discriminate.
Qed.

Lemma root_of_two_slashes ch s :
  Ascii.eqb ch "/" = false -> root_of (String "/" (String "/" (String ch s))) = DoubleSlash.
Proof.
  intros Hch. destruct ch as [[] [] [] [] [] [] [] []]; try reflexivity; discriminate.
Qed.

Lemma filter_components ps :
  Forall (fun x => is_component x = true /\ lacks "/" x = true) ps ->
  List.filter is_component ps = ps.
Proof.
  induction 1 as [|x ps [Hx _] _ IH]; simpl; [reflexivity|]. now rewrite Hx, IH.
Qed.

Lemma components_slash s : components (String "/" s) = components s.
Proof. reflexivity. Qed.

(** [Path(str(p)) == p]. *)
Lemma of_string_render p : normal p -> of_string (render p) = p.
Proof.
  destruct p as [r ps]. unfold normal, render. cbn [root parts]. intros Hps.
  destruct ps as [|x xs].
  - destruct r; reflexivity.
  - assert (split "/" (join "/" (x :: xs)) = x :: xs) as Hsplit.
    { apply split_join; [|discriminate].
      eapply Forall_impl; [exact Hps|]. now intros y [_ Hy]. }
    assert (exists ch rest, join "/" (x :: xs) = String ch rest /\ Ascii.eqb ch "/" = false)
      as (ch & rest & Hjoin & Hch).
    { inversion_clear Hps as [|? ? [Hx Hlacks] _].
      destruct x as [|ch x]; [discriminate Hx|].
      simpl in Hlacks. apply andb_prop in Hlacks as [Hch _].
      apply negb_true_iff in Hch.
      destruct xs as [|y ys]; simpl; eauto. }
    assert (components (join "/" (x :: xs)) = x :: xs) as Hcomponents.
    { unfold components. rewrite Hsplit. now apply filter_components. }
    remember (join "/" (x :: xs)) as j eqn:Hj. clear Hj Hsplit.
    unfold of_string.
    destruct r; cbv iota.
    + change (root_string Relative +:+ j) with j.
      rewrite Hcomponents. subst j. now rewrite (root_of_other ch rest Hch).
    + change (root_string Slash +:+ j) with (String "/" j).
      rewrite components_slash, Hcomponents. subst j.
      now rewrite (root_of_slash ch rest Hch).
    + change (root_string DoubleSlash +:+ j) with (String "/" (String "/" j)).
      rewrite !components_slash, Hcomponents. subst j.
      now rewrite (root_of_two_slashes ch rest Hch).
Qed.

Lemma pdf_dir_normal self state dist court court_name :
  normal (pdf_dir self state dist court court_name).
Proof. unfold pdf_dir. apply joinpath_normal, of_string_normal. Qed.

(** X11: the path of a record names the file that was exported for it.
    When a record is yielded, the text of its path, read as a path again,
    is the file [joinpath] names in the output directory after the CNR
    label of the record; that label was read from the page before, and the
    export to that file, made absolute in the working directory, went well
    before the record is yielded. *)
Theorem record_path_names_exported_file
    (env : Env) (self : WebScraper) (state dist court court_name : string) (c : nat)
    (before : list Event) (record : Dict) (reply : Reply) (after : list Event) :
  events (get_pdfs env self state dist court court_name c)
  = before ++ (Yield record, reply) :: after ->
  of_string (path record)
  = joinpath (pdf_dir self state dist court court_name) [cnr record +:+ ".pdf"] /\
  In (InnerText (First (Css CNR_NUMBER)), RText (cnr record)) before /\
  In (Pdf (absolute (cwd env) (of_string (path record))), RUnit) before.
Proof.
  intros E.
  destruct (get_pdfs_exported env self state dist court court_name c before _ after E)
    as [_ Hrecord].
  destruct (Hrecord record reply eq_refl) as (earlier & row & -> & Hpath).
  assert (of_string (path record)
          = joinpath (pdf_dir self state dist court court_name) [cnr record +:+ ".pdf"])
    as Hfile.
  { rewrite Hpath at 1. unfold record_for. simpl path.
    apply of_string_render, joinpath_normal, pdf_dir_normal. }
  split; [exact Hfile|]. rewrite Hfile.
  split; apply List.in_app_iff; right; unfold row_calls; simpl; auto 8.
Qed.

Lemma record_path_names_exported_file_witness :
  let run := get_pdfs (listing "MHPU010012342023" 1) static_scraper "MH" "Pune" "Court" "1" 0 in
  let record := record_for (pdf_dir static_scraper "MH" "Pune" "Court" "1")
                  "MHPU010012342023" in
  of_string (path record)
  = joinpath (pdf_dir static_scraper "MH" "Pune" "Court" "1") [cnr record +:+ ".pdf"] /\
  In (InnerText (First (Css CNR_NUMBER)), RText (cnr record)) (take 10 (events run)) /\
  In (Pdf (absolute "/srv/app" (of_string (path record))), RUnit) (take 10 (events run)).
Proof.
  intros run record.
  apply (record_path_names_exported_file (listing "MHPU010012342023" 1) static_scraper
           "MH" "Pune" "Court" "1" 0 (take 10 (events run)) record RUnit []).
  reflexivity.
Defined.

(** * Sessions *)

(** The retry loop makes the calls of its passes and the evaluations of its
    condition. *)
Lemma captcha_loop_only (P : Action -> Prop) env close case_type idx c :
  P (IsVisible (First close)) ->
  only P (retry_captcha env close case_type) ->
  Forall (fun e => P e.1) (events (captcha_loop env close case_type idx c)).
Proof.
  intros Hcheck Hretry.
  funelim (captcha_loop env close case_type idx c).
  all: try match goal with
    | H : is_visible _ _ _ = _ |- _ =>
        unfold is_visible, call in H;
        destruct (env_visible env c) as [seen| |]; inversion H; subst; clear H
    end.
  all: unfold events; simpl.
  all: repeat (constructor; [exact Hcheck|]); try constructor.
  - specialize (Hretry (S c)). rewrite Heq in Hretry. exact Hretry.
  - apply Forall_app. split.
    + specialize (Hretry (S c)). rewrite Heq0 in Hretry. exact Hretry.
    + specialize (Hind P Hcheck Hretry). rewrite Heq in Hind. exact Hind.
Qed.

Lemma pass_captcha_only (P : Action -> Prop) env case_type :
  P (IsVisible (First (Css CLOSE))) ->
  only P (retry_captcha env (Css CLOSE) case_type) ->
  only P (pass_captcha env case_type).
Proof.
  intros Hcheck Hretry c. rewrite pass_captcha_events.
  now apply captcha_loop_only.
Qed.

Ltac helper_leaf :=
  first [ now constructor | apply ha_print; eexists; reflexivity ].

Section HelperCalls.

Variable env : Env.

Lemma solve_captcha_helper : only helper_action (solve_captcha env).
Proof.
  unfold solve_captcha, download_image, print. only_auto; try helper_leaf.
  - destruct (split "," _ !! 1) as [base64_data|]; [|only_auto].
    destruct (b64decode env base64_data); only_auto.
  - destruct (image_open env _); only_auto.
    destruct (image_to_string env _); only_auto.
Qed.

Lemma fill_value_helper node text : only helper_action (fill_value env node text).
Proof. unfold fill_value, fill, print. only_auto; helper_leaf. Qed.

Lemma menu_helper parent name menu :
  only helper_action
    (try_except (choose_option env parent name) is_TimeoutError
       (print (option_not_found name menu))).
Proof.
  unfold choose_option, click, select_option, print. only_auto; try helper_leaf.
  destruct (re_compile env name); only_auto.
Qed.

Lemma choose_state_helper name : only helper_action (choose_state env name).
Proof. apply (menu_helper STATE name "State"). Qed.

Lemma choose_district_helper name : only helper_action (choose_district env name).
Proof. apply (menu_helper DIST name "District"). Qed.

Lemma choose_complex_helper name : only helper_action (choose_complex env name).
Proof. apply (menu_helper COURT name "Court Complex"). Qed.

Lemma choose_name_helper name : only helper_action (choose_name env name).
Proof. apply (menu_helper COURT_NAME name "Court Name"). Qed.

Lemma pass_captcha_helper case_type : only helper_action (pass_captcha env case_type).
Proof.
  apply pass_captcha_only; [constructor|].
  unfold retry_captcha, click, sleep. only_auto; try helper_leaf.
  - apply solve_captcha_helper.
  - apply fill_value_helper.
Qed.

Lemma get_all_options_helper node : only helper_action (get_all_options env node).
Proof.
  unfold get_all_options, sleep. only_step; [only_auto; helper_leaf|].
  only_step; [only_auto; helper_leaf|].
  match goal with options : list Locator |- _ => generalize options end.
  intros options. generalize (@nil string).
  induction options as [|i options IH]; intros loc; simpl; only_auto;
    try helper_leaf.
  apply IH.
Qed.

Lemma get_pdfs_session self state dist court court_name :
  only (session_action self) (get_pdfs env self state dist court court_name).
Proof.
  unfold get_pdfs, sleep, print.
  only_auto; try (apply sa_helper; helper_leaf).
  match goal with records : list Locator |- _ => destruct records end;
    only_auto; try (now constructor); try (apply sa_helper; helper_leaf).
  unfold export_record, click, sleep, wait_for_load_state, yield.
  only_auto; try (now constructor); try (apply sa_helper; helper_leaf).
Qed.

End HelperCalls.

(** ** The session *)

Lemma session_calls (self : WebScraper) env {A} (body : M A) c :
  only (session_action self) body ->
  session_run self (events (async_with_playwright env body c)).
Proof.
  intros Hbody. unfold async_with_playwright, bind, playwright, call.
  destruct (env_act env c) as [[]| |]; simpl.
  - specialize (Hbody (S c)). destruct (body (S c)) as [[r c1] d].
    right. exists d. split; [reflexivity | exact Hbody].
  - left. exists RTimeout. split; [reflexivity | discriminate].
  - left. exists RError. split; [reflexivity | discriminate].
Qed.

Ltac session_solve :=
  lazymatch goal with
  | |- only _ (if ?b then _ else _) => destruct b
  | _ => idtac
  end;
  first
    [ apply get_pdfs_session
    | eapply only_mono; [apply sa_helper|];
      first [ apply choose_state_helper | apply choose_district_helper
            | apply choose_complex_helper | apply choose_name_helper
            | apply fill_value_helper | apply solve_captcha_helper
            | apply pass_captcha_helper | apply get_all_options_helper ]
    | unfold click, fill, goto, wait_for_load_state, sleep; only_auto;
      first [ now constructor | apply sa_helper; helper_leaf ] ].

Ltac session_steps :=
  repeat (lazymatch goal with
          | |- only _ (bind _ _) => apply only_bind; [session_solve | intros ?]
          | |- only _ (for_each _ _) => apply only_for_each; intros ?
          end);
  try session_solve.

Section SessionRuns.

Variables (env : Env) (self : WebScraper).
Variables (chosen_state chosen_dist chosen_court chosen_date : string).
Variable case_type : CaseType.

Lemma begin_scrape_session chosen_court_name c :
  session_run self
    (events (begin_scrape env self chosen_state chosen_dist chosen_court
               chosen_court_name chosen_date case_type c)).
Proof. unfold begin_scrape. apply session_calls. session_steps. Qed.

Lemma begin_scrape_all_session c :
  session_run self
    (events (begin_scrape_all env self chosen_state chosen_dist chosen_court
               chosen_date case_type c)).
Proof. unfold begin_scrape_all. apply session_calls. session_steps. Qed.

End SessionRuns.

(** X12: every run of [begin_scrape] and of [begin_scrape_all] is a session
    that is closed again.  Either the start of Playwright failed and
    nothing else happened, or the run is the start, then calls of a session
    only, then the end of the session as the very last call: whatever
    ended the run, an exception included.  Between start and end the
    browser is launched with the [HEADLESS] flag of the scraper, and
    nothing is printed but error lines. *)
Theorem scraping_session_is_closed
    (env : Env) (self : WebScraper)
    (chosen_state chosen_dist chosen_court chosen_court_name chosen_date : string)
    (case_type : CaseType) (c : nat) :
  session_run self
    (events (begin_scrape env self chosen_state chosen_dist chosen_court
               chosen_court_name chosen_date case_type c)) /\
  session_run self
    (events (begin_scrape_all env self chosen_state chosen_dist chosen_court
               chosen_date case_type c)).
Proof.
  split; [apply begin_scrape_session | apply begin_scrape_all_session].
Qed.

(** ** The [ValueError]s of a session *)


Section Quietly.

Context {A B : Type}.



End Quietly.


Section QuietSteps.

Variable env : Env.








End QuietSteps.





(** * More on the connection manager *)

(** X14: the newest connection under an id is the one that is served.
    After a socket has connected, it is registered under the id of its
    cookie, whatever was registered there before; a message broadcast to
    that id goes to this socket, and to no other: a connection it has
    replaced receives nothing. *)
Theorem newest_connection_receives
    (s : Server) (websocket : WebSocket) (idx : string) (message : Message) :
  cookies websocket !! AUTH = Some idx ->
  let connected := (connect SocketOk websocket s).2 in
  let after := (broadcast SocketOk idx message connected).2 in
  active_connections connected !! idx = Some websocket /\
  delivered after = delivered s ++ [(websocket, message)] /\
  forall old, old <> websocket -> inbox after old = inbox s old.
Proof.
  intros Hcookie connected after. subst after connected.
  unfold connect. rewrite Hcookie. unfold broadcast. simpl.
  rewrite lookup_insert_eq. simpl.
  split; [reflexivity|]. split; [reflexivity|].
  intros old Hold. unfold inbox. simpl.
  rewrite filter_app, filter_cons_False, filter_nil, app_nil_r by (simpl; congruence).
  reflexivity.
Qed.

Lemma newest_connection_receives_witness :
  let newer := mkWebSocket 3 {[ AUTH := "17" ]} in
  let connected := (connect SocketOk newer two_clients).2 in
  let after := (broadcast SocketOk "17" {[ "cnr" := "MHPU010012342023" ]} connected).2 in
  active_connections connected !! "17" = Some newer /\
  delivered after = delivered two_clients ++ [(newer, {[ "cnr" := "MHPU010012342023" ]})] /\
  forall old, old <> newer -> inbox after old = inbox two_clients old.
Proof.
  apply (newest_connection_receives two_clients (mkWebSocket 3 {[ AUTH := "17" ]}) "17"
           {[ "cnr" := "MHPU010012342023" ]}).
  reflexivity.
Defined.

(** X15: [disconnect] unregisters the id of the socket's cookie, whichever
    socket is registered under it, and whatever comes of closing the
    socket: the entry is removed before [close] is called.  Nothing is
    sent; only a [WebSocketDisconnect] of [close] leaves the method.
    Afterwards a broadcast to the id is dropped silently, and a second
    [disconnect] of the socket raises [KeyError], which the method does not
    catch. *)
Theorem disconnect_unregisters_the_id
    (s : Server) (closed : SocketAnswer) (websocket : WebSocket) (idx : string) :
  cookies websocket !! AUTH = Some idx ->
  is_Some (active_connections s !! idx) ->
  let after := disconnect closed websocket s in
  active_connections after.2 = delete idx (active_connections s) /\
  delivered after.2 = delivered s /\
  (after.1 = None \/ (after.1 = Some WebSocketDisconnect /\ closed = SocketDisconnect)) /\
  (forall answer message, broadcast answer idx message after.2 = (None, after.2)) /\
  (forall closed', disconnect closed' websocket after.2 = (Some KeyError, after.2)).
Proof.
  intros Hcookie [registered Hidx] after. subst after.
  assert (exists r s',
             disconnect closed websocket s = (r, s') /\
             active_connections s' = delete idx (active_connections s) /\
             delivered s' = delivered s /\
             (r = None \/ (r = Some WebSocketDisconnect /\ closed = SocketDisconnect)))
    as (r & s' & -> & Hmap & Hdelivered & Hr).
  { unfold disconnect. rewrite Hcookie, Hidx. destruct closed; eauto 10. }
  simpl. split; [exact Hmap|]. split; [exact Hdelivered|]. split; [exact Hr|]. split.
  - intros answer message. unfold broadcast. now rewrite Hmap, lookup_delete_eq.
  - intros closed'. unfold disconnect. now rewrite Hcookie, Hmap, lookup_delete_eq.
Qed.

Lemma disconnect_unregisters_the_id_witness :
  let stale := mkWebSocket 9 {[ AUTH := "42" ]} in
  let after := disconnect SocketRuntimeError stale two_clients in
  active_connections after.2 = delete "42" (active_connections two_clients) /\
  delivered after.2 = delivered two_clients /\
  (after.1 = None \/
   (after.1 = Some WebSocketDisconnect /\ SocketRuntimeError = SocketDisconnect)) /\
  (forall answer message, broadcast answer "42" message after.2 = (None, after.2)) /\
  (forall closed', disconnect closed' stale after.2 = (Some KeyError, after.2)).
Proof.
  apply (disconnect_unregisters_the_id two_clients SocketRuntimeError
           (mkWebSocket 9 {[ AUTH := "42" ]}) "42").
  - reflexivity.
  - eexists. reflexivity.
Defined.

(** X16: connecting a socket and disconnecting it again leaves no trace
    of its id in the registry: when the id was not registered before, the
    registry is as it was; when it was, the connection that held the id is
    gone with it.  No message is sent on the way. *)
Theorem connect_disconnect_round_trip
    (s : Server) (closed : SocketAnswer) (websocket : WebSocket) (idx : string) :
  cookies websocket !! AUTH = Some idx ->
  let connected := (connect SocketOk websocket s).2 in
  let after := (disconnect closed websocket connected).2 in
  (active_connections s !! idx = None -> active_connections after = active_connections s) /\
  active_connections after !! idx = None /\
  delivered after = delivered s.
Proof.
  intros Hcookie connected after. subst after connected.
  unfold connect. rewrite Hcookie. unfold disconnect. rewrite Hcookie. simpl.
  rewrite lookup_insert_eq.
  destruct closed; simpl; rewrite delete_insert_eq, lookup_delete_eq;
    (split; [intros Hfresh; now apply delete_id | split; reflexivity]).
Qed.

Lemma connect_disconnect_round_trip_witness :
  let websocket := mkWebSocket 3 {[ AUTH := "99" ]} in
  let connected := (connect SocketOk websocket two_clients).2 in
  let after := (disconnect SocketOk websocket connected).2 in
  (active_connections two_clients !! "99" = None ->
   active_connections after = active_connections two_clients) /\
  active_connections after !! "99" = None /\
  delivered after = delivered two_clients.
Proof.
  apply (connect_disconnect_round_trip two_clients SocketOk
           (mkWebSocket 3 {[ AUTH := "99" ]}) "99").
  reflexivity.
Defined.

(** X17: what the manager keeps true in every state it can reach.  Every
    connection is registered under the id of its own cookie, so no socket
    is registered under two ids; and every message that went out went to a
    socket that carries the cookie. *)
Theorem manager_keeps_ids_and_sockets_apart (s : Server) :
  reachable s ->
  (forall idx websocket,
      active_connections s !! idx = Some websocket ->
      cookies websocket !! AUTH = Some idx) /\
  (forall idx1 idx2 websocket,
      active_connections s !! idx1 = Some websocket ->
      active_connections s !! idx2 = Some websocket -> idx1 = idx2) /\
  Forall (fun d => is_Some (cookies d.1 !! AUTH)) (delivered s).
Proof.
  intros Hs. split; [now apply reachable_keyed|]. split.
  - intros idx1 idx2 websocket H1 H2.
    apply (reachable_keyed s Hs) in H1, H2. congruence.
  - induction Hs as [|accepted websocket s Hs IH|closed websocket s Hs IH
                    |answer idx message s Hs IH].
    + constructor.
    + unfold connect. destruct (cookies websocket !! AUTH); [|exact IH].
      destruct accepted; exact IH.
    + unfold disconnect. destruct (cookies websocket !! AUTH) as [idx|]; [|exact IH].
      destruct (active_connections s !! idx); [|exact IH].
      destruct closed; exact IH.
    + unfold broadcast.
      destruct (active_connections s !! idx) as [websocket|] eqn:Hidx; [|exact IH].
      destruct answer; try exact IH. simpl.
      apply Forall_app. split; [exact IH|]. repeat constructor. simpl.
      apply (reachable_keyed s Hs) in Hidx. eauto.
Qed.

Lemma manager_keeps_ids_and_sockets_apart_witness :
  (forall idx websocket,
      active_connections two_clients !! idx = Some websocket ->
      cookies websocket !! AUTH = Some idx) /\
  (forall idx1 idx2 websocket,
      active_connections two_clients !! idx1 = Some websocket ->
      active_connections two_clients !! idx2 = Some websocket -> idx1 = idx2) /\
  Forall (fun d => is_Some (cookies d.1 !! AUTH)) (delivered two_clients).
Proof.
  apply (manager_keeps_ids_and_sockets_apart two_clients).
  unfold two_clients. repeat apply reachable_connect. apply reachable_manager.
Defined.

(** * More on the request handlers *)

Lemma sent_to_app s idx l1 l2 : sent_to s idx (l1 ++ l2) = sent_to s idx l1 ++ sent_to s idx l2.
Proof. unfold sent_to. destruct (_ !! idx); [apply map_app | reflexivity]. Qed.

Lemma sent_to_same s s' idx messages :
  active_connections s' = active_connections s ->
  sent_to s' idx messages = sent_to s idx messages.
Proof. intros E. unfold sent_to. now rewrite E. Qed.

(** One call of [broadcast], seen from the handler. *)
Lemma broadcast_sends answer idx message s :
  let after := broadcast answer idx message s in
  active_connections after.2 = active_connections s /\
  (after.1 = None \/ after.1 = Some WebSocketDisconnect) /\
  (delivered after.2 = delivered s \/
   delivered after.2 = delivered s ++ sent_to s idx [message]) /\
  (answer = SocketOk ->
   after.1 = None /\ delivered after.2 = delivered s ++ sent_to s idx [message]).
Proof.
  unfold broadcast, sent_to.
  destruct (active_connections s !! idx) as [websocket|]; simpl.
  - destruct answer; simpl; repeat split; auto; discriminate.
  - rewrite app_nil_r. repeat split; auto.
Qed.

Section Relay.

Variables (answer : nat -> SocketAnswer) (idx : string).

(** The loop that passes the records on: it changes nothing but the
    messages that went out and the log, sends to the socket of [idx]
    only, and sends records that were yielded, in their order. *)
Lemma relay_frame d n s :
  let '(r, s', n', d') := relay answer idx d n s in
  active_connections s' = active_connections s /\
  d' `prefix_of` d /\
  (r = None -> d' = d) /\
  exists records,
    records `sublist_of` yields d' /\
    delivered s' = delivered s ++ sent_to s idx (map record_message records).
Proof.
  revert n s. induction d as [|[a reply] d IH]; intros n s; simpl.
  - split; [reflexivity|]. split; [reflexivity|]. split; [reflexivity|].
    exists []. split; [constructor|]. unfold sent_to.
    destruct (_ !! idx); simpl; now rewrite app_nil_r.
  - assert (forall x : option ServerError * Server * nat * list Event,
               x = (let '(r, s2, n2, d2) := relay answer idx d n s in
                    (r, s2, n2, (a, reply) :: d2)) ->
               (forall record, a <> Yield record) ->
               let '(r, s', n', d') := x in
               active_connections s' = active_connections s /\
               d' `prefix_of` (a, reply) :: d /\
               (r = None -> d' = (a, reply) :: d) /\
               exists records,
                 records `sublist_of` yields d' /\
                 delivered s' = delivered s ++ sent_to s idx (map record_message records))
      as Hother.
    { intros x -> Ha. specialize (IH n s).
      destruct (relay answer idx d n s) as [[[r s2] n2] d2].
      destruct IH as (Hmap & Hprefix & Hall & records & Hsub & Hdelivered).
      split; [exact Hmap|]. split; [now apply prefix_cons|].
      split; [intros Hr; now rewrite (Hall Hr)|].
      exists records. split; [|exact Hdelivered].
      unfold yields in *. simpl. destruct a; try exact Hsub. now destruct (Ha record). }
    destruct a; try (apply Hother; [reflexivity | intros ?; discriminate]).
    clear Hother.
    pose proof (broadcast_sends (answer n) idx (record_message record) s) as Hsend.
    cbv zeta in Hsend.
    destruct (broadcast (answer n) idx (record_message record) s) as [[e|] s1];
      simpl in Hsend; destruct Hsend as (Hmap & _ & Hdelivered & _).
    + split; [exact Hmap|].
      split; [apply prefix_cons, prefix_nil|]. split; [discriminate|].
      destruct Hdelivered as [Hd|Hd].
      * exists []. split; [apply sublist_nil_l|]. rewrite Hd. unfold sent_to.
        destruct (_ !! idx); simpl; now rewrite app_nil_r.
      * exists [record]. split; [reflexivity | exact Hd].
    + specialize (IH (S n) s1).
      destruct (relay answer idx d (S n) s1) as [[[r s2] n2] d2].
      destruct IH as (Hmap2 & Hprefix & Hall & records & Hsub & Hdelivered2).
      split; [congruence|]. split; [now apply prefix_cons|].
      split; [intros Hr; now rewrite (Hall Hr)|].
      rewrite (sent_to_same s s1) in Hdelivered2 by exact Hmap.
      destruct Hdelivered as [Hd|Hd].
      * exists records. split.
        -- change (yields ((Yield record, reply) :: d2)) with (record :: yields d2).
           now apply sublist_cons.
        -- now rewrite Hdelivered2, Hd.
      * exists (record :: records). split.
        -- change (yields ((Yield record, reply) :: d2)) with (record :: yields d2).
           now apply sublist_skip.
        -- rewrite Hdelivered2, Hd, <- app_assoc, <- sent_to_app. reflexivity.
Qed.

(** When every message is accepted by the socket, every record is passed
    on. *)
Lemma relay_all_sent d n s :
  (forall k, answer k = SocketOk) ->
  exists s',
    relay answer idx d n s = (None, s', n + length (yields d), d) /\
    active_connections s' = active_connections s /\
    delivered s' = delivered s ++ sent_to s idx (map record_message (yields d)).
Proof.
  intros Hok. revert n s. induction d as [|[a reply] d IH]; intros n s; simpl.
  - exists s. rewrite Nat.add_0_r. split; [reflexivity|]. split; [reflexivity|].
    unfold sent_to. destruct (_ !! idx); simpl; now rewrite app_nil_r.
  - assert ((forall record, a <> Yield record) ->
            exists s',
              (let '(r, s2, n2, d2) := relay answer idx d n s in
               (r, s2, n2, (a, reply) :: d2))
              = (None, s', n + length (yields ((a, reply) :: d)), (a, reply) :: d) /\
              active_connections s' = active_connections s /\
              delivered s' = delivered s ++
                sent_to s idx (map record_message (yields ((a, reply) :: d))))
      as Hother.
    { intros Ha. destruct (IH n s) as (s' & -> & Hmap & Hdelivered).
      assert (yields ((a, reply) :: d) = yields d) as ->.
      { unfold yields. simpl. destruct a; try reflexivity. now destruct (Ha record). }
      eauto. }
    destruct a; try (apply Hother; intros ?; discriminate).
    clear Hother.
    pose proof (broadcast_sends (answer n) idx (record_message record) s) as Hsend.
    cbv zeta in Hsend. destruct Hsend as (Hmap & _ & _ & Hsent).
    destruct (Hsent (Hok n)) as [Hnone Hd].
    destruct (broadcast (answer n) idx (record_message record) s) as [r1 s1].
    simpl in *. subst r1.
    destruct (IH (S n) s1) as (s' & -> & Hmap2 & Hdelivered).
    exists s'.
    change (yields ((Yield record, reply) :: d)) with (record :: yields d).
    split; [simpl; f_equal; f_equal; f_equal; lia|]. split; [congruence|].
    rewrite Hdelivered, Hd, (sent_to_same s s1) by exact Hmap.
    rewrite <- app_assoc, <- sent_to_app. reflexivity.
Qed.

End Relay.

(** ** The two handlers *)

Ltac read_field data key :=
  cbv beta; unfold field;
  let v := fresh "v" in
  let E := fresh "E" in
  destruct (data !! key) as [v|] eqn:E; cbn [and_then];
  [ | right; left; eexists _, _; split; [reflexivity|]; split; [|reflexivity]; exact I ].

Lemma case_field_cases data :
  (exists case, data !! "case_type" = Some case /\ (case = "Civil" \/ case = "Criminal") /\
                case_field data = inr (case_type_of case)) \/
  (exists e, rejected e /\ case_field data = inl e).
Proof.
  unfold case_field, field.
  destruct (data !! "case_type") as [case|]; cbn [and_then];
    [|right; eexists; split; [|reflexivity]; exact I].
  destruct (String.eqb_spec case "Civil") as [->|H1]; simpl; [left; eauto|].
  destruct (String.eqb_spec case "Criminal") as [->|H2]; simpl; [left; eauto|].
  right. eexists. split; [|reflexivity]. exact I.
Qed.

Lemma get_court_pdf_cases env answer req s :
  let line := "[ERROR]: Single Court PDF generation failed" in
  let h := get_court_pdf env answer req s in
  (req_cookies req !! AUTH = None /\ h = mkHandled (Some (MissingKey AUTH)) s 0 []) \/
  (exists idx e,
      req_cookies req !! AUTH = Some idx /\ rejected e /\
      h = request_failed line answer idx e s 0 []) \/
  (exists idx chosen_state chosen_dist chosen_court chosen_date chosen_court_name case,
      court_request req idx chosen_state chosen_dist chosen_court chosen_date
        chosen_court_name case /\
      h = relay_run line answer idx
            (begin_scrape env WEBSCRAPER chosen_state chosen_dist chosen_court
               chosen_court_name chosen_date (case_type_of case) 0) s).
Proof.
  intros line h. subst h line. unfold get_court_pdf.
  destruct (req_cookies req !! AUTH) as [idx|] eqn:Hcookie; [|now left].
  unfold with_form. rewrite Hcookie. cbn [is_None].
  destruct (req_form req) as [data| | |] eqn:Hform;
    try (right; left; eexists _, _; split; [reflexivity|]; split; [|reflexivity]; exact I).
  read_field data "chosen_state". read_field data "chosen_dist".
  read_field data "chosen_court". read_field data "chosen_date".
  read_field data "chosen_court_name".
  destruct (case_field_cases data) as [(case & Hcase & Hvalid & ->) | (e & He & ->)];
    cbn [and_then].
  - right. right. exists idx, v, v0, v1, v2, v3, case.
    split; [|reflexivity]. split; [exact Hcookie|]. split; [exact Hvalid|].
    exists data. unfold form_fields. auto 10.
  - right. left. exists idx, e. auto.
Qed.

Lemma get_all_court_pdf_cases env answer req s :
  let line := "[ERROR]: Multiple Court PDF generation failed" in
  let h := get_all_court_pdf env answer req s in
  (req_cookies req !! AUTH = None /\ h = mkHandled (Some (MissingKey AUTH)) s 0 []) \/
  (exists idx e,
      req_cookies req !! AUTH = Some idx /\ rejected e /\
      h = request_failed line answer idx e s 0 []) \/
  (exists idx chosen_state chosen_dist chosen_court chosen_date case,
      all_courts_request req idx chosen_state chosen_dist chosen_court chosen_date case /\
      h = relay_run line answer idx
            (begin_scrape_all env WEBSCRAPER chosen_state chosen_dist chosen_court
               chosen_date (case_type_of case) 0) s).
Proof.
  intros line h. subst h line. unfold get_all_court_pdf.
  destruct (req_cookies req !! AUTH) as [idx|] eqn:Hcookie; [|now left].
  unfold with_form. rewrite Hcookie. cbn [is_None].
  destruct (req_form req) as [data| | |] eqn:Hform;
    try (right; left; eexists _, _; split; [reflexivity|]; split; [|reflexivity]; exact I).
  read_field data "chosen_state". read_field data "chosen_dist".
  read_field data "chosen_court". read_field data "chosen_date".
  destruct (case_field_cases data) as [(case & Hcase & Hvalid & ->) | (e & He & ->)];
    cbn [and_then].
  - right. right. exists idx, v, v0, v1, v2, case.
    split; [|reflexivity]. split; [exact Hcookie|]. split; [exact Hvalid|].
    exists data. unfold form_fields. auto 10.
  - right. left. exists idx, e. auto.
Qed.

Lemma get_court_pdf_serves env answer req s
    idx chosen_state chosen_dist chosen_court chosen_date chosen_court_name case :
  court_request req idx chosen_state chosen_dist chosen_court chosen_date
    chosen_court_name case ->
  get_court_pdf env answer req s
  = relay_run "[ERROR]: Single Court PDF generation failed" answer idx
      (begin_scrape env WEBSCRAPER chosen_state chosen_dist chosen_court
         chosen_court_name chosen_date (case_type_of case) 0) s.
Proof.
  intros (Hcookie & Hvalid & data & (Hform & H1 & H2 & H3 & H4 & H5) & H6).
  unfold get_court_pdf, with_form. rewrite Hcookie, Hform. cbn [is_None].
  unfold case_field, field. rewrite H1, H2, H3, H4, H5, H6. cbn [and_then].
  destruct Hvalid as [-> | ->]; reflexivity.
Qed.

Lemma get_all_court_pdf_serves env answer req s
    idx chosen_state chosen_dist chosen_court chosen_date case :
  all_courts_request req idx chosen_state chosen_dist chosen_court chosen_date case ->
  get_all_court_pdf env answer req s
  = relay_run "[ERROR]: Multiple Court PDF generation failed" answer idx
      (begin_scrape_all env WEBSCRAPER chosen_state chosen_dist chosen_court
         chosen_date (case_type_of case) 0) s.
Proof.
  intros (Hcookie & Hvalid & data & (Hform & H1 & H2 & H3 & H4 & H5)).
  unfold get_all_court_pdf, with_form. rewrite Hcookie, Hform. cbn [is_None].
  unfold case_field, field. rewrite H1, H2, H3, H4, H5. cbn [and_then].
  destruct Hvalid as [-> | ->]; reflexivity.
Qed.

Lemma request_failed_answered line answer idx e s0 s n d records :
  active_connections s = active_connections s0 ->
  records `sublist_of` yields d ->
  delivered s = delivered s0 ++ sent_to s0 idx (map record_message records) ->
  answered s0 idx (request_failed line answer idx e s n d).
Proof.
  intros Hmap Hsub Hdelivered. unfold request_failed.
  destruct (is_handled e).
  - pose proof (broadcast_sends (answer n) idx error_message (logged ERROR line s))
      as Hsend.
    cbv zeta in Hsend.
    destruct (broadcast (answer n) idx error_message (logged ERROR line s)) as [r s1].
    simpl in Hsend. destruct Hsend as (Hmap1 & _ & Hd & _).
    split; [simpl; congruence|]. simpl.
    rewrite (sent_to_same s0 (logged ERROR line s)) in Hd by exact Hmap.
    destruct Hd as [Hd|Hd]; rewrite Hd, Hdelivered.
    + exists records, []. rewrite app_nil_r. auto.
    + exists records, [error_message]. rewrite sent_to_app, app_assoc. auto.
  - split; [exact Hmap|]. exists records, []. rewrite app_nil_r. auto.
Qed.

Lemma relay_run_answered line answer idx run s :
  answered s idx (relay_run line answer idx run s).
Proof.
  unfold relay_run.
  pose proof (relay_frame answer idx (events run) 0 s) as Hrelay.
  destruct (relay answer idx (events run) 0 s) as [[[r s1] n] d].
  destruct Hrelay as (Hmap & _ & _ & records & Hsub & Hdelivered).
  destruct r as [e|]; [now apply (request_failed_answered _ _ _ _ s _ _ _ records)|].
  destruct (result run) as [[]|e];
    [|now apply (request_failed_answered _ _ _ _ s _ _ _ records)].
  split; [exact Hmap|]. exists records, []. rewrite app_nil_r. auto.
Qed.

(** X18: a handler answers the browser that sent the request, and no
    other.  Whatever the request and whatever the portal and the socket
    do, the registry of connections is afterwards as it was, and every
    message that went out went to the connection registered under the id
    of the request's cookie: messages of records the scraper yielded, in
    their order, and at most the error message after them. *)
Theorem handlers_answer_only_the_sender
    (env : Env) (answer : nat -> SocketAnswer) (req : Request) (s : Server) (idx : string) :
  req_cookies req !! AUTH = Some idx ->
  answered s idx (get_court_pdf env answer req s) /\
  answered s idx (get_all_court_pdf env answer req s).
Proof.
  intros Hcookie. split.
  - destruct (get_court_pdf_cases env answer req s)
      as [[Hnone _] | [(idx' & e & Hidx & _ & ->) | (idx' & ? & ? & ? & ? & ? & ? & Hreq & ->)]].
    + congruence.
    + assert (idx' = idx) as -> by congruence.
      apply (request_failed_answered _ _ _ _ s _ _ _ []);
        [reflexivity | apply sublist_nil_l |].
      unfold sent_to. destruct (_ !! idx); simpl; now rewrite app_nil_r.
    + assert (idx' = idx) as -> by (destruct Hreq; congruence).
      apply relay_run_answered.
  - destruct (get_all_court_pdf_cases env answer req s)
      as [[Hnone _] | [(idx' & e & Hidx & _ & ->) | (idx' & ? & ? & ? & ? & ? & Hreq & ->)]].
    + congruence.
    + assert (idx' = idx) as -> by congruence.
      apply (request_failed_answered _ _ _ _ s _ _ _ []);
        [reflexivity | apply sublist_nil_l |].
      unfold sent_to. destruct (_ !! idx); simpl; now rewrite app_nil_r.
    + assert (idx' = idx) as -> by (destruct Hreq; congruence).
      apply relay_run_answered.
Qed.

(** The run of the scraper behind a handler, when every message is
    accepted by the socket. *)
Lemma relay_run_all_sent line answer idx run s :
  (forall k, answer k = SocketOk) ->
  let h := relay_run line answer idx run s in
  let records := map record_message (yields (events run)) in
  calls h = events run /\
  match result run with
  | Done _ =>
      raised h = None /\
      broadcasts h = length (yields (events run)) /\
      delivered (server h) = delivered s ++ sent_to s idx records
  | Raise e =>
      if is_handled (OfScraper e)
      then raised h = None /\
           delivered (server h) = delivered s ++ sent_to s idx (records ++ [error_message])
      else raised h = Some (OfScraper e) /\
           delivered (server h) = delivered s ++ sent_to s idx records
  end.
Proof.
  intros Hok h records. subst h records. unfold relay_run.
  destruct (relay_all_sent answer idx (events run) 0 s Hok) as (s1 & -> & Hmap & Hd).
  destruct (result run) as [[]|e]; [simpl; auto|].
  unfold request_failed. destruct (is_handled (OfScraper e)); [|simpl; auto].
  pose proof (broadcast_sends (answer (0 + length (yields (events run)))) idx error_message
                (logged ERROR line s1)) as Hsend.
  cbv zeta in Hsend. destruct Hsend as (_ & _ & _ & Hsent).
  destruct (Hsent (Hok _)) as [Hnone Hd1].
  destruct (broadcast _ idx error_message (logged ERROR line s1)) as [r s2].
  simpl in *. subst r. split; [reflexivity|]. split; [reflexivity|].
  rewrite Hd1. simpl delivered. rewrite Hd.
  rewrite (sent_to_same s (logged ERROR line s1)) by exact Hmap.
  now rewrite <- app_assoc, <- sent_to_app.
Qed.

(** X19: for a request with all its fields, when the socket accepts every
    message and the scraper comes to its end, the handler passes on every
    record: it returns normally, the scraper ran to its end, and the
    messages sent are those of the records yielded, all of them and in
    their order, one broadcast per record. *)
Theorem handlers_relay_every_record
    (env : Env) (answer : nat -> SocketAnswer) (req : Request) (s : Server)
    (idx chosen_state chosen_dist chosen_court chosen_date case : string) :
  (forall k, answer k = SocketOk) ->
  let relayed := fun (h : Handled) (run : Run unit) =>
    result run = Done () ->
    raised h = None /\
    calls h = events run /\
    broadcasts h = length (yields (events run)) /\
    delivered (server h)
    = delivered s ++ sent_to s idx (map record_message (yields (events run))) in
  (forall chosen_court_name,
      court_request req idx chosen_state chosen_dist chosen_court chosen_date
        chosen_court_name case ->
      relayed (get_court_pdf env answer req s)
        (begin_scrape env WEBSCRAPER chosen_state chosen_dist chosen_court
           chosen_court_name chosen_date (case_type_of case) 0)) /\
  (all_courts_request req idx chosen_state chosen_dist chosen_court chosen_date case ->
   relayed (get_all_court_pdf env answer req s)
     (begin_scrape_all env WEBSCRAPER chosen_state chosen_dist chosen_court
        chosen_date (case_type_of case) 0)).
Proof.
  intros Hok relayed. subst relayed. cbv beta. split.
  - intros chosen_court_name Hreq Hdone.
    rewrite (get_court_pdf_serves _ _ _ _ _ _ _ _ _ _ _ Hreq).
    pose proof (relay_run_all_sent "[ERROR]: Single Court PDF generation failed"
                  answer idx
                  (begin_scrape env WEBSCRAPER chosen_state chosen_dist chosen_court
                     chosen_court_name chosen_date (case_type_of case) 0) s Hok) as H.
    cbv zeta in H. rewrite Hdone in H. tauto.
  - intros Hreq Hdone.
    rewrite (get_all_court_pdf_serves _ _ _ _ _ _ _ _ _ _ Hreq).
    pose proof (relay_run_all_sent "[ERROR]: Multiple Court PDF generation failed"
                  answer idx
                  (begin_scrape_all env WEBSCRAPER chosen_state chosen_dist chosen_court
                     chosen_date (case_type_of case) 0) s Hok) as H.
    cbv zeta in H. rewrite Hdone in H. tauto.
Qed.


Lemma request_failed_rejected line answer idx e s key :
  rejected e ->
  raised (request_failed line answer idx e s 0 []) = Some (MissingKey key) ->
  request_failed line answer idx e s 0 [] = mkHandled (Some (MissingKey key)) s 0 [].
Proof.
  intros He. unfold request_failed.
  destruct e; try destruct He; simpl.
  - now intros [= ->].
  - destruct (broadcast _ _ _ _) as [[r|] s1]; simpl; intros H; discriminate H.
  - destruct (broadcast _ _ _ _) as [[r|] s1]; simpl; intros H; discriminate H.
  - intros H; discriminate H.
Qed.

Lemma relay_run_raised line answer idx run s key :
  raised (relay_run line answer idx run s) <> Some (MissingKey key).
Proof.
  unfold relay_run.
  destruct (relay answer idx (events run) 0 s) as [[[[e|] s1] n] d].
  - unfold request_failed. simpl. intros H. discriminate H.
  - destruct (result run) as [[]|e]; [simpl; intros H; discriminate H|].
    unfold request_failed. destruct (is_handled (OfScraper e)).
    + destruct (broadcast _ _ _ _) as [[r|] s2]; simpl; intros H; discriminate H.
    + simpl. intros H. discriminate H.
Qed.

(** X21: a request that is turned down starts no browser.  Without the
    cookie both handlers end with the [KeyError] of the lookup in their
    first line, before the [try]; a handler that ends with a [KeyError],
    for the cookie or for a field of the form, has left the manager as it
    was, sent nothing and made no call; and a handler that made a call
    served a request with the cookie, every field it reads and one of the
    two case types. *)
Theorem rejected_request_starts_no_browser
    (env : Env) (answer : nat -> SocketAnswer) (req : Request) (s : Server) :
  let single := get_court_pdf env answer req s in
  let every := get_all_court_pdf env answer req s in
  let untouched := mkHandled (Some (MissingKey AUTH)) s 0 [] in
  (req_cookies req !! AUTH = None -> single = untouched /\ every = untouched) /\
  (forall key,
      (raised single = Some (MissingKey key) ->
       single = mkHandled (Some (MissingKey key)) s 0 []) /\
      (raised every = Some (MissingKey key) ->
       every = mkHandled (Some (MissingKey key)) s 0 [])) /\
  (calls single <> [] ->
   exists idx chosen_state chosen_dist chosen_court chosen_date chosen_court_name case,
     court_request req idx chosen_state chosen_dist chosen_court chosen_date
       chosen_court_name case) /\
  (calls every <> [] ->
   exists idx chosen_state chosen_dist chosen_court chosen_date case,
     all_courts_request req idx chosen_state chosen_dist chosen_court chosen_date case).
Proof.
  intros single every untouched. subst untouched.
  split; [|split; [|split]].
  - intros Hnone. subst single every. unfold get_court_pdf, get_all_court_pdf.
    rewrite Hnone. auto.
  - intros key. split.
    + destruct (get_court_pdf_cases env answer req s)
        as [[_ E] | [(idx & e & _ & He & E) | (idx & ? & ? & ? & ? & ? & ? & _ & E)]];
        fold single in E; rewrite E.
      * now intros [= <-].
      * now apply request_failed_rejected.
      * intros H. now apply relay_run_raised in H.
    + destruct (get_all_court_pdf_cases env answer req s)
        as [[_ E] | [(idx & e & _ & He & E) | (idx & ? & ? & ? & ? & ? & _ & E)]];
        fold every in E; rewrite E.
      * now intros [= <-].
      * now apply request_failed_rejected.
      * intros H. now apply relay_run_raised in H.
  - destruct (get_court_pdf_cases env answer req s)
      as [[_ E] | [(idx & e & _ & He & E) | (idx & ? & ? & ? & ? & ? & ? & Hreq & _)]];
      [fold single in E; rewrite E.. | eauto 10].
    + now intros [].
    + unfold request_failed. destruct (is_handled e); [|now intros []].
      destruct (broadcast _ _ _ _) as [r s1]. now intros [].
  - destruct (get_all_court_pdf_cases env answer req s)
      as [[_ E] | [(idx & e & _ & He & E) | (idx & ? & ? & ? & ? & ? & Hreq & _)]];
      [fold every in E; rewrite E.. | eauto 10].
    + now intros [].
    + unfold request_failed. destruct (is_handled e); [|now intros []].
      destruct (broadcast _ _ _ _) as [r s1]. now intros [].
Qed.

(** X22: a case type that is neither [Civil] nor [Criminal] fails the
    assertion of the handlers: the failure is logged, the error message is
    sent to the browser of the request, in one broadcast, the handler
    returns normally, and no browser is started. *)
Theorem invalid_case_type_is_reported
    (env : Env) (answer : nat -> SocketAnswer) (req : Request) (s : Server)
    (idx case : string) (data : gmap string string) :
  req_cookies req !! AUTH = Some idx ->
  req_form req = FormData data ->
  is_Some (data !! "chosen_state") -> is_Some (data !! "chosen_dist") ->
  is_Some (data !! "chosen_court") -> is_Some (data !! "chosen_date") ->
  data !! "case_type" = Some case -> case <> "Civil" -> case <> "Criminal" ->
  answer 0 = SocketOk ->
  let reported := fun (line : string) (h : Handled) =>
    raised h = None /\ calls h = [] /\ broadcasts h = 1 /\
    active_connections (server h) = active_connections s /\
    delivered (server h) = delivered s ++ sent_to s idx [error_message] /\
    In (ERROR, line) (journal (server h)) in
  (is_Some (data !! "chosen_court_name") ->
   reported "[ERROR]: Single Court PDF generation failed"
     (get_court_pdf env answer req s)) /\
  reported "[ERROR]: Multiple Court PDF generation failed"
    (get_all_court_pdf env answer req s).
Proof.
  intros Hcookie Hform [v1 H1] [v2 H2] [v3 H3] [v4 H4] Hcase Hcivil Hcriminal Hok reported.
  subst reported. cbv beta.
  assert (case_field data = inl (AssertionError "Chosen State must be a string")) as Hfield.
  { unfold case_field, field. rewrite Hcase. cbn [and_then].
    destruct (String.eqb_spec case "Civil"); [contradiction|].
    destruct (String.eqb_spec case "Criminal"); [contradiction|]. reflexivity. }
  assert (forall line,
             let h := request_failed line answer idx
                        (AssertionError "Chosen State must be a string") s 0 [] in
             raised h = None /\ calls h = [] /\ broadcasts h = 1 /\
             active_connections (server h) = active_connections s /\
             delivered (server h) = delivered s ++ sent_to s idx [error_message] /\
             In (ERROR, line) (journal (server h))) as Hfailed.
  { intros line. unfold request_failed. cbn [is_handled]. rewrite Hok.
    unfold broadcast, sent_to. cbn [active_connections logged].
    destruct (active_connections s !! idx) as [websocket|]; simpl.
    - repeat split; auto. apply List.in_app_iff. left. apply List.in_app_iff. right. now left.
    - rewrite app_nil_r. repeat split; auto. apply List.in_app_iff. right. now left. }
  split.
  - intros [v5 H5]. unfold get_court_pdf, with_form. rewrite Hcookie, Hform. cbn [is_None].
    unfold field. rewrite H1, H2, H3, H4, H5, Hfield. cbn [and_then]. apply Hfailed.
  - unfold get_all_court_pdf, with_form. rewrite Hcookie, Hform. cbn [is_None].
    unfold field. rewrite H1, H2, H3, H4, Hfield. cbn [and_then]. apply Hfailed.
Qed.

Lemma pune_request_is_served :
  court_request pune_request "17" "MH" "Pune" "Court" "10-11-2026" "1" "Civil".
Proof.
  split; [reflexivity|]. split; [now left|]. exists pune_form.
  repeat split; reflexivity.
Qed.

Lemma handlers_answer_only_the_sender_witness :
  answered two_clients "17"
    (get_court_pdf two_rows (fun _ => SocketOk) pune_request two_clients) /\
  answered two_clients "17"
    (get_all_court_pdf two_rows (fun _ => SocketOk) pune_request two_clients).
Proof.
  apply (handlers_answer_only_the_sender two_rows (fun _ => SocketOk) pune_request
           two_clients "17").
  reflexivity.
Defined.

Lemma handlers_relay_every_record_witness :
  let run := begin_scrape two_rows WEBSCRAPER "MH" "Pune" "Court" "1" "10-11-2026"
               (case_type_of "Civil") 0 in
  let h := get_court_pdf two_rows (fun _ => SocketOk) pune_request two_clients in
  raised h = None /\
  calls h = events run /\
  broadcasts h = length (yields (events run)) /\
  delivered (server h)
  = delivered two_clients
    ++ sent_to two_clients "17" (map record_message (yields (events run))).
Proof.
  apply (proj1 (handlers_relay_every_record two_rows (fun _ => SocketOk) pune_request
                  two_clients "17" "MH" "Pune" "Court" "10-11-2026" "Civil"
                  (fun _ => eq_refl)) "1").
  - exact pune_request_is_served.
  - vm_compute. reflexivity.
Defined.


Lemma invalid_case_type_is_reported_witness :
  let form := <[ "case_type" := "Family" ]> pune_form in
  let req := {| req_cookies := {[ AUTH := "17" ]}; req_form := FormData form |} in
  let h := get_all_court_pdf two_rows (fun _ => SocketOk) req two_clients in
  raised h = None /\ calls h = [] /\ broadcasts h = 1 /\
  active_connections (server h) = active_connections two_clients /\
  delivered (server h) = delivered two_clients ++ sent_to two_clients "17" [error_message] /\
  In (ERROR, "[ERROR]: Multiple Court PDF generation failed") (journal (server h)).
Proof.
  refine (proj2 (invalid_case_type_is_reported two_rows (fun _ => SocketOk)
                   {| req_cookies := {[ AUTH := "17" ]};
                      req_form := FormData (<[ "case_type" := "Family" ]> pune_form) |}
                   two_clients "17" "Family" (<[ "case_type" := "Family" ]> pune_form)
                   _ _ _ _ _ _ _ _ _ _));
    first [ reflexivity | discriminate | eexists; reflexivity ].
Defined.

(** * The command line *)

(** ** The date *)

Lemma split_nonempty sep s : split sep s <> [].
Proof.
  destruct s as [|ch s]; simpl; [discriminate|].
  destruct (Ascii.eqb ch sep); [discriminate|].
  destruct (split sep s); discriminate.
Qed.

Lemma join_split sep s : join (String sep "") (split sep s) = s.
Proof.
  induction s as [|ch s IH]; simpl; [reflexivity|].
  pose proof (split_nonempty sep s) as Hne.
  destruct (Ascii.eqb_spec ch sep) as [->|_].
  - destruct (split sep s) as [|field fields]; [contradiction|].
    change (join (String sep "") ("" :: field :: fields))
      with (String sep (join (String sep "") (field :: fields))).
    now rewrite IH.
  - destruct (split sep s) as [|field fields]; [contradiction|].
    destruct fields as [|field' fields].
    + simpl in *. now rewrite IH.
    + change (join (String sep "") (String ch field :: field' :: fields))
        with (String ch (join (String sep "") (field :: field' :: fields))).
      now rewrite IH.
Qed.

Lemma split_three sep a b c :
  lacks sep a = true -> lacks sep b = true -> lacks sep c = true ->
  split sep (a +:+ String sep "" +:+ b +:+ String sep "" +:+ c) = [a; b; c].
Proof.
  intros Ha Hb Hc. apply (split_join sep [a; b; c]); [|discriminate].
  repeat constructor; assumption.
Qed.

(** X23: [DateAction.__call__] stores the value of [--date] unchanged, or
    raises the [ValueError] "Date must be in format: DD-MM-YYYY, Got: ..."
    with the value in it.  It stores the value exactly when the value is
    three fields with no hyphen in them, joined by two hyphens, and
    [datetime.date.fromisoformat] accepts the fields in the order third,
    second, first. *)
Theorem DateAction_takes_three_fields (fromisoformat : string -> bool) (values : string) :
  (DateAction_call fromisoformat values = Done values \/
   DateAction_call fromisoformat values
   = Raise (ValueError ("Date must be in format: DD-MM-YYYY, Got: " +:+ values))) /\
  (DateAction_call fromisoformat values = Done values <->
   exists day month year,
     values = day +:+ "-" +:+ month +:+ "-" +:+ year /\
     lacks "-" day = true /\ lacks "-" month = true /\ lacks "-" year = true /\
     fromisoformat (year +:+ "-" +:+ month +:+ "-" +:+ day) = true).
Proof.
  unfold DateAction_call.
  pose proof (join_split "-" values) as Hjoin.
  pose proof (split_fields_lack "-" values) as Hlacks.
  destruct (split "-" values) as [|day [|month [|year [|more fields]]]] eqn:Hsplit.
  1-3, 5: split; [now right|]; split; [discriminate|];
    intros (day' & month' & year' & -> & Hd & Hm & Hy & _);
    rewrite (split_three "-" day' month' year' Hd Hm Hy) in Hsplit;
    discriminate Hsplit.
  split.
  - destruct (fromisoformat _); auto.
  - split.
    + intros Hdone. exists day, month, year.
      inversion_clear Hlacks as [|? ? Hd Hrest].
      inversion_clear Hrest as [|? ? Hm Hrest'].
      inversion_clear Hrest' as [|? ? Hy _].
      split; [symmetry; exact Hjoin|].
      destruct (fromisoformat _); [auto | discriminate].
    + intros (day' & month' & year' & Hvalues & Hd & Hm & Hy & Hiso).
      rewrite Hvalues in Hsplit.
      rewrite (split_three "-" day' month' year' Hd Hm Hy) in Hsplit.
      injection Hsplit as <- <- <-. now rewrite Hiso.
Qed.

(** ** What [main] prints *)


Lemma saved_line_success record : success_line (saved_line record).
Proof. eexists. reflexivity. Qed.


Lemma In_report_inv a reply d :
  In (a, reply) (report d) ->
  In (a, reply) d \/ exists record, a = Print (saved_line record).
Proof.
  induction d as [|[a' reply'] d IH]; [intros []|].
  assert (In (a, reply) ((a', reply') :: report d) ->
          In (a, reply) ((a', reply') :: d) \/ exists record, a = Print (saved_line record))
    as Hother.
  { intros [E|Hin]; [left; now left|].
    destruct (IH Hin) as [H|H]; [left; now right | now right]. }
  destruct a'; try exact Hother.
  simpl. intros [E|[[= <- _]|Hin]].
  - left. now left.
  - right. eauto.
  - destruct (IH Hin) as [H|H]; [left; now right | now right].
Qed.



(** ** Records and their files *)







Section Exports.

Variables (env : Env) (self : WebScraper).
Variables (chosen_state chosen_dist chosen_court chosen_date : string).
Variable case_type : CaseType.



End Exports.

(** ** The script *)

(** The run of the script is the run of one of the two entry points, with
    the lines of [main] in it, unless the arguments are turned down. *)
Lemma cli_run env args :
  (events (cli env args) = [] /\ exists message, result (cli env args) = Raise (ValueError message)) \/
  exists run,
    (run = begin_scrape_all env (web args) (arg_state args) (arg_district args)
             (arg_complex args) (arg_date args) (caseType args) 0 /\
     arg_all args = true /\ truthy (arg_name args) = false \/
     exists name,
       run = begin_scrape env (web args) (arg_state args) (arg_district args)
               (arg_complex args) name (arg_date args) (caseType args) 0 /\
       arg_all args = false /\ arg_name args = Some name) /\
    events (cli env args) = report (events run) /\
    result (cli env args) = result run.
Proof.
  unfold cli.
  destruct (arg_all args) eqn:Hall; destruct (arg_name args) as [[|ch name]|] eqn:Hname;
    cbn [andb truthy].
  - right. eexists. split; [left; split; [reflexivity | auto]|].
    destruct (begin_scrape_all _ _ _ _ _ _ _ 0) as [[r c] d]. auto.
  - left. eauto.
  - right. eexists. split; [left; split; [reflexivity | auto]|].
    destruct (begin_scrape_all _ _ _ _ _ _ _ 0) as [[r c] d]. auto.
  - right. eexists. split; [right; eexists; split; [reflexivity | auto]|].
    destruct (begin_scrape _ _ _ _ _ _ _ _ 0) as [[r c] d]. auto.
  - right. eexists. split; [right; eexists; split; [reflexivity | auto]|].
    destruct (begin_scrape _ _ _ _ _ _ _ _ 0) as [[r c] d]. auto.
  - left. eauto.
Qed.


(** X25: when the script makes any call, either [-a] is set and [-n] is
    absent or empty, or [-a] is not set and [-n] is given; a browser it
    launches is launched with [args.verbose] as its [headless] flag, which
    [--verbose] sets to [False]; and Playwright is started first, if at
    all. *)
Theorem cli_starts_the_browser_as_asked (env : Env) (args : Namespace) :
  (events (cli env args) <> [] ->
   (arg_all args = true /\ truthy (arg_name args) = false) \/
   (arg_all args = false /\ is_Some (arg_name args))) /\
  (forall h reply, In (Launch h, reply) (events (cli env args)) -> h = arg_verbose args) /\
  (forall reply, In (Start, reply) (events (cli env args)) ->
                 exists e, head (events (cli env args)) = Some (Start, e)).
Proof.
  destruct (cli_run env args) as [[-> _] | (run & Hrun & -> & _)].
  { split; [now intros []|]. split; [intros h reply [] | intros reply []]. }
  assert (session_run (web args) (events run)) as Hsession.
  { destruct Hrun as [(-> & _) | (name & -> & _)];
      [exact (begin_scrape_all_session _ _ _ _ _ _ _ 0)
      | exact (begin_scrape_session _ _ _ _ _ _ _ _ 0)]. }
  split; [|split].
  - intros _. destruct Hrun as [(_ & H1 & H2) | (name & _ & H1 & H2)]; [now left|].
    right. split; [exact H1|]. rewrite H2. eauto.
  - intros h reply Hin. apply In_report_inv in Hin as [Hin | [record [=]]].
    destruct Hsession as [(r & E & _) | (body & E & Hbody)]; rewrite E in Hin.
    + destruct Hin as [[=]|[]].
    + destruct Hin as [[=]|Hin]. apply List.in_app_iff in Hin as [Hin|[[=]|[]]].
      rewrite Forall_forall in Hbody. apply list_elem_of_In in Hin.
      specialize (Hbody _ Hin). simpl in Hbody.
      inversion Hbody as [? Ha| | | | | | |]; subst; [inversion Ha | reflexivity].
  - intros reply _.
    destruct Hsession as [(r & -> & _) | (body & -> & _)]; simpl; eauto.
Qed.

(** The script on a visit without surprises: one line for each of the two
    rows. *)
Example cli_one_court_lines :
  printed (events (cli two_rows one_court))
  = ["[SUCCESS]: Saved CNR 'MHPU010012342023' to out/MH/Pune/Court/1/MHPU010012342023.pdf";
     "[SUCCESS]: Saved CNR 'MHPU010045672023' to out/MH/Pune/Court/1/MHPU010045672023.pdf"].
Proof. vm_compute. reflexivity. Qed.
